(** * GitLab merge-request list enhancer: the content script, embedded and verified

    A shallow embedding of [src/js/content.js] (classes [GitLabApiClient] and
    [ContentScript]) together with the properties stated for it.

    - JavaScript strings are [string]s, a character outside ASCII being the
      sequence of its UTF-8 bytes; numbers that are identifiers are [N];
      objects used as maps ([dataset], headers, JSON payloads) are [gmap]s.
    - The document is a tree of [Node]s addressed by child-index paths; the
      selector engine covers the selectors the script uses (tag, class and
      attribute tests joined by descendant combinators).
    - Console output, alerts, timers and network calls are recorded as a list
      of [Event]s in program order.
    - Code that may raise returns an [Exit]: the state it leaves, and
      whether it returned.
    - Browser services whose code is not part of the script (the outcome of a
      network call, the [URL] class, the [DOMParser]) are inputs of the
      model. *)

From Equations Require Import Equations.
From stdpp Require Import gmap strings list pretty.
From Stdlib Require Import Ascii.

(* ===================================================================== *)
(** * Part I: the embedding *)
(* ===================================================================== *)

(** ** JavaScript string primitives used by the script *)

Module JsString.

Definition chars : string → list ascii := String.list_ascii_of_string.
Definition of_chars : list ascii → string := String.string_of_list_ascii.

(** White space as [trim] and [parseInt] take it, each character as its
    bytes: U+0009 to U+000D, U+0020, U+00A0, U+1680, U+2000 to U+200A,
    U+2028, U+2029, U+202F, U+205F, U+3000 and U+FEFF. *)
Definition whiteSpaceCodes : list (list N) :=
  [ [9]; [10]; [11]; [12]; [13]; [32];
    [194; 160];
    [225; 154; 128];
    [226; 128; 128]; [226; 128; 129]; [226; 128; 130]; [226; 128; 131];
    [226; 128; 132]; [226; 128; 133]; [226; 128; 134]; [226; 128; 135];
    [226; 128; 136]; [226; 128; 137]; [226; 128; 138];
    [226; 128; 168]; [226; 128; 169];
    [226; 128; 175];
    [226; 129; 159];
    [227; 128; 128];
    [239; 187; 191] ]%N.

Definition whiteSpace (w : list ascii) : bool :=
  bool_decide ((N_of_ascii <$> w) ∈ whiteSpaceCodes).

(** The number of bytes of the white space character that [l] starts
    with, [0] when it starts with none. With [back] the list is read as
    the bytes of a string from its end. *)
Definition ws_len (back : bool) (l : list ascii) : nat :=
  let read k := if back then reverse (take k l) else take k l in
  if whiteSpace (read 1) then 1
  else if whiteSpace (read 2) then 2
  else if whiteSpace (read 3) then 3
  else 0.

Fixpoint strip (back : bool) (l : list ascii) : list ascii :=
  match l with
  | [] => []
  | _ :: l1 =>
      match ws_len back l with
      | 1 => strip back l1
      | 2 => match l1 with _ :: l2 => strip back l2 | [] => l end
      | 3 => match l1 with _ :: _ :: l3 => strip back l3 | _ => l end
      | _ => l
      end
  end.

(** Without the white space in front *)
Definition ltrim (l : list ascii) : list ascii := strip false l.

Definition trim_l (l : list ascii) : list ascii :=
  reverse (strip true (reverse (ltrim l))).

(** [s.trim()] *)
Definition trim (s : string) : string := of_chars (trim_l (chars s)).

Fixpoint is_prefix (p l : list ascii) : bool :=
  match p, l with
  | [], _ => true
  | a :: p', b :: l' => bool_decide (a = b) && is_prefix p' l'
  | _ :: _, [] => false
  end.

Fixpoint includes_l (p l : list ascii) : bool :=
  is_prefix p l ||
  match l with
  | [] => false
  | _ :: l' => includes_l p l'
  end.

(** [s.includes(needle)] *)
Definition includes (s needle : string) : bool :=
  includes_l (chars needle) (chars s).

(** [s.startsWith(p)] and [s.endsWith(p)] *)
Definition startsWith (s p : string) : bool := is_prefix (chars p) (chars s).
Definition endsWith (s p : string) : bool :=
  is_prefix (reverse (chars p)) (reverse (chars s)).

Fixpoint replace_l (pat rep l : list ascii) : list ascii :=
  if is_prefix pat l then rep ++ drop (length pat) l
  else match l with
       | [] => []
       | c :: l' => c :: replace_l pat rep l'
       end.

(** [s.replace(pat, rep)] with a string pattern: first occurrence only. *)
Definition replace (s pat rep : string) : string :=
  of_chars (replace_l (chars pat) (chars rep) (chars s)).

Definition in_range (lo hi c : ascii) : bool :=
  (N_of_ascii lo <=? N_of_ascii c)%N && (N_of_ascii c <=? N_of_ascii hi)%N.

Definition lower_char (c : ascii) : ascii :=
  if in_range "A" "Z" c then ascii_of_N (N_of_ascii c + 32) else c.

(** [s.toLowerCase()] on the ASCII range *)
Definition toLowerCase (s : string) : string :=
  of_chars (lower_char <$> chars s).

(** [String(b)] for a boolean *)
Definition of_bool (b : bool) : string := if b then "true" else "false".

(** [String(n)] for a non-negative integer below 2^53 *)
Definition of_N (n : N) : string := pretty n.

End JsString.

(** ** Regular expressions

    The two patterns of the script, ["[A-Z]{1,10}-\\d+"] and ["^WIP:"], are
    sequences of single-character atoms, each with a greedy quantifier. The
    matcher below is the backtracking matcher of the language restricted to
    such patterns: a quantified atom first takes as many characters as it
    may and gives them back one at a time while the rest fails. *)

Module JsRegExp.
Import JsString.

Inductive atom :=
| AChar (c : ascii)          (* a literal character *)
| ARange (lo hi : ascii)     (* [lo-hi] *)
| ADigit.                    (* \d *)

Definition atom_accepts (a : atom) (c : ascii) : bool :=
  match a with
  | AChar d => bool_decide (c = d)
  | ARange lo hi => in_range lo hi c
  | ADigit => in_range "0" "9" c
  end.

(** atom{t_min,t_max}; [t_max = None] is an open bound *)
Record term := Term { t_atom : atom; t_min : nat; t_max : option nat }.

Definition lit (c : ascii) : term := Term (AChar c) 1 (Some 1).
Definition plus (a : atom) : term := Term a 1 None.

Record RegExp := { anchored : bool; terms : list term }.

Fixpoint match_rep (a : atom) (k : list ascii → option nat)
    (lo : nat) (hi : option nat) (s : list ascii) : option nat :=
  let stop := match lo with 0 => k s | S _ => None end in
  match s with
  | c :: s' =>
      if atom_accepts a c && negb (bool_decide (hi = Some 0)) then
        match match_rep a k (pred lo) (pred <$> hi) s' with
        | Some n => Some (S n)
        | None => stop
        end
      else stop
  | [] => stop
  end.

(** Length of the match of the whole sequence at the start of the input. *)
Fixpoint match_terms (ts : list term) : list ascii → option nat :=
  match ts with
  | [] => λ _, Some 0
  | t :: ts' => match_rep (t_atom t) (match_terms ts') (t_min t) (t_max t)
  end.

Fixpoint exec_from (ts : list term) (s : list ascii) (i : nat)
    : option (nat * nat) :=
  match match_terms ts s with
  | Some n => Some (i, n)
  | None =>
      match s with
      | [] => None
      | _ :: s' => exec_from ts s' (S i)
      end
  end.

(** Index and length of the leftmost match. *)
Definition exec_l (re : RegExp) (s : list ascii) : option (nat * nat) :=
  if anchored re then (λ n, (0, n)) <$> match_terms (terms re) s
  else exec_from (terms re) s 0.

(** [re.exec(s)], reduced to [results[0]] (or [null]). *)
Definition exec (re : RegExp) (s : string) : option string :=
  '(i, n) ← exec_l re (chars s);
  Some (of_chars (take n (drop i (chars s)))).

(** [s.replace(re, rep)] for a regular expression without the [g] flag. *)
Definition replace (s : string) (re : RegExp) (rep : string) : string :=
  match exec_l re (chars s) with
  | Some (i, n) =>
      of_chars (take i (chars s) ++ chars rep ++ drop (i + n) (chars s))
  | None => s
  end.

End JsRegExp.

(** ** Records fetched from the API *)

(** The [author] object of a record, as far as the script reads it *)
Record Author := { name : string }.

Record MergeRequest := {
  id : N;
  iid : N;
  title : string;
  web_url : string;
  author : option Author;    (* [None]: the record has no author ([null] or absent) *)
  state : string;
  source_branch : string;
  target_branch : string;
  work_in_progress : bool;
}.

Module Jira.
Import JsRegExp.

(** [new RegExp("[A-Z]{1,10}-\\d+")] *)
Definition jiraTicketIdRegex : RegExp :=
  {| anchored := false;
     terms := [Term (ARange "A" "Z") 1 (Some 10); lit "-"; plus ADigit] |}.

Definition findFirstJiraTicketId (mergeRequest : MergeRequest) : option string :=
  match exec jiraTicketIdRegex (source_branch mergeRequest) with
  | Some results => Some results
  | None =>
      match exec jiraTicketIdRegex (title mergeRequest) with
      | Some results => Some results
      | None => None
      end
  end.

End Jira.

(** ** The document tree and its selector engine *)

Module Dom.

#[warnings="-register-all"]
Inductive Node :=
| Text (data : string)
| Element (tag : string) (attrs : gmap string string) (children : list Node).

(** A node is addressed by the child indices leading to it from the root. *)
Definition path := list nat.

(** What a selector inspects of an element: tag name and attributes. *)
Definition einfo : Type := string * gmap string string.

Definition classList (a : gmap string string) : list string :=
  String.words (default "" (a !! "class")).

Inductive simple :=
| STag (t : string)               (* a *)
| SClass (c : string)             (* .c *)
| SAttr (name value : string).    (* [name="value"] *)

(** A compound selector is a conjunction of simple ones; a selector is a
    chain of compounds joined by descendant combinators, outermost first. *)
Definition compound := list simple.
Definition selector := list compound.

Definition matches_simple (e : einfo) (s : simple) : bool :=
  match s with
  | STag t => bool_decide (e.1 = t)
  | SClass c => bool_decide (c ∈ classList e.2)
  | SAttr n v => bool_decide (e.2 !! n = Some v)
  end.

Definition matches_compound (c : compound) (e : einfo) : bool :=
  forallb (matches_simple e) c.

(** [cs]: the compounds still to be found, innermost first;
    [anc]: the ancestors of the element, nearest first. *)
Fixpoint matches_ancestors (cs : list compound) (anc : list einfo) : bool :=
  match cs, anc with
  | [], _ => true
  | _ :: _, [] => false
  | c :: cs', a :: anc' =>
      if matches_compound c a then matches_ancestors cs' anc'
      else matches_ancestors cs anc'
  end.

Definition matches (sel : selector) (anc : list einfo) (e : einfo) : bool :=
  match reverse sel with
  | [] => false
  | c :: cs => matches_compound c e && matches_ancestors cs anc
  end.

(** Paths, in document order, of the elements of [n] (itself included)
    that [sel] selects, [anc] being the ancestors of [n]. *)
Fixpoint qsa_node (sel : selector) (anc : list einfo) (n : Node) : list path :=
  match n with
  | Text _ => []
  | Element t a cs =>
      (if matches sel anc (t, a) then [[]] else []) ++
      (fix go (i : nat) (cs : list Node) : list path :=
         match cs with
         | [] => []
         | c :: cs' =>
             ((i ::.) <$> qsa_node sel ((t, a) :: anc) c) ++ go (S i) cs'
         end) 0 cs
  end.

(** The same over a list of siblings, the first of which has index [i]. *)
Fixpoint qsa_forest (sel : selector) (anc : list einfo) (i : nat)
    (cs : list Node) : list path :=
  match cs with
  | [] => []
  | c :: cs' => ((i ::.) <$> qsa_node sel anc c) ++ qsa_forest sel anc (S i) cs'
  end.

(** The node at a path, with its ancestors (nearest first). *)
Fixpoint locate (anc : list einfo) (n : Node) (p : path)
    : option (list einfo * Node) :=
  match p with
  | [] => Some (anc, n)
  | i :: p' =>
      match n with
      | Element t a cs => c ← cs !! i; locate ((t, a) :: anc) c p'
      | Text _ => None
      end
  end.

Definition get (doc : Node) (p : path) : option Node := snd <$> locate [] doc p.

(** [document.querySelectorAll(sel)] and [document.querySelector(sel)] *)
Definition querySelectorAll (doc : Node) (sel : selector) : list path :=
  qsa_node sel [] doc.
Definition querySelector (doc : Node) (sel : selector) : option path :=
  head (querySelectorAll doc sel).

(** [el.querySelectorAll(sel)] and [el.querySelector(sel)] for the element
    [el] at path [p]: its proper descendants that [sel] selects, the
    selector being matched against the whole document. *)
Definition querySelectorAll_at (doc : Node) (p : path) (sel : selector)
    : list path :=
  match locate [] doc p with
  | Some (anc, Element t a cs) => (p ++.) <$> qsa_forest sel ((t, a) :: anc) 0 cs
  | _ => []
  end.
Definition querySelector_at (doc : Node) (p : path) (sel : selector)
    : option path :=
  head (querySelectorAll_at doc p sel).

(** Replace the node at [p] by its image under [f]. *)
Fixpoint update (f : Node → Node) (p : path) (n : Node) : Node :=
  match p with
  | [] => f n
  | i :: p' =>
      match n with
      | Element t a cs => Element t a (alter (update f p') i cs)
      | Text _ => n
      end
  end.

Definition concat_strings (l : list string) : string := foldr String.append "" l.

(** [node.textContent] (getter) *)
Fixpoint textContent (n : Node) : string :=
  match n with
  | Text s => s
  | Element _ _ cs => concat_strings (textContent <$> cs)
  end.

Definition text_nodes (s : string) : list Node :=
  if decide (s = "") then [] else [Text s].

(** [el.textContent = s] *)
Definition set_textContent (s : string) (n : Node) : Node :=
  match n with
  | Element t a _ => Element t a (text_nodes s)
  | Text _ => Text s
  end.

(** [el.append(...nodes)] *)
Definition append (new : list Node) (n : Node) : Node :=
  match n with
  | Element t a cs => Element t a (cs ++ new)
  | Text _ => n
  end.

(** The attribute behind [el.dataset.key]: ["data-"] followed by the key
    with every ASCII capital [X] turned into [-x]. *)
Definition kebab_char (c : ascii) : list ascii :=
  if JsString.in_range "A" "Z" c then ["-"%char; JsString.lower_char c] else [c].
Definition dataset_attr (key : string) : string :=
  "data-" +:+ JsString.of_chars (JsString.chars key ≫= kebab_char).

Definition attributes (n : Node) : gmap string string :=
  match n with
  | Element _ a _ => a
  | Text _ => ∅
  end.

(** [el.dataset.key] (undefined is [None]) and [el.dataset.key = v] *)
Definition dataset_get (n : Node) (key : string) : option string :=
  attributes n !! dataset_attr key.
Definition dataset_set (key v : string) (n : Node) : Node :=
  match n with
  | Element t a cs => Element t (<[dataset_attr key := v]> a) cs
  | Text _ => n
  end.

(** Detach every element that [sel] selects: what
    [querySelectorAll(sel).forEach(el => el.parentNode.removeChild(el))]
    leaves of the subtree [n], whose ancestors are [anc]. The root of the
    document is kept: the selectors removed by the script have a
    descendant combinator and cannot select it. *)
Fixpoint remove_matching (sel : selector) (anc : list einfo) (n : Node) : Node :=
  match n with
  | Text _ => n
  | Element t a cs =>
      Element t a
        (omap (λ c,
                 match c with
                 | Element t' a' _ =>
                     if matches sel ((t, a) :: anc) (t', a') then None
                     else Some (remove_matching sel ((t, a) :: anc) c)
                 | Text _ => Some c
                 end) cs)
  end.

Definition elem (tag : string) (a : list (string * string)) (cs : list Node)
    : Node :=
  Element tag (list_to_map a) cs.

(** The double quote *)
Definition dq : string := String "034"%char EmptyString.

End Dom.

(** ** Observable effects *)

Inductive JsValue :=
| JNumber (n : Z)
| JNaN
| JString (s : string)
| JBool (b : bool).

(** What [fetch] is called with. The URL is kept in parts: base, endpoint and
    the query parameters appended by [createEndpointUrl]. *)
Record Request := {
  req_method : string;
  req_base : string;
  req_endpoint : string;
  req_query : list (string * string);
  req_headers : gmap string string;
  req_body : option (gmap string JsValue);    (* the object passed to JSON.stringify *)
}.

Inductive Event :=
| ConsoleError (msg : string) (args : list string)
| Alert (msg : string)
| Fetch (req : Request)
| SetTimeout (ms : N).

(** How a piece of the script that works on a state ends: it returns, or
    it raises (a [TypeError]); either way it leaves a state. *)
Inductive Exit (S : Type) :=
| Normal (s : S)
| Abrupt (s : S).
Arguments Normal {S} _.
Arguments Abrupt {S} _.

Definition final {S} (e : Exit S) : S :=
  match e with
  | Normal s | Abrupt s => s
  end.

(** [array.forEach(callback)] for a callback that may raise: the first
    raise ends the loop. *)
Fixpoint forEach {A S} (callback : S → A → Exit S) (s : S) (array : list A) : Exit S :=
  match array with
  | [] => Normal s
  | x :: array' =>
      match callback s x with
      | Normal s' => forEach callback s' array'
      | Abrupt s' => Abrupt s'
      end
  end.

(** How the promise returned by [sendRequest] settles: with the decoded body
    of an [ok] response, or rejected (network failure, a response that is
    not [ok], a body that is not JSON). *)
Inductive Outcome (A : Type) :=
| Fulfilled (responseData : A)
| Rejected.
Arguments Fulfilled {A} _.
Arguments Rejected {A}.

(** ** class GitLabApiClient *)

Module GitLabApiClient.

Record Client := { baseUrl : string; csrfToken : option string }.

(** JavaScript truthiness of a value that is a string or [null] *)
Definition truthy (o : option string) : bool :=
  match o with
  | Some s => negb (bool_decide (s = ""))
  | None => false
  end.

(** [sendRequest] returns [undefined] ([None]) without calling [fetch]
    when a POST, PUT or PATCH is asked for and there is no CSRF token;
    otherwise it calls [fetch] and returns the promise of that call. *)
Definition sendRequest (this : Client) (method endpoint : string)
    (queryStringParameters : option (list (string * string)))
    (data : option (gmap string JsValue)) : option Request * list Event :=
  let write := bool_decide (JsString.toLowerCase method ∈ ["post"; "put"; "patch"]) in
  if write && negb (truthy (csrfToken this)) then
    (None, [ConsoleError "Cannot issue POST/PUT/PATCH requests without CSRF token" []])
  else
    let headers : gmap string string :=
      if write then {[ "X-CSRF-Token" := default "" (csrfToken this) ]} else ∅ in
    let headers :=
      if data is Some _ then <["Content-Type" := "application/json"]> headers
      else headers in
    let req := {| req_method := method;
                  req_base := baseUrl this;
                  req_endpoint := endpoint;
                  req_query := default [] queryStringParameters;
                  req_headers := headers;
                  req_body := data |} in
    (Some req, [Fetch req]).

(** The [catch] handler that [sendRequest] attaches to the promise. *)
Definition on_settled {A} (o : Outcome A) : list Event :=
  match o with
  | Fulfilled _ => []
  | Rejected =>
      [ConsoleError "Got error from GitLab:" [];
       Alert "Got error from GitLab, check console for more information."]
  end.

Definition getProjectMergeRequests (this : Client) (projectId : string)
    (mergeRequestIds : list string) : option Request * list Event :=
  let queryStringParameters := (λ mergeRequestId, ("iids[]", mergeRequestId)) <$> mergeRequestIds in
  sendRequest this "GET" ("projects/" +:+ projectId +:+ "/merge_requests")
    (Some queryStringParameters) None.

Fixpoint digits_value (acc : option Z) (l : list ascii) : option Z :=
  match l with
  | c :: l' =>
      if JsString.in_range "0" "9" c then
        digits_value (Some (10 * default 0%Z acc + (Z.of_N (N_of_ascii c) - 48))%Z) l'
      else acc
  | [] => acc
  end.

(** [parseInt(s, 10)] *)
Definition parseInt (s : string) : JsValue :=
  let l := JsString.ltrim (JsString.chars s) in
  let '(neg, l) :=
    match l with
    | "-"%char :: l' => (true, l')
    | "+"%char :: l' => (false, l')
    | _ => (false, l)
    end in
  match digits_value None l with
  | Some v => JNumber (if neg then - v else v)
  | None => JNaN
  end.

Definition updateProjectMergeRequest (this : Client) (projectId mergeRequestId : string)
    (data : gmap string JsValue) : option Request * list Event :=
  let dataToSend : gmap string JsValue :=
    {[ "id" := parseInt projectId; "merge_request_iid" := parseInt mergeRequestId ]} in
  (* Object.assign(dataToSend, data) *)
  let dataToSend := data ∪ dataToSend in
  sendRequest this "PUT"
    ("projects/" +:+ projectId +:+ "/merge_requests/" +:+ mergeRequestId)
    None (Some dataToSend).

End GitLabApiClient.

(** ** Injecting parsed HTML *)

(** The browser's [DOMParser], as far as [parseHtml] uses it:
    [parseFromString(html, "text/html").querySelector("body").childNodes],
    the child nodes of the body of the document parsed from [html]. *)
Class DomParser := { parseFromString : string → list Dom.Node }.

Module HtmlInjection.
Import JsString Dom.

(** [childNodes.forEach(callback)] for a callback that moves the node it
    is given out of the list. [childNodes] is live: the loop runs for the
    length that the list has at the start, and step [k] takes the member
    of index [k] of the list as it is by then, if there is one. The result
    lists the nodes handed to the callback. *)
Fixpoint forEach_moving (steps k : nat) (live : list Node) : list Node :=
  match steps with
  | 0 => []
  | S steps' =>
      match live !! k with
      | Some node => node :: forEach_moving steps' (S k) (delete k live)
      | None => forEach_moving steps' (S k) live
      end
  end.

(** [parseHtml(html, callback)], for the three callbacks of the script,
    which all move the node: [roots] are the children of the body of the
    document parsed from [html]; the result lists the nodes that the
    callback is applied to. *)
Definition parseHtml (roots : list Node) : list Node :=
  forEach_moving (length roots) 0 roots.

(** [el.prepend(node)] *)
Definition prepend (node : Node) (n : Node) : Node :=
  match n with
  | Element t a cs => Element t a (node :: cs)
  | Text _ => n
  end.

(** [el.insertBefore(node, child)], [child] being the child of index [i] *)
Definition insertBefore (i : nat) (node : Node) (n : Node) : Node :=
  match n with
  | Element t a cs => Element t a (take i cs ++ node :: drop i cs)
  | Text _ => n
  end.

Definition parseHtmlAndPrepend (targetNode : path) (roots : list Node) (doc : Node)
    : Node :=
  foldl (λ doc node, update (prepend node) targetNode doc) doc (parseHtml roots).

Definition parseHtmlAndAppend (targetNode : path) (roots : list Node) (doc : Node)
    : Node :=
  foldl (λ doc node, update (append [node]) targetNode doc) doc (parseHtml roots).

(** [targetNode] is the child of index [i] of the element at [parent];
    every node inserted before it moves it one place further. *)
Definition parseHtmlAndInsertBefore (parent : path) (i : nat) (roots : list Node)
    (doc : Node) : Node :=
  (foldl (λ '(doc, i) node, (update (insertBefore i node) parent doc, S i))
     (doc, i) (parseHtml roots)).1.

End HtmlInjection.

(** ** class ContentScript

    Diagnostics are the [console.error] calls; the informational
    [console.log] lines of the script are not recorded. A diagnostic is
    kept as its message and the arguments that follow it, as strings. *)

Module ContentScript.
Import Dom GitLabApiClient HtmlInjection.

Record Preferences := {
  display_source_and_target_branches : bool;
  base_jira_url : string;
  copy_mr_info_format : string;
}.

Record Script := {
  currentProjectId : string;
  baseProjectUrl : string;
  apiClient : Client;
  preferences : Preferences;
}.

Definition cls (c : string) : compound := [SClass c].

(** *** Readiness poller and identity extraction *)

Definition referenceSelectors : list selector :=
  [ [cls "mr-list"; cls "merge-request"; cls "issuable-reference"];
    [cls "merge-request"; cls "issuable-reference"];
    [[SAttr "data-testid" "merge-request-item"]; cls "issuable-reference"];
    [cls "gl-list-item"; cls "issuable-reference"] ].

(** The loop [for (let selector of selectors) { mrElements = ...; if
    (mrElements.length > 0) break; }] *)
Fixpoint firstNonEmpty (doc : Node) (selectors : list selector) : list path :=
  match selectors with
  | [] => []
  | selector :: rest =>
      match querySelectorAll doc selector with
      | [] => firstNonEmpty doc rest
      | mrElements => mrElements
      end
  end.

Definition getCurrentMergeRequestIds (doc : Node) : list string :=
  let mrElements := firstNonEmpty doc referenceSelectors in
  omap (λ p, (λ el, JsString.replace (JsString.trim (textContent el)) "!" "")
               <$> get doc p) mrElements.

Definition maxAttempts : nat := 10.

Inductive PollerOutcome :=
| Found (attempt : nat) (mergeRequestIds : list string)
| Exhausted.

(** [checkForMergeRequests], the closure that [setTimeout] re-schedules.
    [attempts] is the captured counter on entry and [docAt k] the document
    as the [k]-th attempt sees it. The events are those up to and
    including the call of [fetch]. *)
Equations? checkForMergeRequests (this : Script) (docAt : nat → Node)
    (attempts : nat) : PollerOutcome * list Event
    by wf (maxAttempts - attempts) lt :=
  checkForMergeRequests this docAt attempts
    with firstNonEmpty (docAt (S attempts)) referenceSelectors := {
    | _ :: _ =>
        let currentMergeRequestIds := getCurrentMergeRequestIds (docAt (S attempts)) in
        (Found (S attempts) currentMergeRequestIds,
         (getProjectMergeRequests (apiClient this) (currentProjectId this)
            currentMergeRequestIds).2)
    | [] with decide (S attempts < maxAttempts) := {
        | left Hlt =>
            let r := checkForMergeRequests this docAt (S attempts) in
            (r.1, SetTimeout 1000 :: r.2)
        | right _ =>
            (Exhausted,
             [ConsoleError "❌ GitLab MR Enhancer: Could not find merge requests after"
                [pretty maxAttempts; "attempts"]])
      }
    }.
Proof. unfold maxAttempts in *. lia. Qed.

Definition waitForMergeRequestsAndProcess (this : Script) (docAt : nat → Node)
    : PollerOutcome * list Event :=
  checkForMergeRequests this docAt 0.

(** *** Annotator *)

(** The fifth assignment reads [mergeRequest.author.name]: on a record
    without author it raises, the first four fields being written. *)
Definition setDataAttributesToMergeRequestNode (mergeRequest : MergeRequest)
    (mergeRequestNode : Node) : Exit Node :=
  let n := dataset_set "title" (title mergeRequest) mergeRequestNode in
  let n := dataset_set "iid" (JsString.of_N (iid mergeRequest)) n in
  let n := dataset_set "url" (web_url mergeRequest) n in
  let n := dataset_set "diffsUrl" (web_url mergeRequest +:+ "/diffs") n in
  match author mergeRequest with
  | None => Abrupt n
  | Some author =>
      let n := dataset_set "authorName" (name author) n in
      let n := dataset_set "status" (state mergeRequest) n in
      let n := dataset_set "sourceBranchName" (source_branch mergeRequest) n in
      let n := dataset_set "targetBranchName" (target_branch mergeRequest) n in
      Normal (dataset_set "isWip" (JsString.of_bool (work_in_progress mergeRequest)) n)
  end.

(** A call [f(el)] that works on the element at [p] in place *)
Definition update_exit (f : Node → Exit Node) (p : path) (doc : Node) : Exit Node :=
  let doc' := update (λ n, final (f n)) p doc in
  match f <$> get doc p with
  | Some (Abrupt _) => Abrupt doc'
  | _ => Normal doc'
  end.

(** *** Reconciler *)

Definition removedSelector : selector :=
  [cls "mr-list"; cls "merge-request"; cls "project-ref-path"].

Definition removeExistingTargetBranchNodes (doc : Node) : Node :=
  remove_matching removedSelector [] doc.

(** An entry of the [selectors] array of [updateMergeRequestsNodes]: a
    selector handed to [document.querySelector], or the entry containing
    [":has"], for which the script scans the [.merge-request] elements
    itself, looking for ["!" + mergeRequest.iid]. *)
Inductive NodeSelector :=
| Css (sel : selector)
| HasContains (needle : string).

Definition nodeSelectors (mergeRequest : MergeRequest) : list NodeSelector :=
  [ Css [[SClass "merge-request"; SAttr "data-qa-issue-id" (JsString.of_N (id mergeRequest))]];
    Css [[SClass "merge-request"; SAttr "data-id" (JsString.of_N (id mergeRequest))]];
    Css [[SClass "merge-request"; SAttr "data-iid" (JsString.of_N (iid mergeRequest))]];
    HasContains ("!" +:+ JsString.of_N (iid mergeRequest));
    Css [cls "merge-request"] ].

(** [referenceEl && referenceEl.textContent.includes(needle)] for the
    [.merge-request] element at [p] *)
Definition referenceIncludes (doc : Node) (needle : string) (p : path) : bool :=
  match querySelector_at doc p [cls "issuable-reference"] ≫= get doc with
  | Some referenceEl => JsString.includes (textContent referenceEl) needle
  | None => false
  end.

(** The scan [for (let node of allMrNodes) { ... break; }] *)
Definition manualSearch (doc : Node) (needle : string) : option path :=
  let allMrNodes := querySelectorAll doc [cls "merge-request"] in
  snd <$> list_find (λ p, referenceIncludes doc needle p = true) allMrNodes.

(** The loop [for (let selector of selectors)] *)
Fixpoint findMergeRequestNode (doc : Node) (selectors : list NodeSelector)
    : option path :=
  match selectors with
  | [] => None
  | HasContains needle :: rest =>
      match manualSearch doc needle with
      | Some mergeRequestNode => Some mergeRequestNode
      | None => findMergeRequestNode doc rest
      end
  | Css selector :: rest =>
      match querySelector doc selector with
      | Some mergeRequestNode => Some mergeRequestNode
      | None => findMergeRequestNode doc rest
      end
  end.

(** The HTML text built for the source branch *)
Definition newInfoLineToInject (this : Script) (mergeRequest : MergeRequest) : string :=
  "<div class=" +:+ dq +:+ "issuable-info" +:+ dq +:+ ">" +:+
  "<span class=" +:+ dq +:+ "project-ref-path has-tooltip" +:+ dq +:+
  " title=" +:+ dq +:+ "Source branch" +:+ dq +:+ ">" +:+
  "<a class=" +:+ dq +:+ "ref-name" +:+ dq +:+ " href=" +:+ dq +:+
  baseProjectUrl this +:+ "/-/commits/" +:+ source_branch mergeRequest +:+
  dq +:+ ">" +:+ source_branch mergeRequest +:+ "</a>" +:+
  "</span>" +:+ "</div>".

(** The callback of [mergeRequests.forEach]. *)
Definition updateMergeRequestNode `{DomParser} (this : Script) (st : Node * list Event)
    (mergeRequest : MergeRequest) : Exit (Node * list Event) :=
  let '(doc, events) := st in
  match findMergeRequestNode doc (nodeSelectors mergeRequest) with
  | None =>
      Normal
        (doc, events ++
              [ConsoleError "❌ GitLab MR Enhancer: Could not find MR node for IID:"
                 [JsString.of_N (iid mergeRequest); "or ID:";
                  JsString.of_N (id mergeRequest)]])
  | Some mergeRequestNode =>
      match update_exit (setDataAttributesToMergeRequestNode mergeRequest)
              mergeRequestNode doc with
      | Abrupt doc => Abrupt (doc, events)
      | Normal doc =>
          if display_source_and_target_branches (preferences this) then
            match querySelector_at doc mergeRequestNode [cls "issuable-main-info"] with
            | Some targetElement =>
                Normal
                  (parseHtmlAndAppend targetElement
                     (parseFromString (newInfoLineToInject this mergeRequest)) doc,
                   events)
            | None =>
                Normal
                  (doc, events ++
                        [ConsoleError
                           "❌ GitLab MR Enhancer: Could not find .issuable-main-info element for MR"
                           [JsString.of_N (iid mergeRequest)]])
            end
          else Normal (doc, events)
      end
  end.

Definition updateMergeRequestsNodes `{DomParser} (this : Script) (doc : Node)
    (mergeRequests : list MergeRequest) : Exit (Node * list Event) :=
  forEach (updateMergeRequestNode this) (doc, []) mergeRequests.

(** The [then] callback of [fetchMergeRequestsDetailsThenUpdateUI]: one
    reconciliation pass over the fetched records. *)
Definition onMergeRequestsFetched `{DomParser} (this : Script) (doc : Node)
    (responseData : list MergeRequest) : Exit (Node * list Event) :=
  let doc :=
    if display_source_and_target_branches (preferences this)
    then removeExistingTargetBranchNodes doc else doc in
  updateMergeRequestsNodes this doc responseData.

(** When the [then] callback raises, the promise it returns is rejected
    and the [catch] callback logs the error. *)
Definition fetchMergeRequestsDetailsThenUpdateUI `{DomParser} (this : Script) (doc : Node)
    (mergeRequestIds : list string) (outcome : Outcome (list MergeRequest))
    : Node * list Event :=
  let '(promise, events) :=
    getProjectMergeRequests (apiClient this) (currentProjectId this) mergeRequestIds in
  match promise, outcome with
  | None, _ => (doc, events)
  | Some _, Fulfilled responseData =>
      match onMergeRequestsFetched this doc responseData with
      | Normal (doc, events') => (doc, events ++ events')
      | Abrupt (doc, events') =>
          (doc, events ++ events' ++
                [ConsoleError "❌ GitLab MR Enhancer: Error fetching MR details:" []])
      end
  | Some _, Rejected =>
      (doc, events ++ on_settled (@Rejected (list MergeRequest)) ++
            [ConsoleError "❌ GitLab MR Enhancer: Error fetching MR details:" []])
  end.

(** *** Work-in-progress toggle *)

(** [new RegExp("^WIP:")] *)
Definition wipRegex : JsRegExp.RegExp :=
  {| JsRegExp.anchored := true;
     JsRegExp.terms := JsRegExp.lit <$> JsString.chars "WIP:" |}.

(** The title sent by the toggle; [None] is the [TypeError] raised when
    [dataset.title] is undefined. *)
Definition newTitleFor (mergeRequestNode : Node) : option string :=
  let isWip := bool_decide (dataset_get mergeRequestNode "isWip" = Some "true") in
  title ← dataset_get mergeRequestNode "title";
  Some (if isWip then JsString.trim (JsRegExp.replace title wipRegex "")
        else "WIP: " +:+ JsString.trim title).

Definition titleLinkSelector : selector := [cls "merge-request-title-text"; [STag "a"]].

(** State after a click has been handled and the request, if one was
    issued, has settled. [t_disabled] is [toggleButton.disabled];
    [t_thrown] tells that the call itself raised a [TypeError];
    [t_handler_threw] that the [then] callback raised one. *)
Record ToggleResult := {
  t_doc : Node;
  t_disabled : bool;
  t_events : list Event;
  t_thrown : bool;
  t_handler_threw : bool;
}.

Definition toggleMergeRequestWipStatus (this : Script) (doc : Node)
    (mergeRequestNode : path) (outcome : Outcome MergeRequest) : ToggleResult :=
  (* toggleButton.disabled = true *)
  match get doc mergeRequestNode ≫= (λ node, pair node <$> newTitleFor node) with
  | None =>
      {| t_doc := doc; t_disabled := true; t_events := [];
         t_thrown := true; t_handler_threw := false |}
  | Some (node, newTitle) =>
      let mergeRequestId := default "undefined" (dataset_get node "iid") in
      let '(promise, events) :=
        updateProjectMergeRequest (apiClient this) (currentProjectId this)
          mergeRequestId {[ "title" := JString newTitle ]} in
      match promise, outcome with
      | None, _ =>
          (* [undefined.then]: the handlers are never attached *)
          {| t_doc := doc; t_disabled := true; t_events := events;
             t_thrown := true; t_handler_threw := false |}
      | Some _, Rejected =>
          {| t_doc := doc; t_disabled := false;
             t_events := events ++ on_settled (@Rejected MergeRequest);
             t_thrown := false; t_handler_threw := false |}
      | Some _, Fulfilled responseData =>
          let doc :=
            update (λ n, dataset_set "title" (title responseData)
                           (dataset_set "isWip"
                              (JsString.of_bool (work_in_progress responseData)) n))
              mergeRequestNode doc in
          match querySelector_at doc mergeRequestNode titleLinkSelector with
          | Some titleLink =>
              {| t_doc := update (set_textContent (title responseData)) titleLink doc;
                 t_disabled := false; t_events := events;
                 t_thrown := false; t_handler_threw := false |}
          | None =>
              {| t_doc := doc; t_disabled := false; t_events := events;
                 t_thrown := false; t_handler_threw := true |}
          end
      end
  end.

(** *** Ticket links

    The browser's [URL] class, as far as [createJiraTicketUrl] uses it:
    the constructor (which throws on a string that is no URL), the
    [protocol] and [host] getters, the [pathname] getter and setter, and
    [toString]. *)
Class UrlApi := {
  URL : Type;
  new_URL : string → option URL;
  url_protocol : URL → string;
  url_host : URL → string;
  url_pathname : URL → string;
  url_set_pathname : string → URL → URL;
  url_toString : URL → string;
}.

(** The URL object that [createJiraTicketUrl] serialises; [None] when the
    constructor throws. *)
Definition jiraTicketUrlObject `{UrlApi} (this : Script) (jiraTicketId : string)
    : option URL :=
  baseJiraUrl ← new_URL (base_jira_url (preferences this));
  let baseJiraUrl :=
    if negb (JsString.endsWith (url_pathname baseJiraUrl) "/")
    then url_set_pathname (url_pathname baseJiraUrl +:+ "/") baseJiraUrl
    else baseJiraUrl in
  Some (url_set_pathname
          (url_pathname baseJiraUrl +:+ ("browse/" +:+ jiraTicketId)) baseJiraUrl).

Definition createJiraTicketUrl `{UrlApi} (this : Script) (jiraTicketId : string)
    : option string :=
  url_toString <$> jiraTicketUrlObject this jiraTicketId.

End ContentScript.

(** ** Accessors of a node *)

Section NodeAccessors.
Import Dom.

(** [node.childNodes] *)
Definition childNodes (n : Node) : list Node :=
  match n with
  | Element _ _ cs => cs
  | Text _ => []
  end.

(** [node.tagName], in the case of the document *)
Definition tagName (n : Node) : option string :=
  match n with
  | Element t _ _ => Some t
  | Text _ => None
  end.

End NodeAccessors.

(** ** The text copied for a merge request *)

Module CopyInfo.
Import JsString Dom GitLabApiClient ContentScript.

(** The object [placeholders]: its keys in insertion order, each with the
    value read from the dataset ([None] is [undefined]). The two Jira keys
    are read through [in], and are the empty string when absent. *)
Definition placeholders (mergeRequestNode : Node) : list (string * option string) :=
  [ ("MR_TITLE", dataset_get mergeRequestNode "title");
    ("MR_ID", dataset_get mergeRequestNode "iid");
    ("MR_URL", dataset_get mergeRequestNode "url");
    ("MR_DIFFS_URL", dataset_get mergeRequestNode "diffsUrl");
    ("MR_AUTHOR_NAME", dataset_get mergeRequestNode "authorName");
    ("MR_STATUS", dataset_get mergeRequestNode "status");
    ("MR_SOURCE_BRANCH_NAME", dataset_get mergeRequestNode "sourceBranchName");
    ("MR_TARGET_BRANCH_NAME", dataset_get mergeRequestNode "targetBranchName");
    ("MR_JIRA_TICKET_ID",
     Some (default "" (dataset_get mergeRequestNode "jiraTicketId")));
    ("MR_JIRA_TICKET_URL",
     Some (default "" (dataset_get mergeRequestNode "jiraTicketUrl"))) ].

(** One attempt of [new RegExp("{(" + keys.join("|") + ")}")] at the start
    of [l]: the first alternative [key] such that [l] starts with
    ["{key}"], with its value. *)
Fixpoint match_placeholder (ps : list (string * option string)) (l : list ascii)
    : option (string * option string) :=
  match ps with
  | [] => None
  | (key, value) :: ps' =>
      if is_prefix (chars ("{" +:+ key +:+ "}")) l then Some (key, value)
      else match_placeholder ps' l
  end.

(** What the replacement function returns, as [replace] inserts it: the
    value converted to a string. *)
Definition inserted (value : option string) : string := default "undefined" value.

(** [s.replace(placeholdersReplaceRegex, (_, placeholder) =>
    placeholders[placeholder])] with the [g] flag: the input is scanned
    from left to right, a match is replaced by the value of its key and
    the scan goes on after the match. *)
Equations? replacePlaceholders (ps : list (string * option string)) (l : list ascii)
    : list ascii by wf (length l) lt :=
  replacePlaceholders ps [] := [];
  replacePlaceholders ps (c :: l') with match_placeholder ps (c :: l') := {
    | Some (key, value) =>
        chars (inserted value) ++
        replacePlaceholders ps (drop (length (chars key) + 1) l')
    | None => c :: replacePlaceholders ps l'
  }.
Proof. all: rewrite ?length_drop; simpl; lia. Qed.

Definition buildMergeRequestInfoText (this : Script) (mergeRequestNode : Node)
    : string :=
  trim (of_chars (replacePlaceholders (placeholders mergeRequestNode)
                    (chars (copy_mr_info_format (preferences this))))).

End CopyInfo.

(** ** Click handlers *)

Module ClickHandlers.
Import JsString Dom GitLabApiClient ContentScript CopyInfo.

(** [sel] selects the element at [p]. *)
Definition selects (doc : Node) (sel : selector) (p : path) : bool :=
  match locate [] doc p with
  | Some (anc, Element t a _) => matches sel anc (t, a)
  | _ => false
  end.

(** [el.closest(sel)] for the element [el] at [p]: the nearest of [el] and
    its ancestors that [sel] selects, looked for from [el] upwards. [k] is
    the depth of the candidate. *)
Fixpoint closest_from (doc : Node) (sel : selector) (p : path) (k : nat)
    : option path :=
  if selects doc sel (take k p) then Some (take k p)
  else match k with
       | 0 => None
       | S k' => closest_from doc sel p k'
       end.

Definition closest (doc : Node) (sel : selector) (p : path) : option path :=
  closest_from doc sel p (length p).

(** A [dataset] property whose name has a hyphen followed by a lower-case
    letter stands for no attribute; reading it gives [undefined]. *)
Fixpoint hyphen_lower (l : list ascii) : bool :=
  match l with
  | c :: (d :: _) as l' =>
      (bool_decide (c = "-"%char) && in_range "a" "z" d) || hyphen_lower l'
  | _ => false
  end.

(** [el.dataset[key]] for a computed [key] *)
Definition dataset_read (n : Node) (key : string) : option string :=
  if hyphen_lower (chars key) then None else dataset_get n key.

(** What a click on a copy button comes to: a [TypeError], or a text
    handed to [navigator.clipboard.writeText], with the alert shown when
    the clipboard refuses it. *)
Inductive Click :=
| Thrown
| Copied (text : string) (events : list Event).

(** The elements that the three [attachClickEventTo...] functions give a
    listener to *)
Definition copyBranchNameButtons (doc : Node) : list path :=
  querySelectorAll doc [[STag "button"; SClass "gmrle-copy-branch-name"]].
Definition copyMergeRequestInfoButtons (doc : Node) : list path :=
  querySelectorAll doc [[STag "button"; SClass "gmrle-copy-mr-info"]].
Definition toggleWipStatusButtons (doc : Node) : list path :=
  querySelectorAll doc [[STag "button"; SClass "gmrle-toggle-wip-status"]].

(** The listener of a copy-branch-name button, for a click on the button
    at [button]; [written] tells whether the clipboard takes the text. *)
Definition copyBranchNameClicked (doc : Node) (button : path) (written : bool)
    : Click :=
  match closest doc [cls "merge-request"] button ≫= get doc, get doc button with
  | Some mergeRequestNode, Some el =>
      let key := default "undefined" (dataset_get el "branchNameToCopy") +:+
                 "BranchName" in
      let branchName := dataset_read mergeRequestNode key in
      Copied (default "undefined" branchName)
        (if written then [] else [Alert "Unable to copy branch name."])
  | _, _ => Thrown
  end.

(** The listener of a copy-info button *)
Definition copyMergeRequestInfoClicked (this : Script) (doc : Node) (button : path)
    (written : bool) : Click :=
  match closest doc [cls "merge-request"] button ≫= get doc with
  | Some mergeRequestNode =>
      Copied (buildMergeRequestInfoText this mergeRequestNode)
        (if written then [] else [Alert "Unable to copy Merge Request info."])
  | None => Thrown
  end.

(** The listener of a toggle button. Outside of any list item the toggle
    is called with [null]: it disables the button and raises. *)
Definition toggleWipStatusClicked (this : Script) (doc : Node) (button : path)
    (outcome : Outcome MergeRequest) : ToggleResult :=
  match closest doc [cls "merge-request"] button with
  | Some mergeRequestNode => toggleMergeRequestWipStatus this doc mergeRequestNode outcome
  | None =>
      {| t_doc := doc; t_disabled := true; t_events := [];
         t_thrown := true; t_handler_threw := false |}
  end.

End ClickHandlers.

(** ** Regular expressions over classes of characters *)

Module JsPattern.
Import JsString.

(** A quantified character test: [test{p_min,p_max}] *)
Record piece := Piece { p_test : ascii → bool; p_min : nat; p_max : option nat }.

Definition one (c : ascii) : piece := Piece (λ d, bool_decide (d = c)) 1 (Some 1).
Definition optional (c : ascii) : piece := Piece (λ d, bool_decide (d = c)) 0 (Some 1).
(** [[^c]+] *)
Definition some_but (c : ascii) : piece := Piece (λ d, negb (bool_decide (d = c))) 1 None.
Definition word (s : string) : list piece := one <$> chars s.

(** Greedy repetition with backtracking; [k] matches what follows. *)
Fixpoint match_piece (test : ascii → bool) (k : list ascii → option nat)
    (lo : nat) (hi : option nat) (s : list ascii) : option nat :=
  let stop := match lo with 0 => k s | S _ => None end in
  match s with
  | c :: s' =>
      if test c && negb (bool_decide (hi = Some 0)) then
        match match_piece test k (pred lo) (pred <$> hi) s' with
        | Some n => Some (S n)
        | None => stop
        end
      else stop
  | [] => stop
  end.

(** Length of the match of the whole sequence at the start of the input *)
Fixpoint match_pieces (ps : list piece) : list ascii → option nat :=
  match ps with
  | [] => λ _, Some 0
  | p :: ps' => match_piece (p_test p) (match_pieces ps') (p_min p) (p_max p)
  end.

(** Index and length of the leftmost match *)
Fixpoint search (ps : list piece) (s : list ascii) (i : nat) : option (nat * nat) :=
  match match_pieces ps s with
  | Some n => Some (i, n)
  | None =>
      match s with
      | [] => None
      | _ :: s' => search ps s' (S i)
      end
  end.

(** [s.match(re)] for a pattern without flags, reduced to the text matched *)
Definition matched (ps : list piece) (s : string) : option (list ascii) :=
  '(i, n) ← search ps (chars s) 0;
  Some (take n (drop i (chars s))).

End JsPattern.

(** ** Start-up: what the script reads from the page *)

Module Startup.
Import JsString Dom GitLabApiClient ContentScript.

(** *** Selectors *)

Inductive test :=
| Is (s : simple)                          (* tag, class, [name="value"] *)
| AttrContains (name value : string).      (* [name*="value"] *)

Inductive combinator := Descendant | Child.

(** A selector: its compounds from the outermost to the one before the
    last, each with the combinator that follows it, and the last one. *)
Record xselector := XSelector {
  context : list (list test * combinator);
  subject : list test;
}.

Definition matches_test (e : einfo) (t : test) : bool :=
  match t with
  | Is s => matches_simple e s
  | AttrContains n v =>
      match e.2 !! n with
      | Some x => negb (bool_decide (v = "")) && includes x v
      | None => false
      end
  end.

Definition matches_tests (c : list test) (e : einfo) : bool :=
  forallb (matches_test e) c.

(** [ctx]: the compounds still to be found, innermost first; [anc]: the
    ancestors, nearest first. *)
Fixpoint matches_context (ctx : list (list test * combinator)) (anc : list einfo)
    : bool :=
  match ctx with
  | [] => true
  | (c, Child) :: ctx' =>
      match anc with
      | a :: anc' => matches_tests c a && matches_context ctx' anc'
      | [] => false
      end
  | (c, Descendant) :: ctx' =>
      (fix up (anc : list einfo) : bool :=
         match anc with
         | a :: anc' => (matches_tests c a && matches_context ctx' anc') || up anc'
         | [] => false
         end) anc
  end.

Definition xmatches (sel : xselector) (anc : list einfo) (e : einfo) : bool :=
  matches_tests (subject sel) e && matches_context (reverse (context sel)) anc.

(** Paths, in document order, of the elements of [n] that [sel] selects *)
Fixpoint xqsa_node (sel : xselector) (anc : list einfo) (n : Node) : list path :=
  match n with
  | Text _ => []
  | Element t a cs =>
      (if xmatches sel anc (t, a) then [[]] else []) ++
      (fix go (i : nat) (cs : list Node) : list path :=
         match cs with
         | [] => []
         | c :: cs' =>
             ((i ::.) <$> xqsa_node sel ((t, a) :: anc) c) ++ go (S i) cs'
         end) 0 cs
  end.

(** [document.querySelector(sel)] *)
Definition xquerySelector (doc : Node) (sel : xselector) : option path :=
  head (xqsa_node sel [] doc).

(** [a b] and [a > b] *)
Definition under (outer : list (list test)) (c : list test) : xselector :=
  XSelector ((λ o, (o, Descendant)) <$> outer) c.
Definition xcls (c : string) : list test := [Is (SClass c)].
Definition xtag (t : string) : list test := [Is (STag t)].

(** *** The getters *)

Definition getCurrentProjectId (doc : Node) : option string :=
  body ← xquerySelector doc (under [] (xtag "body"));
  node ← get doc body;
  dataset_get node "projectId".

Definition projectLinkSelectors : list xselector :=
  [ under [xcls "nav-sidebar"; xcls "context-header"] (xtag "a");
    under [xcls "sidebar-context-header"] (xtag "a");
    under [xcls "context-header"] (xtag "a");
    under [] [Is (SAttr "data-testid" "project-link")];
    under [] (xcls "project-link");
    under [xcls "sidebar-top-level-items"] [Is (STag "a"); AttrContains "href" "/-/"] ].

(** The loop [for (let selector of selectors) { let link = ...; if (link)
    { return link.getAttribute("href"); } }] *)
Fixpoint firstLink (doc : Node) (selectors : list xselector) : option path :=
  match selectors with
  | [] => None
  | selector :: rest =>
      match xquerySelector doc selector with
      | Some link => Some link
      | None => firstLink doc rest
      end
  end.

(** [/(https?:\/\/[^\/]+)(\/[^\/]+\/[^\/]+\/[^\/]+)\/-\//] and
    [/(https?:\/\/[^\/]+)(\/[^\/]+\/[^\/]+)\/-\//]: an origin, [levels]
    path segments, and [/-/]. *)
Definition segment : list JsPattern.piece :=
  [JsPattern.one "/"; JsPattern.some_but "/"].
Definition projectUrlPattern (levels : nat) : list JsPattern.piece :=
  JsPattern.word "http" ++ [JsPattern.optional "s"] ++ JsPattern.word "://" ++
  [JsPattern.some_but "/"] ++ mjoin (replicate levels segment) ++
  JsPattern.word "/-/".

(** [urlMatch[1] + urlMatch[2]]: the two groups are adjacent and [/-/] is
    all that follows them, so that together they are the text matched
    without its last three characters. *)
Definition groups (matched : list ascii) : string :=
  of_chars (take (length matched - 3) matched).

Definition getBaseProjectUrl (currentUrl : string) (doc : Node)
    : option string * list Event :=
  match firstLink doc projectLinkSelectors with
  | Some link => (get doc link ≫= λ n, attributes n !! "href", [])
  | None =>
      match JsPattern.matched (projectUrlPattern 3) currentUrl with
      | Some urlMatch => (Some (groups urlMatch), [])
      | None =>
          match JsPattern.matched (projectUrlPattern 2) currentUrl with
          | Some pathMatch => (Some (groups pathMatch), [])
          | None =>
              (None,
               [ConsoleError
                  "❌ GitLab MR Enhancer: Could not find project URL with any selector or URL extraction"
                  []])
          end
      end
  end.

Definition getCsrfToken (doc : Node) : option string :=
  meta ← xquerySelector doc (under [] [Is (STag "meta"); Is (SAttr "name" "csrf-token")]);
  node ← get doc meta;
  attributes node !! "content".

Definition isUserAuthenticated (doc : Node) : bool :=
  bool_decide (is_Some (xquerySelector doc (under [xcls "navbar-nav"] (xcls "header-user")))).

Definition isPipelineFeatureEnabled (doc : Node) : bool :=
  bool_decide (is_Some (xquerySelector doc
                          (under [xcls "nav-sidebar"] (xcls "shortcuts-pipelines")))).

(** [svg.s16 > use] *)
Definition svgUseSelector : xselector :=
  XSelector [([Is (STag "svg"); Is (SClass "s16")], Child)] (xtag "use").

(** [svgUse.href.baseVal]: the [href] attribute or, failing that,
    [xlink:href]; the empty string when neither is set. *)
Definition baseVal (n : Node) : string :=
  match attributes n !! "href" with
  | Some v => v
  | None => default "" (attributes n !! "xlink:href")
  end.

(** What a call that may raise comes to *)
Inductive Completion (A : Type) :=
| Throws
| Returns (value : A).
Arguments Throws {A}.
Arguments Returns {A} _.

Definition getBaseIconsUrl `{UrlApi} (baseUrl : string) (doc : Node)
    : Completion (option string) :=
  match xquerySelector doc svgUseSelector ≫= get doc with
  | None => Returns None
  | Some svgUse =>
      if bool_decide (baseVal svgUse = "") then Returns None
      else
        let url := baseVal svgUse in
        let url := if startsWith url "/" then baseUrl +:+ url else url in
        match new_URL url with
        | None => Throws
        | Some parsedUrl =>
            Returns (Some (url_protocol parsedUrl +:+ "//" +:+ url_host parsedUrl +:+
                           "/" +:+ url_pathname parsedUrl))
        end
  end.

(** [buildSpriteIcon(iconName, classes)]; a [null] icons URL is written
    as the text [null]. *)
Definition buildSpriteIcon (baseIconsUrl : option string) (iconName classes : string)
    : string :=
  "<svg class=" +:+ dq +:+ "s16 " +:+ classes +:+ dq +:+
  " data-testid=" +:+ dq +:+ iconName +:+ "-icon" +:+ dq +:+ ">" +:+
  "<use xlink:href=" +:+ dq +:+ default "null" baseIconsUrl +:+ "#" +:+ iconName +:+
  dq +:+ "></use>" +:+ "</svg>".

(** *** The debug banner *)

(** [document.body]: the first child of the [html] root that is a [body]
    or a [frameset] *)
Definition documentBody (doc : Node) : option path :=
  match doc with
  | Element "html" _ cs =>
      (λ hit, [hit.1]) <$>
        list_find (λ c, tagName c = Some "body" ∨ tagName c = Some "frameset") cs
  | _ => None
  end.

(** The banner; [style] is the text that the browser keeps in the [style]
    attribute for the declarations assigned to [style.cssText]. *)
Definition debugDiv (style : string) : Node :=
  Element "div" {[ "style" := style ]} [Text "🔧 GitLab MR Enhancer Active"].

(** [addDebugElement]: [None] when [document.body] is [null] and
    [appendChild] raises; the timer is set after the banner is in. *)
Definition addDebugElement (style : string) (doc : Node) : option (Node * list Event) :=
  body ← documentBody doc;
  Some (update (append [debugDiv style]) body doc, [SetTimeout 5000]).

(** Detach the node at [p]. *)
Fixpoint detach (p : path) (n : Node) : Node :=
  match p, n with
  | [i], Element t a cs => Element t a (delete i cs)
  | i :: p', Element t a cs => Element t a (alter (detach p') i cs)
  | _, _ => n
  end.

(** The callback of the timer: [banner] is the place of the banner when
    the timer fires, [None] if it is no longer in the document. *)
Definition removeDebugElement (banner : option path) (doc : Node) : Node :=
  match banner with
  | Some p => detach p doc
  | None => doc
  end.

(** *** The constructor *)

Record Location := { href : string; protocol : string; host : string }.

(** The fields that the constructor sets before the preferences are
    loaded *)
Record Fields := {
  f_currentProjectId : string;
  f_baseProjectUrl : string;
  f_baseUrl : string;
  f_baseApiUrl : string;
  f_baseIconsUrl : option string;
  f_userAuthenticated : bool;
  f_pipelineFeatureEnabled : bool;
  f_apiClient : Client;
}.

Inductive Construction :=
| Raised (doc : Node) (events : list Event)
| Aborted (doc : Node) (events : list Event)
| Constructed (doc : Node) (events : list Event) (fields : Fields).

Definition construct `{UrlApi} (style : string) (location : Location) (doc : Node)
    : Construction :=
  match addDebugElement style doc with
  | None => Raised doc []
  | Some (doc, events) =>
      match getCurrentProjectId doc with
      | Some currentProjectId =>
          if bool_decide (currentProjectId = "") then
            Aborted doc
              (events ++
               [ConsoleError
                  "❌ GitLab MR Enhancer: Aborting: current project ID cannot be found" []])
          else
            let '(baseProjectUrl, events') := getBaseProjectUrl (href location) doc in
            match baseProjectUrl with
            | Some baseProjectUrl =>
                if bool_decide (baseProjectUrl = "") then
                  Aborted doc
                    (events ++ events' ++
                     [ConsoleError
                        "❌ GitLab MR Enhancer: Aborting: base project URL cannot be found"
                        []])
                else
                  let baseUrl := protocol location +:+ "//" +:+ host location in
                  let baseApiUrl := baseUrl +:+ "/api/v4/" in
                  match getBaseIconsUrl baseUrl doc with
                  | Throws => Raised doc (events ++ events')
                  | Returns baseIconsUrl =>
                      Constructed doc (events ++ events')
                        {| f_currentProjectId := currentProjectId;
                           f_baseProjectUrl := baseProjectUrl;
                           f_baseUrl := baseUrl;
                           f_baseApiUrl := baseApiUrl;
                           f_baseIconsUrl := baseIconsUrl;
                           f_userAuthenticated := isUserAuthenticated doc;
                           f_pipelineFeatureEnabled := isPipelineFeatureEnabled doc;
                           f_apiClient := {| baseUrl := baseApiUrl;
                                             csrfToken := getCsrfToken doc |} |}
                  end
            | None =>
                Aborted doc
                  (events ++ events' ++
                   [ConsoleError
                      "❌ GitLab MR Enhancer: Aborting: base project URL cannot be found"
                      []])
            end
      | None =>
          Aborted doc
            (events ++
             [ConsoleError
                "❌ GitLab MR Enhancer: Aborting: current project ID cannot be found" []])
      end
  end.

(** The callback of [preferencesManager.getAll]: the script with its
    preferences, on which [waitForMergeRequestsAndProcess] is called. *)
Definition withPreferences (fields : Fields) (preferences : Preferences) : Script :=
  {| currentProjectId := f_currentProjectId fields;
     baseProjectUrl := f_baseProjectUrl fields;
     apiClient := f_apiClient fields;
     preferences := preferences |}.

End Startup.

(* ===================================================================== *)
(** * Part II: properties *)
(* ===================================================================== *)

(** ** Strings *)

Section StringFacts.
Import JsString.

Lemma chars_of_chars l : chars (of_chars l) = l.
Proof. apply String.list_ascii_of_string_of_list_ascii. Qed.

Lemma of_chars_chars s : of_chars (chars s) = s.
Proof. apply String.string_of_list_ascii_of_string. Qed.

Lemma chars_app s1 s2 : chars (s1 +:+ s2) = chars s1 ++ chars s2.
Proof. induction s1 as [|c s1 IH]; simpl; [done|]. by rewrite <- IH. Qed.

Lemma chars_inj s1 s2 : chars s1 = chars s2 → s1 = s2.
Proof. intros H. rewrite <- (of_chars_chars s1), H. apply of_chars_chars. Qed.

Lemma is_prefix_spec p l : is_prefix p l = true ↔ ∃ k, l = p ++ k.
Proof.
  revert l. induction p as [|a p IH]; intros l; simpl.
  - split; [eauto|done].
  - destruct l as [|b l].
    + split; [done|]. by intros [k Hk].
    + rewrite andb_true_iff, bool_decide_eq_true, IH. split.
      * intros [-> [k ->]]. by exists k.
      * intros [k Hk]. injection Hk as -> ->. eauto.
Qed.

Lemma includes_l_spec p l :
  includes_l p l = true ↔ ∃ pre suf, l = pre ++ p ++ suf.
Proof.
  induction l as [|c l IH]; simpl.
  - rewrite orb_false_r, is_prefix_spec. split.
    + intros [k Hk]. by exists [], k.
    + intros (pre & suf & H). symmetry in H.
      apply app_eq_nil in H as [-> H]. eauto.
  - rewrite orb_true_iff, is_prefix_spec, IH. split.
    + intros [[k Hk]|(pre & suf & ->)].
      * by exists [], k.
      * by exists (c :: pre), suf.
    + intros ([|c' pre] & suf & H); simpl in H.
      * left. eauto.
      * right. injection H as -> ->. eauto.
Qed.

(** The white space characters, as byte sequences *)
Definition whiteSpaceWords : list (list ascii) :=
  (λ codes : list N, ascii_of_N <$> codes) <$> whiteSpaceCodes.

Lemma whiteSpace_words w : whiteSpace w = true ↔ w ∈ whiteSpaceWords.
Proof.
  unfold whiteSpace, whiteSpaceWords. rewrite bool_decide_eq_true. split.
  - intros H. apply (list_elem_of_fmap_2 (λ codes : list N, ascii_of_N <$> codes)) in H.
    rewrite <- list_fmap_compose in H.
    rewrite (list_fmap_ext _ Datatypes.id w) in H by (intros; apply ascii_N_embedding).
    by rewrite list_fmap_id in H.
  - intros (codes & -> & Hc)%list_elem_of_fmap.
    revert Hc. generalize codes. apply Forall_forall. by vm_compute; repeat constructor.
Qed.

Definition facing (back : bool) (w : list ascii) : list ascii :=
  if back then reverse w else w.

Lemma facing_facing back w : facing back (facing back w) = w.
Proof. destruct back; [apply reverse_involutive|done]. Qed.

Lemma ws_len_word back w l :
  whiteSpace w = true → ws_len back (facing back w ++ l) = length w ∧ w ≠ [].
Proof.
  intros H%whiteSpace_words. unfold whiteSpaceWords in H. cbn in H.
  repeat (apply elem_of_cons in H as [->|H]); try (by apply elem_of_nil in H);
    destruct back; by vm_compute.
Qed.

Lemma strip_word back w l :
  whiteSpace w = true → strip back (facing back w ++ l) = strip back l.
Proof.
  intros H%whiteSpace_words. unfold whiteSpaceWords in H. cbn in H.
  repeat (apply elem_of_cons in H as [->|H]); try (by apply elem_of_nil in H);
    destruct back; reflexivity.
Qed.

Lemma strip_stop back l : ws_len back l = 0 → strip back l = l.
Proof. intros H. destruct l as [|c l]; [done|]. simpl. by rewrite H. Qed.

(** What [l] starts with when [ws_len] is not [0] *)
Lemma ws_len_pos back l :
  ws_len back l ≠ 0 →
  ∃ w, whiteSpace w = true ∧ l = facing back w ++ drop (ws_len back l) l.
Proof.
  unfold ws_len.
  assert (∀ k, whiteSpace (if back then reverse (take k l) else take k l) = true →
            ∃ w, whiteSpace w = true ∧ l = facing back w ++ drop k l) as Hk.
  { intros k H. eexists. split; [exact H|].
    rewrite <- (take_drop k l) at 1. f_equal.
    destruct back; simpl; [by rewrite reverse_involutive|done]. }
  destruct (whiteSpace (if back then reverse (take 1 l) else take 1 l)) eqn:E1; [auto|].
  destruct (whiteSpace (if back then reverse (take 2 l) else take 2 l)) eqn:E2; [auto|].
  destruct (whiteSpace (if back then reverse (take 3 l) else take 3 l)) eqn:E3; [auto|].
  done.
Qed.

Lemma ws_len_0 back l :
  ws_len back l = 0 ↔ ∀ w k, whiteSpace w = true → l ≠ facing back w ++ k.
Proof.
  split.
  - intros H0 w k Hw ->. destruct (ws_len_word back w k Hw) as [Hlen Hne].
    rewrite H0 in Hlen. by destruct w.
  - intros Hno. destruct (decide (ws_len back l = 0)) as [|Hpos]; [done|].
    destruct (ws_len_pos back l Hpos) as (w & Hw & Heq).
    by destruct (Hno w (drop (ws_len back l) l) Hw).
Qed.

Lemma ws_len_0_app back l k : ws_len back (l ++ k) = 0 → ws_len back l = 0.
Proof.
  rewrite !ws_len_0. intros H w r Hw ->. apply (H w (r ++ k) Hw). by rewrite app_assoc.
Qed.

(** [strip] takes white space characters off, up to a list that starts with none. *)
Lemma strip_spec back l :
  ∃ ws, Forall (λ w, whiteSpace w = true) ws ∧
        l = mjoin (facing back <$> ws) ++ strip back l ∧
        ws_len back (strip back l) = 0.
Proof.
  induction l as [l IH] using (induction_ltof1 _ length). unfold ltof in IH.
  destruct (decide (ws_len back l = 0)) as [H0|Hpos].
  - exists []. rewrite strip_stop by done. by repeat split.
  - destruct (ws_len_pos back l Hpos) as (w & Hw & Heq).
    destruct (ws_len_word back w (drop (ws_len back l) l) Hw) as [_ Hne].
    destruct (IH (drop (ws_len back l) l)) as (ws & Hws & Hl & Hz).
    { pose proof (f_equal length Heq) as Hlen. rewrite length_app in Hlen.
      assert (length (facing back w) ≠ 0); [|lia].
      destruct back, w; simpl; rewrite ?length_reverse; simpl; try done. }
    exists (w :: ws). split; [by constructor|].
    assert (strip back l = strip back (drop (ws_len back l) l)) as ->.
    { rewrite Heq at 1. by apply strip_word. }
    split; [|done].
    rewrite Heq at 1. simpl. rewrite <- app_assoc. f_equal. exact Hl.
Qed.

Lemma strip_idemp back l : strip back (strip back l) = strip back l.
Proof. destruct (strip_spec back l) as (_ & _ & _ & H). by apply strip_stop. Qed.

Lemma whiteSpace_single c : whiteSpace [c] = Ascii.is_space c.
Proof. destruct c as [[] [] [] [] [] [] [] []]; by vm_compute. Qed.

(** A character of the ASCII range that is no blank: no white space
    character starts or ends with it. *)
Definition plain (c : ascii) : Prop :=
  Ascii.is_space c = false ∧ (N_of_ascii c < 128)%N.

Lemma ws_len_plain back c k : plain c → ws_len back (c :: k) = 0.
Proof.
  intros [Hs Hc]. apply ws_len_0. intros w r Hw Heq.
  apply whiteSpace_words in Hw. unfold whiteSpaceWords in Hw. cbn in Hw.
  repeat (apply elem_of_cons in Hw as [->|Hw]); try (by apply elem_of_nil in Hw);
    destruct back; vm_compute in Heq; injection Heq as -> _;
    first [discriminate Hs | by vm_compute in Hc].
Qed.

Lemma ltrim_idemp l : ltrim (ltrim l) = ltrim l.
Proof. apply strip_idemp. Qed.

Lemma ltrim_head l c k : ltrim l = c :: k → Ascii.is_space c = false.
Proof.
  intros H. destruct (strip_spec false l) as (_ & _ & _ & Hz).
  fold (ltrim l) in Hz. rewrite H in Hz.
  destruct (Ascii.is_space c) eqn:E; [|done].
  rewrite <- whiteSpace_single in E.
  destruct (ws_len_word false [c] k E) as [Hlen _]. simpl in Hlen. congruence.
Qed.

Lemma ltrim_nospace c k : plain c → ltrim (c :: k) = c :: k.
Proof. intros H. by apply strip_stop, ws_len_plain. Qed.

Lemma trim_l_stable l :
  ws_len false (trim_l l) = 0 ∧ ws_len true (reverse (trim_l l)) = 0.
Proof.
  unfold trim_l. rewrite reverse_involutive.
  destruct (strip_spec false l) as (_ & _ & _ & Hfront). fold (ltrim l) in Hfront.
  destruct (strip_spec true (reverse (ltrim l))) as (ws & _ & Heq & Hback).
  split; [|done].
  apply (f_equal reverse) in Heq. rewrite reverse_involutive, reverse_app in Heq.
  rewrite Heq in Hfront. by apply ws_len_0_app in Hfront.
Qed.




Lemma ltrim_trim_l l : ltrim (trim_l l) = trim_l l.
Proof. destruct (trim_l_stable l). by apply strip_stop. Qed.



Example trim_example : JsString.trim "  WIP: a b  " = "WIP: a b".
Proof. reflexivity. Qed.

(** [trim] takes the no-break space (U+00A0), the byte order mark
    (U+FEFF) and the line separator (U+2028) off as well. *)
Example trim_unicode_example :
  JsString.trim (of_chars (["194"; "160"; "239"; "187"; "191"]%char ++ chars "WIP: x" ++
                           ["226"; "128"; "168"; " "]%char))
  = "WIP: x".
Proof. reflexivity. Qed.

Example replace_first_occurrence : JsString.replace "!12!" "!" "" = "12!".
Proof. reflexivity. Qed.

Example includes_example :
  JsString.includes "!12" "!1" = true ∧ JsString.includes "!2" "!12" = false.
Proof. by vm_compute. Qed.

End StringFacts.

(** ** Regular expressions: the matcher against the language of a pattern *)

Section RegExpFacts.
Import JsString JsRegExp.

(** The words of [atom{lo,hi}] *)
Definition rep_lang (a : atom) (lo : nat) (hi : option nat) (w : list ascii) : Prop :=
  lo ≤ length w ∧ (∀ m, hi = Some m → length w ≤ m) ∧
  Forall (λ c, atom_accepts a c = true) w.

(** The words of a sequence of quantified atoms *)
Fixpoint terms_lang (ts : list term) (w : list ascii) : Prop :=
  match ts with
  | [] => w = []
  | t :: ts' =>
      ∃ w1 w2, w = w1 ++ w2 ∧ rep_lang (t_atom t) (t_min t) (t_max t) w1 ∧
               terms_lang ts' w2
  end.

(** A continuation is sound and complete for a language [L] when it
    returns the length of a prefix in [L], and fails only if there is none. *)
Definition matcher_for (L : list ascii → Prop) (k : list ascii → option nat) : Prop :=
  (∀ s n, k s = Some n → n ≤ length s ∧ L (take n s)) ∧
  (∀ s, k s = None → ∀ w rest, s = w ++ rest → ¬ L w).

Lemma match_rep_sound a k L lo hi s n :
  matcher_for L k →
  match_rep a k lo hi s = Some n →
  ∃ j, j ≤ n ∧ n ≤ length s ∧ rep_lang a lo hi (take j s) ∧
       L (take (n - j) (drop j s)).
Proof.
  intros [Hs _]. revert lo hi n.
  assert (∀ lo hi s n, match lo with 0 => k s | S _ => None end = Some n →
            ∃ j, j ≤ n ∧ n ≤ length s ∧ rep_lang a lo hi (take j s) ∧
                 L (take (n - j) (drop j s))) as Hstop.
  { intros [|lo] hi s' n Hk; [|done]. apply Hs in Hk as [? ?].
    exists 0. rewrite Nat.sub_0_r, drop_0, take_0.
    repeat split; simpl; auto with lia. }
  induction s as [|c s IH]; intros lo hi n; simpl; [apply Hstop|].
  destruct (atom_accepts a c && negb (bool_decide (hi = Some 0))) eqn:Hc;
    [|apply Hstop].
  destruct (match_rep a k (pred lo) (pred <$> hi) s) as [n'|] eqn:Hr;
    [|apply Hstop].
  intros [= <-]. apply IH in Hr as (j & Hj & Hn & (Hlo & Hhi & Hall) & HL).
  apply andb_true_iff in Hc as [Hacc Hne%negb_true_iff%bool_decide_eq_false].
  exists (S j). simpl. repeat split; [lia|lia|simpl; lia| |by constructor|done].
  intros m ->. destruct m as [|m]; [done|].
  specialize (Hhi m eq_refl). simpl. lia.
Qed.

Lemma match_rep_complete a k L lo hi s :
  matcher_for L k →
  match_rep a k lo hi s = None →
  ∀ w1 w2 rest, s = w1 ++ w2 ++ rest → rep_lang a lo hi w1 → ¬ L w2.
Proof.
  intros [_ Hc]. revert lo hi.
  assert (∀ lo hi s, match lo with 0 => k s | S _ => None end = None →
            ∀ w2 rest, s = w2 ++ rest → rep_lang a lo hi [] → ¬ L w2) as Hstop.
  { intros [|lo] hi s' Hk w2 rest -> [Hlo _]; [by eapply Hc|simpl in Hlo; lia]. }
  induction s as [|c s IH]; intros lo hi; simpl.
  - intros Hk [|? w1] w2 rest Heq Hrep; [|done]. by eapply Hstop.
  - destruct (atom_accepts a c && negb (bool_decide (hi = Some 0))) eqn:Hacc.
    + destruct (match_rep a k (pred lo) (pred <$> hi) s) as [n'|] eqn:Hr; [done|].
      apply andb_true_iff in Hacc as [Hd Hne%negb_true_iff%bool_decide_eq_false].
      intros Hk [|d w1] w2 rest Heq Hrep; [by eapply Hstop|].
      injection Heq as <- ->.
      destruct Hrep as (Hlo & Hhi & Hall). inversion_clear Hall.
      eapply (IH _ _ Hr w1 w2 rest eq_refl).
      repeat split; [simpl in Hlo; lia| |done].
      intros m Hm. destruct hi as [[|h]|]; simplify_eq/=.
      specialize (Hhi _ eq_refl). lia.
    + intros Hk [|d w1] w2 rest Heq Hrep; [by eapply Hstop|].
      injection Heq as <- ->. destruct Hrep as (Hlo & Hhi & Hall).
      inversion_clear Hall as [|?? Hd _].
      rewrite Hd in Hacc. simpl in Hacc.
      apply negb_false_iff, bool_decide_eq_true in Hacc as ->.
      specialize (Hhi _ eq_refl). simpl in Hhi. lia.
Qed.

Lemma match_terms_matcher ts : matcher_for (terms_lang ts) (match_terms ts).
Proof.
  induction ts as [|t ts IH]; simpl.
  - split.
    + intros s n [= <-]. split; [lia|]. by rewrite take_0.
    + done.
  - split.
    + intros s n Hm.
      destruct (match_rep_sound _ _ _ _ _ _ _ IH Hm) as (j & Hj & Hn & Hrep & HL).
      split; [done|]. exists (take j s), (take (n - j) (drop j s)).
      split; [|done].
      rewrite take_take_drop. f_equal. lia.
    + intros s Hm w rest -> (w1 & w2 & -> & Hrep & HL).
      eapply (match_rep_complete _ _ _ _ _ _ IH Hm w1 w2 rest); [|done..].
      by rewrite <- app_assoc.
Qed.

Lemma exec_from_Some ts s i i' n :
  exec_from ts s i = Some (i', n) →
  ∃ d, i' = i + d ∧ d ≤ length s ∧ match_terms ts (drop d s) = Some n.
Proof.
  revert i. induction s as [|c s IH]; intros i; simpl.
  - destruct (match_terms ts []) eqn:E; [|done].
    intros [= <- <-]. exists 0. rewrite Nat.add_0_r. auto.
  - destruct (match_terms ts (c :: s)) eqn:E.
    + intros [= <- <-]. exists 0. rewrite Nat.add_0_r. auto with lia.
    + intros (d & -> & Hd & Hm)%IH. exists (S d). simpl. auto with lia.
Qed.

Lemma exec_from_None ts s i :
  exec_from ts s i = None → ∀ d, match_terms ts (drop d s) = None.
Proof.
  revert i. induction s as [|c s IH]; intros i; simpl.
  - destruct (match_terms ts []) eqn:E; [done|]. intros _ d. by rewrite drop_nil.
  - destruct (match_terms ts (c :: s)) eqn:E; [done|].
    intros H [|d]; [done|]. simpl. by eapply IH.
Qed.

(** [exec] returns a word of the pattern that occurs in the input ... *)
Lemma exec_unanchored_Some ts s t :
  exec {| anchored := false; terms := ts |} s = Some t →
  terms_lang ts (chars t) ∧ ∃ pre suf, chars s = pre ++ chars t ++ suf.
Proof.
  unfold exec, exec_l. simpl.
  destruct (exec_from ts (chars s) 0) as [[i n]|] eqn:E; [|done].
  simpl. intros [= <-]. rewrite chars_of_chars.
  apply exec_from_Some in E as (d & -> & Hd & Hm). simpl.
  apply (match_terms_matcher ts) in Hm as [Hn HL]. split; [done|].
  exists (take d (chars s)), (drop n (drop d (chars s))).
  by rewrite !take_drop.
Qed.

(** ... and [null] only when no word of the pattern occurs in it. *)
Lemma exec_unanchored_None ts s :
  exec {| anchored := false; terms := ts |} s = None →
  ∀ pre w suf, chars s = pre ++ w ++ suf → ¬ terms_lang ts w.
Proof.
  unfold exec, exec_l. simpl.
  destruct (exec_from ts (chars s) 0) as [[i n]|] eqn:E; [done|].
  intros _ pre w suf Heq.
  pose proof (exec_from_None _ _ _ E (length pre)) as Hm.
  rewrite Heq, drop_app_length in Hm.
  by eapply (match_terms_matcher ts).
Qed.

End RegExpFacts.

(** ** Ticket identifiers *)

Section TicketFacts.
Import JsString JsRegExp Jira.

Definition upper (c : ascii) : Prop := in_range "A" "Z" c = true.
Definition digit (c : ascii) : Prop := in_range "0" "9" c = true.

(** The pattern in words: one to ten capital letters, a hyphen, one or
    more digits. *)
Definition is_ticket_id (w : list ascii) : Prop :=
  ∃ letters digits,
    w = letters ++ "-"%char :: digits ∧
    1 ≤ length letters ≤ 10 ∧ Forall upper letters ∧
    1 ≤ length digits ∧ Forall digit digits.

(** [s] contains a word of the pattern. *)
Definition has_ticket (s : string) : Prop :=
  ∃ pre w suf, chars s = pre ++ w ++ suf ∧ is_ticket_id w.

(** [t] is a word of the pattern and a substring of [s]. *)
Definition ticket_occurrence (t s : string) : Prop :=
  is_ticket_id (chars t) ∧ ∃ pre suf, chars s = pre ++ chars t ++ suf.

Lemma jiraTicketIdRegex_lang w :
  terms_lang (terms jiraTicketIdRegex) w ↔ is_ticket_id w.
Proof.
  simpl. split.
  - intros (w1 & w2 & -> & (Hlo1 & Hhi1 & Hall1) & w3 & w4 & -> &
            (Hlo3 & Hhi3 & Hall3) & w5 & w6 & -> & (Hlo5 & _ & Hall5) & ->).
    specialize (Hhi1 _ eq_refl). specialize (Hhi3 _ eq_refl).
    destruct w3 as [|c [|? ?]]; simpl in *; try lia.
    inversion_clear Hall3 as [|?? Hc _]. apply bool_decide_eq_true in Hc as ->.
    exists w1, w5. rewrite app_nil_r. by repeat split.
  - intros (ls & ds & -> & [Hl1 Hl2] & Hls & Hd & Hds).
    exists ls, ("-"%char :: ds). repeat split; [done..| |by intros ? [= <-]|done|].
    + done.
    + exists ["-"%char], ds. repeat split; [simpl; lia|by intros ? [= <-]| |].
      * by repeat constructor.
      * exists ds, []. rewrite app_nil_r. by repeat split.
Qed.

Lemma exec_jira_Some s t :
  exec jiraTicketIdRegex s = Some t → ticket_occurrence t s.
Proof.
  intros [HL Hsub]%exec_unanchored_Some. split; [|done].
  by apply jiraTicketIdRegex_lang.
Qed.

Lemma exec_jira_None s : exec jiraTicketIdRegex s = None → ¬ has_ticket s.
Proof.
  intros Hn (pre & w & suf & Heq & Hw).
  eapply exec_unanchored_None; [exact Hn|exact Heq|].
  by apply jiraTicketIdRegex_lang.
Qed.

(** C8. The ticket id returned for a record is a word of the pattern
    (one to ten capital letters, a hyphen, digits) taken from the source
    branch name whenever the branch name contains one, whatever the title
    holds; it is taken from the title when only the title contains one;
    and the result is [null] when neither contains one. *)
Theorem findFirstJiraTicketId_prefers_branch (mergeRequest : MergeRequest) :
  (has_ticket (source_branch mergeRequest) →
     ∃ t, findFirstJiraTicketId mergeRequest = Some t ∧
          ticket_occurrence t (source_branch mergeRequest)) ∧
  (¬ has_ticket (source_branch mergeRequest) → has_ticket (title mergeRequest) →
     ∃ t, findFirstJiraTicketId mergeRequest = Some t ∧
          ticket_occurrence t (title mergeRequest)) ∧
  (¬ has_ticket (source_branch mergeRequest) → ¬ has_ticket (title mergeRequest) →
     findFirstJiraTicketId mergeRequest = None).
Proof.
  unfold findFirstJiraTicketId.
  destruct (exec jiraTicketIdRegex (source_branch mergeRequest)) as [t|] eqn:Hb.
  - apply exec_jira_Some in Hb. split; [eauto|].
    assert (has_ticket (source_branch mergeRequest)) as Hhas.
    { destruct Hb as [Ht (pre & suf & Heq)]. by exists pre, (chars t), suf. }
    split; intros Hno; by destruct Hno.
  - apply exec_jira_None in Hb. split; [done|].
    destruct (exec jiraTicketIdRegex (title mergeRequest)) as [t|] eqn:Ht.
    + apply exec_jira_Some in Ht. split; [eauto|].
      intros _ Hno. destruct Hno.
      destruct Ht as [Ht (pre & suf & Heq)]. by exists pre, (chars t), suf.
    + apply exec_jira_None in Ht. by split.
Qed.

Definition ticket_example : MergeRequest :=
  {| id := 100; iid := 1; title := "ABC-7 Fix the parser";
     web_url := "https://gitlab.example.com/g/p/-/merge_requests/1";
     author := Some {| name := "Ada" |}; state := "opened";
     source_branch := "PROJ-42-fix"; target_branch := "main";
     work_in_progress := false |}.

Lemma findFirstJiraTicketId_prefers_branch_witness :
  has_ticket "PROJ-42-fix" ∧
  ∃ t, findFirstJiraTicketId ticket_example = Some t ∧
       ticket_occurrence t "PROJ-42-fix".
Proof.
  assert (has_ticket (source_branch ticket_example)) as H.
  { exists [], (chars "PROJ-42"), (chars "-fix"). split; [reflexivity|].
    exists (chars "PROJ"), (chars "42").
    split; [reflexivity|]. simpl.
    split; [lia|]. split; [by repeat constructor|].
    split; [lia|by repeat constructor]. }
  split; [exact H|].
  exact (proj1 (findFirstJiraTicketId_prefers_branch ticket_example) H).
Defined.

Example exec_leftmost_match :
  JsRegExp.exec Jira.jiraTicketIdRegex "feature/ABCDEFGHIJKL-12-x" = Some "CDEFGHIJKL-12" ∧
  JsRegExp.exec Jira.jiraTicketIdRegex "feature/abc-12" = None ∧
  JsRegExp.exec Jira.jiraTicketIdRegex "AB-1 CD-22" = Some "AB-1".
Proof. by vm_compute. Qed.

Example findFirstJiraTicketId_scenario :
  findFirstJiraTicketId ticket_example = Some "PROJ-42".
Proof. reflexivity. Qed.

End TicketFacts.

(** ** The document tree *)

Section DomFacts.
Import Dom.

(** Induction over a tree, with the hypothesis for every child. *)
Lemma Node_ind' (P : Node → Prop) :
  (∀ s, P (Text s)) →
  (∀ t a cs, Forall P cs → P (Element t a cs)) →
  ∀ n, P n.
Proof.
  intros HT HE. fix IH 1. intros [s|t a cs]; [apply HT|].
  apply HE. induction cs as [|c cs IHcs]; constructor; [apply IH|apply IHcs].
Qed.

Lemma qsa_node_Element sel anc t a cs :
  qsa_node sel anc (Element t a cs) =
  (if matches sel anc (t, a) then [[]] else []) ++
  qsa_forest sel ((t, a) :: anc) 0 cs.
Proof.
  simpl. f_equal. generalize 0.
  induction cs as [|c cs IH]; intros i; simpl; [done|]. by rewrite IH.
Qed.

Lemma elem_of_qsa_forest sel anc i cs p :
  p ∈ qsa_forest sel anc i cs ↔
  ∃ j c p', p = (i + j) :: p' ∧ cs !! j = Some c ∧ p' ∈ qsa_node sel anc c.
Proof.
  revert i. induction cs as [|c cs IH]; intros i; simpl.
  - rewrite elem_of_nil. split; [done|]. by intros (j & c & p' & _ & ? & _).
  - rewrite elem_of_app, list_elem_of_fmap, IH. split.
    + intros [(p' & -> & Hp')|(j & c' & p' & -> & Hj & Hp')].
      * exists 0, c, p'. by rewrite Nat.add_0_r.
      * exists (S j), c', p'. split; [f_equal; lia|done].
    + intros ([|j] & c' & p' & -> & Hj & Hp'); simpl in Hj.
      * left. injection Hj as <-. exists p'. by rewrite Nat.add_0_r.
      * right. exists j, c', p'. split; [f_equal; lia|done].
Qed.

(** A path is selected exactly when it leads to an element that the
    selector matches in the context of its ancestors. *)
Lemma elem_of_qsa_node sel n : ∀ anc p,
  p ∈ qsa_node sel anc n ↔
  ∃ anc' t a cs, locate anc n p = Some (anc', Element t a cs) ∧
                 matches sel anc' (t, a) = true.
Proof.
  induction n as [s|t a cs IH] using Node_ind'; intros anc p.
  - simpl. rewrite elem_of_nil. split; [done|].
    intros (anc' & t & a & cs & Hl & _). by destruct p.
  - rewrite qsa_node_Element, elem_of_app, elem_of_qsa_forest. split.
    + intros [Hself|(j & c & p' & -> & Hj & Hp')].
      * destruct (matches sel anc (t, a)) eqn:Hm; [|by apply elem_of_nil in Hself].
        apply list_elem_of_singleton in Hself as ->. simpl. eauto 10.
      * rewrite Forall_forall in IH.
        apply IH in Hp' as (anc' & t' & a' & cs' & Hl & Hm);
          [|by eapply list_elem_of_lookup_2].
        exists anc', t', a', cs'. simpl. by rewrite Hj.
    + intros (anc' & t' & a' & cs' & Hl & Hm). destruct p as [|j p']; simpl in Hl.
      * injection Hl as <- <- <- <-. left. rewrite Hm. by apply list_elem_of_singleton.
      * right. destruct (cs !! j) as [c|] eqn:Hj; [|done]. simpl in Hl.
        exists j, c, p'. split; [done|]. split; [done|].
        rewrite Forall_forall in IH. apply IH; [by eapply list_elem_of_lookup_2|].
        eauto 10.
Qed.

Lemma elem_of_querySelectorAll doc sel p :
  p ∈ querySelectorAll doc sel ↔
  ∃ anc t a cs, locate [] doc p = Some (anc, Element t a cs) ∧
                matches sel anc (t, a) = true.
Proof. apply elem_of_qsa_node. Qed.

(** [el.querySelectorAll] only returns proper descendants of [el]. *)
Lemma querySelectorAll_at_below doc p sel q :
  q ∈ querySelectorAll_at doc p sel → ∃ i q', q = p ++ i :: q'.
Proof.
  unfold querySelectorAll_at.
  destruct (locate [] doc p) as [[anc [s|t a cs]]|]; try by intros ?%elem_of_nil.
  intros (r & -> & Hr)%list_elem_of_fmap.
  apply elem_of_qsa_forest in Hr as (j & c & p' & -> & _). eauto.
Qed.

Lemma querySelector_at_below doc p sel q :
  querySelector_at doc p sel = Some q → ∃ i q', q = p ++ i :: q'.
Proof.
  unfold querySelector_at. intros H. apply (querySelectorAll_at_below doc p sel).
  destruct (querySelectorAll_at doc p sel); simplify_eq/=. by left.
Qed.

(** Updating at or below a path keeps everything above that path. *)
Lemma locate_update f p q : ∀ anc n,
  locate anc (update f (p ++ q) n) p =
  (λ '(anc', x), (anc', update f q x)) <$> locate anc n p.
Proof.
  induction p as [|i p IH]; intros anc n; simpl; [done|].
  destruct n as [s|t a cs]; simpl; [done|].
  rewrite list_lookup_alter_eq. destruct (cs !! i) as [c|]; simpl; [apply IH|done].
Qed.

Lemma get_update f p q doc :
  get (update f (p ++ q) doc) p = update f q <$> get doc p.
Proof.
  unfold get. rewrite locate_update.
  by destruct (locate [] doc p) as [[??]|].
Qed.

Lemma get_update_same f p doc : get (update f p doc) p = f <$> get doc p.
Proof. rewrite <- (app_nil_r p) at 1. by rewrite get_update. Qed.

Lemma attributes_update_below f i q n :
  attributes (update f (i :: q) n) = attributes n.
Proof. by destruct n. Qed.

Lemma dataset_get_update_below f i q n key :
  dataset_get (update f (i :: q) n) key = dataset_get n key.
Proof. unfold dataset_get. by rewrite attributes_update_below. Qed.

Lemma update_ext f f' p : (∀ n, f n = f' n) → ∀ n, update f p n = update f' p n.
Proof.
  intros Hf. induction p as [|i p IH]; intros n; simpl; [done|].
  destruct n as [s|t a cs]; [done|]. f_equal. by apply list_alter_ext.
Qed.

Lemma update_update f g p : ∀ n, update f p (update g p n) = update (f ∘ g) p n.
Proof.
  induction p as [|i p IH]; intros n; [done|].
  destruct n as [s|t a cs]; [done|]. cbn [update]. f_equal.
  rewrite list_alter_alter_eq. apply list_alter_ext; [|done]. intros x _. apply IH.
Qed.

Lemma update_id f p : (∀ n, f n = n) → ∀ n, update f p n = n.
Proof.
  intros Hf. induction p as [|i p IH]; intros n; simpl; [done|].
  destruct n as [s|t a cs]; [done|]. f_equal.
  etrans; [|apply (list_alter_id (λ x, x)); done].
  apply list_alter_ext; [|done]. intros c _. apply IH.
Qed.

End DomFacts.

(** ** Remote record client *)

Section ClientFacts.
Import GitLabApiClient.

Lemma PUT_is_a_write :
  bool_decide (JsString.toLowerCase "PUT" ∈ ["post"; "put"; "patch"]) = true.
Proof. by vm_compute. Qed.

Lemma sendRequest_PUT_without_token this endpoint query data :
  truthy (csrfToken this) = false →
  sendRequest this "PUT" endpoint query data =
  (None, [ConsoleError "Cannot issue POST/PUT/PATCH requests without CSRF token" []]).
Proof. intros H. unfold sendRequest. by rewrite PUT_is_a_write, H. Qed.

Lemma sendRequest_PUT_with_token this endpoint query data :
  truthy (csrfToken this) = true →
  ∃ req, sendRequest this "PUT" endpoint query data = (Some req, [Fetch req]) ∧
         req_method req = "PUT" ∧ req_body req = data.
Proof. intros H. unfold sendRequest. rewrite PUT_is_a_write, H. simpl. eauto. Qed.

(** C4. A write call made while no CSRF token is available ([null] or the
    empty string) fails at once: [updateProjectMergeRequest] returns no
    promise, the only effect is the diagnostic on the console, and [fetch]
    is not called. *)
Theorem updateProjectMergeRequest_without_csrf_token
    (this : Client) (projectId mergeRequestId : string) (data : gmap string JsValue) :
  truthy (csrfToken this) = false →
  let result := updateProjectMergeRequest this projectId mergeRequestId data in
  result.1 = None ∧
  result.2 = [ConsoleError "Cannot issue POST/PUT/PATCH requests without CSRF token" []] ∧
  ∀ req, Fetch req ∉ result.2.
Proof.
  intros H. unfold updateProjectMergeRequest.
  rewrite sendRequest_PUT_without_token by done. simpl.
  split; [done|]. split; [done|].
  intros req Hin. apply list_elem_of_singleton in Hin. discriminate.
Qed.

Lemma updateProjectMergeRequest_without_csrf_token_witness :
  let this := {| baseUrl := "https://gitlab.example.com/api/v4/"; csrfToken := None |} in
  let result := updateProjectMergeRequest this "5" "1" {[ "title" := JString "WIP: T" ]} in
  result.1 = None ∧
  result.2 = [ConsoleError "Cannot issue POST/PUT/PATCH requests without CSRF token" []] ∧
  ∀ req, Fetch req ∉ result.2.
Proof.
  exact (updateProjectMergeRequest_without_csrf_token
           {| baseUrl := "https://gitlab.example.com/api/v4/"; csrfToken := None |}
           "5" "1" {[ "title" := JString "WIP: T" ]} eq_refl).
Defined.

End ClientFacts.

(** ** Work-in-progress toggle *)

Section ToggleFacts.
Import JsString Dom GitLabApiClient ContentScript.

Lemma dataset_get_set_eq key v t a cs :
  dataset_get (dataset_set key v (Element t a cs)) key = Some v.
Proof. unfold dataset_get. simpl. apply lookup_insert_eq. Qed.

Lemma dataset_get_set_ne key key' v n :
  dataset_attr key ≠ dataset_attr key' →
  dataset_get (dataset_set key v n) key' = dataset_get n key'.
Proof.
  intros H. destruct n as [s|t a cs]; [done|].
  unfold dataset_get. simpl. by apply lookup_insert_ne.
Qed.

Lemma dataset_get_Some_Element n key v :
  dataset_get n key = Some v → ∃ t a cs, n = Element t a cs.
Proof. destruct n; [done|eauto]. Qed.

(** The title without a leading ["WIP:"]: [title.replace(/^WIP:/, "")] *)
Definition stripWip (t : string) : string := JsRegExp.replace t wipRegex "".



Lemma newTitleFor_not_wip node stored t :
  dataset_get node "isWip" = stored → stored ≠ Some "true" →
  dataset_get node "title" = Some t →
  newTitleFor node = Some ("WIP: " +:+ trim t).
Proof.
  intros Hs Hne Ht. unfold newTitleFor.
  rewrite Hs, bool_decide_eq_false_2, Ht by done. done.
Qed.

Lemma newTitleFor_wip node t :
  dataset_get node "isWip" = Some "true" →
  dataset_get node "title" = Some t →
  newTitleFor node = Some (trim (stripWip t)).
Proof.
  intros Hs Ht. unfold newTitleFor.
  rewrite Hs, bool_decide_eq_true_2, Ht by done. done.
Qed.

(** What the toggle does once the request has been issued. *)
Lemma toggle_issued this doc p node newTitle outcome :
  truthy (csrfToken (apiClient this)) = true →
  get doc p = Some node → newTitleFor node = Some newTitle →
  ∃ req,
    req_method req = "PUT" ∧
    req_body req ≫= (.!! "title") = Some (JString newTitle) ∧
    toggleMergeRequestWipStatus this doc p outcome =
    match outcome with
    | Rejected =>
        {| t_doc := doc; t_disabled := false;
           t_events := [Fetch req] ++ on_settled (@Rejected MergeRequest);
           t_thrown := false; t_handler_threw := false |}
    | Fulfilled responseData =>
        let doc' :=
          update (λ n, dataset_set "title" (title responseData)
                         (dataset_set "isWip"
                            (of_bool (work_in_progress responseData)) n)) p doc in
        match querySelector_at doc' p titleLinkSelector with
        | Some titleLink =>
            {| t_doc := update (set_textContent (title responseData)) titleLink doc';
               t_disabled := false; t_events := [Fetch req];
               t_thrown := false; t_handler_threw := false |}
        | None =>
            {| t_doc := doc'; t_disabled := false; t_events := [Fetch req];
               t_thrown := false; t_handler_threw := true |}
        end
    end.
Proof.
  intros Hcsrf Hget Hnew. unfold toggleMergeRequestWipStatus.
  rewrite Hget. simpl. rewrite Hnew. simpl.
  unfold updateProjectMergeRequest.
  destruct (sendRequest_PUT_with_token (apiClient this)
              ("projects/" +:+ currentProjectId this +:+ "/merge_requests/" +:+
               default "undefined" (dataset_get node "iid")) None
              (Some ({[ "title" := JString newTitle ]} ∪
                     {[ "id" := parseInt (currentProjectId this);
                        "merge_request_iid" :=
                          parseInt (default "undefined" (dataset_get node "iid")) ]}))
              Hcsrf) as (req & -> & Hm & Hb).
  exists req. split; [done|]. split.
  - rewrite Hb. simpl. apply lookup_union_Some_l. apply lookup_singleton_eq.
  - by destruct outcome.
Qed.

(** The annotated state of the item after a successful toggle. *)
Lemma toggle_fulfilled_dataset this doc p node newTitle responseData :
  truthy (csrfToken (apiClient this)) = true →
  get doc p = Some node → newTitleFor node = Some newTitle →
  let r := toggleMergeRequestWipStatus this doc p (Fulfilled responseData) in
  t_disabled r = false ∧
  ∃ node', get (t_doc r) p = Some node' ∧
           dataset_get node' "title" = Some (title responseData) ∧
           dataset_get node' "isWip" = Some (of_bool (work_in_progress responseData)).
Proof.
  intros Hcsrf Hget Hnew.
  destruct (toggle_issued this doc p node newTitle (Fulfilled responseData))
    as (req & _ & _ & ->); [done..|].
  assert (∃ t a cs, node = Element t a cs) as (t & a & cs & ->).
  { unfold newTitleFor in Hnew. destruct (dataset_get node "title") eqn:E; [|done].
    by eapply dataset_get_Some_Element. }
  set (f := λ n, dataset_set "title" (title responseData)
                   (dataset_set "isWip" (of_bool (work_in_progress responseData)) n)).
  assert (dataset_get (f (Element t a cs)) "title" = Some (title responseData)) as Ht.
  { apply dataset_get_set_eq. }
  assert (dataset_get (f (Element t a cs)) "isWip" =
          Some (of_bool (work_in_progress responseData))) as Hw.
  { unfold f. rewrite dataset_get_set_ne by (by vm_compute).
    apply (dataset_get_set_eq "isWip"). }
  simpl. fold f.
  destruct (querySelector_at (update f p doc) p titleLinkSelector) as [q|] eqn:Hq; simpl.
  - split; [done|].
    apply querySelector_at_below in Hq as (i & q' & ->).
    rewrite get_update, get_update_same, Hget. simpl.
    eexists. split; [done|]. split; [exact Ht|exact Hw].
  - split; [done|]. rewrite get_update_same, Hget. simpl. eauto.
Qed.


End ToggleFacts.

(** ** Sample data *)

Section Samples.
Import Dom GitLabApiClient ContentScript.

(** A list item as the host page renders it: a title link and the
    reference text inside the main-info region. *)
Definition sample_item (a : list (string * string)) (titleText reference : string) : Node :=
  elem "li" (("class", "merge-request") :: a)
    [ elem "div" [("class", "issuable-main-info")]
        [ elem "div" [("class", "merge-request-title-text")]
            [ elem "a" [] [Text titleText] ];
          elem "span" [("class", "issuable-reference")] [Text reference] ] ].

Definition sample_page (list_class : string) (items : list Node) : Node :=
  elem "html" [] [ elem "body" [] [ elem "ul" [("class", list_class)] items ] ].

Definition sample_client (token : option string) : Client :=
  {| baseUrl := "https://gitlab.example.com/api/v4/"; csrfToken := token |}.

Definition sample_script (token : option string) (display : bool) : Script :=
  {| currentProjectId := "5";
     baseProjectUrl := "/group/project";
     apiClient := sample_client token;
     preferences := {| display_source_and_target_branches := display;
                       base_jira_url := "https://jira.example.com/";
                       copy_mr_info_format := "{MR_TITLE}" |} |}.

Definition sample_record (id iid : N) (title branch : string) (wip : bool) : MergeRequest :=
  {| id := id; iid := iid; title := title;
     web_url := "https://gitlab.example.com/group/project/-/merge_requests/" +:+ pretty iid;
     author := Some {| name := "Ada" |}; state := "opened";
     source_branch := branch; target_branch := "main";
     work_in_progress := wip |}.

(** An annotated item: title and wip flag as the Annotator stores them. *)
Definition annotated_page (titleText isWip : string) : Node :=
  sample_page "mr-list"
    [ sample_item [("data-title", titleText); ("data-iid", "1"); ("data-is-wip", isWip)]
        titleText "!1" ].

End Samples.

Section ToggleRoundTrip.
Import JsString Dom GitLabApiClient ContentScript.


(** A title carries the marker when it starts with ["WIP:"]. *)
Definition hasWipMarker (t : string) : bool := startsWith t "WIP:".







(** A click on the toggle answered by [remote]: the write goes through
    and the response is what [remote] makes of the title it is sent. *)
Definition toggle_answered (this : Script) (remote : string → MergeRequest)
    (doc : Node) (p : path) : ToggleResult :=
  match get doc p ≫= newTitleFor with
  | Some sent => toggleMergeRequestWipStatus this doc p (Fulfilled (remote sent))
  | None => toggleMergeRequestWipStatus this doc p Rejected
  end.


Definition sample_remote (sent : string) : MergeRequest :=
  sample_record 100 1 sent "feature" (hasWipMarker sent).


Example toggle_twice_example :
  let this := sample_script (Some "tok") true in
  let doc := annotated_page "Fix it" "false" in
  let r1 := toggle_answered this sample_remote doc [0; 0; 0] in
  let r2 := toggle_answered this sample_remote (t_doc r1) [0; 0; 0] in
  (get (t_doc r1) [0; 0; 0] ≫= λ n, dataset_get n "title") = Some "WIP: Fix it" ∧
  (get (t_doc r1) [0; 0; 0] ≫= λ n, dataset_get n "isWip") = Some "true" ∧
  (get (t_doc r2) [0; 0; 0] ≫= λ n, dataset_get n "title") = Some "Fix it" ∧
  (get (t_doc r2) [0; 0; 0] ≫= λ n, dataset_get n "isWip") = Some "false" ∧
  textContent <$> get (t_doc r2) [0; 0; 0; 0; 0; 0] = Some "Fix it".
Proof. by vm_compute. Qed.

End ToggleRoundTrip.

(** ** Readiness poller *)

Section PollerFacts.
Import Dom GitLabApiClient ContentScript.

(** The [k]-th attempt sees at least one rendered item. *)
Definition found (docAt : nat → Node) (k : nat) : Prop :=
  firstNonEmpty (docAt k) referenceSelectors ≠ [].

Definition exhaustedDiagnostic : Event :=
  ConsoleError "❌ GitLab MR Enhancer: Could not find merge requests after"
    [pretty maxAttempts; "attempts"].

(** One attempt, as the body of the closure reads. *)
Lemma checkForMergeRequests_body this docAt attempts :
  checkForMergeRequests this docAt attempts =
  match firstNonEmpty (docAt (S attempts)) referenceSelectors with
  | _ :: _ =>
      (Found (S attempts) (getCurrentMergeRequestIds (docAt (S attempts))),
       (getProjectMergeRequests (apiClient this) (currentProjectId this)
          (getCurrentMergeRequestIds (docAt (S attempts)))).2)
  | [] =>
      if decide (S attempts < maxAttempts) then
        ((checkForMergeRequests this docAt (S attempts)).1,
         SetTimeout 1000 :: (checkForMergeRequests this docAt (S attempts)).2)
      else (Exhausted, [exhaustedDiagnostic])
  end.
Proof.
  rewrite (checkForMergeRequests_unfold_eq this docAt attempts).
  unfold checkForMergeRequests_unfold, checkForMergeRequests_unfold_clause_1,
    checkForMergeRequests_unfold_clause_1_clause_2.
  destruct (firstNonEmpty (docAt (S attempts)) referenceSelectors); [|done].
  by destruct (decide (S attempts < maxAttempts)).
Qed.

Lemma getProjectMergeRequests_fetches this projectId ids :
  ∃ req, getProjectMergeRequests this projectId ids = (Some req, [Fetch req]) ∧
         req_method req = "GET" ∧
         req_endpoint req = "projects/" +:+ projectId +:+ "/merge_requests" ∧
         req_query req = (λ i, ("iids[]", i)) <$> ids.
Proof. unfold getProjectMergeRequests, sendRequest. simpl. eauto. Qed.

(** What the poller does from the state in which [attempts] attempts have
    been made. *)
Definition poller_run (this : Script) (docAt : nat → Node) (attempts : nat)
    (result : PollerOutcome * list Event) : Prop :=
  ∃ retries last,
    attempts + retries < maxAttempts ∧
    result.2 = replicate retries (SetTimeout 1000) ++ [last] ∧
    match result.1 with
    | Found attempt ids =>
        attempt = S (attempts + retries) ∧ found docAt attempt ∧
        (∀ j, attempts < j < attempt → ¬ found docAt j) ∧
        ids = getCurrentMergeRequestIds (docAt attempt) ∧
        ∃ req, last = Fetch req ∧ req_method req = "GET" ∧
               req_query req = (λ i, ("iids[]", i)) <$> ids
    | Exhausted =>
        S (attempts + retries) = maxAttempts ∧
        (∀ j, attempts < j ≤ maxAttempts → ¬ found docAt j) ∧
        last = exhaustedDiagnostic ∧
        ∀ req, Fetch req ∉ result.2
    end.

Lemma checkForMergeRequests_run this docAt attempts :
  attempts < maxAttempts →
  poller_run this docAt attempts (checkForMergeRequests this docAt attempts).
Proof.
  intros Hlt. remember (maxAttempts - attempts) as m eqn:Hm.
  revert attempts Hlt Hm.
  induction m as [|m IH]; intros attempts Hlt Hm; [lia|].
  rewrite checkForMergeRequests_body.
  destruct (firstNonEmpty (docAt (S attempts)) referenceSelectors) as [|p l] eqn:E.
  - destruct (decide (S attempts < maxAttempts)) as [Hlt'|Hge].
    + destruct (IH (S attempts) Hlt' ltac:(lia)) as (retries & last & Hr & Hev & Hout).
      exists (S retries), last. simpl. split; [lia|]. split; [by rewrite Hev|].
      destruct ((checkForMergeRequests this docAt (S attempts)).1) as [k ids|].
      * destruct Hout as (-> & Hf & Hmin & Hids & Hreq).
        split; [f_equal; lia|]. split; [done|]. split; [|done].
        intros j Hj. destruct (decide (j = S attempts)) as [->|]; [|apply Hmin; lia].
        intros Hne. apply Hne, E.
      * destruct Hout as (Hn & Hnone & -> & Hnofetch).
        split; [lia|]. split; [|split; [done|]].
        -- intros j Hj. destruct (decide (j = S attempts)) as [->|]; [|apply Hnone; lia].
           intros Hne. apply Hne, E.
        -- intros req [?|Hin]%elem_of_cons; [done|]. by eapply Hnofetch.
    + exists 0, exhaustedDiagnostic. simpl. split; [lia|]. split; [done|].
      split; [lia|]. split; [|split; [done|]].
      * intros j Hj. assert (j = S attempts) as -> by lia. intros Hne. apply Hne, E.
      * intros req Hin. apply list_elem_of_singleton in Hin. discriminate.
  - destruct (getProjectMergeRequests_fetches (apiClient this) (currentProjectId this)
                (getCurrentMergeRequestIds (docAt (S attempts))))
      as (req & Heq & Hmeth & _ & Hq).
    exists 0, (Fetch req). rewrite Heq. simpl. split; [lia|]. split; [done|].
    rewrite Nat.add_0_r. split; [done|]. split; [unfold found; by rewrite E|].
    split; [lia|]. split; [done|]. eauto.
Qed.

(** C3. Whatever the document looks like at each attempt, the poller
    comes to an end after at most [maxAttempts = 10] attempts, any two
    consecutive ones separated by one timer of 1000 ms (one second). It
    ends in [Found] at the first attempt that sees a rendered item, having
    extracted the ids from that document and called [fetch] for them; it
    ends in [Exhausted] exactly when none of the ten attempts sees an item,
    and then the last effect is the diagnostic and [fetch] was never
    called. No path of the closure throws. *)
Theorem poller_stops_within_maxAttempts (this : Script) (docAt : nat → Node) :
  let result := waitForMergeRequestsAndProcess this docAt in
  ∃ retries last,
    S retries ≤ maxAttempts ∧ maxAttempts = 10 ∧
    result.2 = replicate retries (SetTimeout 1000) ++ [last] ∧
    match result.1 with
    | Found attempt ids =>
        attempt = S retries ∧ found docAt attempt ∧
        (∀ j, 1 ≤ j < attempt → ¬ found docAt j) ∧
        ids = getCurrentMergeRequestIds (docAt attempt) ∧
        ∃ req, last = Fetch req ∧ req_method req = "GET" ∧
               req_query req = (λ i, ("iids[]", i)) <$> ids
    | Exhausted =>
        S retries = maxAttempts ∧
        (∀ j, 1 ≤ j ≤ maxAttempts → ¬ found docAt j) ∧
        last = exhaustedDiagnostic ∧
        ∀ req, Fetch req ∉ result.2
    end.
Proof.
  unfold waitForMergeRequestsAndProcess.
  destruct (checkForMergeRequests_run this docAt 0) as (retries & last & Hr & Hev & Hout);
    [unfold maxAttempts; lia|].
  exists retries, last. simpl in *. split; [lia|]. split; [done|]. split; [done|].
  destruct ((checkForMergeRequests this docAt 0).1) as [k ids|].
  - destruct Hout as (-> & Hf & Hmin & Hids & Hreq).
    split; [done|]. split; [done|]. split; [|done].
    intros j Hj. apply Hmin. lia.
  - destruct Hout as (Hn & Hnone & -> & Hnofetch).
    split; [done|]. split; [|done]. intros j Hj. apply Hnone. lia.
Qed.

(** The two scenarios: items present from the third attempt on, and a
    page that never shows any. *)
Example poller_finds_items_at_third_attempt :
  let page := sample_page "mr-list" [sample_item [] "One" "!1"; sample_item [] "Two" "!2"] in
  let docAt k := if decide (k < 3) then sample_page "mr-list" [] else page in
  ∃ req, waitForMergeRequestsAndProcess (sample_script None true) docAt =
           (Found 3 ["1"; "2"], [SetTimeout 1000; SetTimeout 1000; Fetch req]) ∧
         req_query req = [("iids[]", "1"); ("iids[]", "2")].
Proof. eexists. split; by vm_compute. Qed.

Example poller_exhausted_without_fetch :
  waitForMergeRequestsAndProcess (sample_script None true) (λ _, sample_page "mr-list" []) =
  (Exhausted, replicate 9 (SetTimeout 1000) ++ [exhaustedDiagnostic]).
Proof. by vm_compute. Qed.

End PollerFacts.

(** ** Ticket links *)

Section TicketUrlFacts.
Import JsString ContentScript.
Context `{Api : UrlApi}.

(** A Jira base URL is an [http] or [https] URL. *)
Definition web_url_scheme (u : URL) : Prop := url_protocol u ∈ ["http:"; "https:"].

Definition segment_char (c : ascii) : bool :=
  in_range "A" "Z" c || in_range "a" "z" c || in_range "0" "9" c ||
  bool_decide (c = "-"%char).

(** A string of letters, digits and hyphens, as every ticket id is. *)
Definition plain_segment (s : string) : Prop :=
  Forall (λ c, segment_char c = true) (chars s).

(** What the URL standard says of the [pathname] setter for the two
    assignments the script makes: other components are untouched, and on
    an [http(s)] URL a path extended by a slash, or (after a slash) by
    segments of plain characters, is stored as written. *)
Class UrlLaws := {
  set_pathname_protocol v u : url_protocol (url_set_pathname v u) = url_protocol u;
  set_pathname_host v u : url_host (url_set_pathname v u) = url_host u;
  set_pathname_slash u :
    web_url_scheme u →
    url_pathname (url_set_pathname (url_pathname u +:+ "/") u) = url_pathname u +:+ "/";
  set_pathname_segments u s1 s2 :
    web_url_scheme u → endsWith (url_pathname u) "/" = true →
    plain_segment s1 → plain_segment s2 →
    url_pathname (url_set_pathname (url_pathname u +:+ (s1 +:+ ("/" +:+ s2))) u)
    = url_pathname u +:+ (s1 +:+ ("/" +:+ s2));
}.

(** The path made to end in a slash. *)
Definition with_trailing_slash (p : string) : string :=
  if endsWith p "/" then p else p +:+ "/".

Lemma endsWith_slash_appended p : endsWith (p +:+ "/") "/" = true.
Proof.
  unfold endsWith. rewrite chars_app, reverse_app.
  change (reverse (chars "/")) with ["/"%char]. done.
Qed.

Lemma with_trailing_slash_ends p : endsWith (with_trailing_slash p) "/" = true.
Proof.
  unfold with_trailing_slash. destruct (endsWith p "/") eqn:E; [done|].
  apply endsWith_slash_appended.
Qed.

(** Whatever the browser's [URL] class, a configured string on which the
    constructor raises gives no ticket URL. *)
Lemma createJiraTicketUrl_invalid_base (this : Script) (jiraTicketId : string) :
  new_URL (base_jira_url (preferences this)) = None →
  createJiraTicketUrl this jiraTicketId = None.
Proof.
  intros Hparse. unfold createJiraTicketUrl, jiraTicketUrlObject. by rewrite Hparse.
Qed.

(** C9 (amended). For a configured base URL that the [URL] constructor accepts and
    whose scheme is [http] or [https], and a ticket id of letters, digits
    and hyphens, the ticket URL returned is the serialisation of a URL
    whose path is the base path, made to end in a slash, followed by
    [browse/] and the ticket id, and whose scheme and host are those of
    the base URL. *)
Theorem createJiraTicketUrl_extends_base_path `{!UrlLaws}
    (this : Script) (jiraTicketId : string) (base : URL) :
  new_URL (base_jira_url (preferences this)) = Some base →
  web_url_scheme base →
  plain_segment jiraTicketId →
  ∃ ticketUrl,
    createJiraTicketUrl this jiraTicketId = Some (url_toString ticketUrl) ∧
    url_pathname ticketUrl =
      with_trailing_slash (url_pathname base) +:+ ("browse/" +:+ jiraTicketId) ∧
    endsWith (with_trailing_slash (url_pathname base)) "/" = true ∧
    url_protocol ticketUrl = url_protocol base ∧
    url_host ticketUrl = url_host base.
Proof.
  intros Hparse Hscheme Hid.
  unfold createJiraTicketUrl, jiraTicketUrlObject. rewrite Hparse. simpl.
  set (slashed := if negb (endsWith (url_pathname base) "/")
                  then url_set_pathname (url_pathname base +:+ "/") base else base).
  assert (url_protocol slashed = url_protocol base ∧ url_host slashed = url_host base ∧
          url_pathname slashed = with_trailing_slash (url_pathname base))
    as (Hp & Hh & Hpath).
  { unfold slashed, with_trailing_slash.
    destruct (endsWith (url_pathname base) "/"); simpl; [done|].
    by rewrite set_pathname_protocol, set_pathname_host, set_pathname_slash. }
  eexists. split; [done|].
  rewrite set_pathname_protocol, set_pathname_host.
  assert (plain_segment "browse") as Hbrowse by (by repeat constructor).
  change ("browse/" +:+ jiraTicketId) with ("browse" +:+ ("/" +:+ jiraTicketId)).
  rewrite set_pathname_segments; [|unfold web_url_scheme; by rewrite Hp| |done..].
  - rewrite Hpath. by split; [|split; [apply with_trailing_slash_ends|]].
  - rewrite Hpath. apply with_trailing_slash_ends.
Qed.

End TicketUrlFacts.

(** A small [URL] for [https://host/path] strings, to instantiate the
    interface with. *)
Section SimpleUrl.
Import JsString ContentScript.

Record SimpleUrl := { su_protocol : string; su_host : string; su_pathname : string }.

Fixpoint until_slash (l : list ascii) : list ascii :=
  match l with
  | [] => []
  | c :: l' => if bool_decide (c = "/"%char) then [] else c :: until_slash l'
  end.

Fixpoint from_slash (l : list ascii) : list ascii :=
  match l with
  | [] => []
  | c :: l' => if bool_decide (c = "/"%char) then l else from_slash l'
  end.

Definition simple_parse_after (protocol : string) (rest : list ascii) : SimpleUrl :=
  let path := from_slash rest in
  {| su_protocol := protocol;
     su_host := of_chars (until_slash rest);
     su_pathname := if path is [] then "/" else of_chars path |}.

(** The constructor: a string without [http://] or [https://] in front is
    no URL. *)
Definition simple_parse (s : string) : option SimpleUrl :=
  if startsWith s "https://" then Some (simple_parse_after "https:" (drop 8 (chars s)))
  else if startsWith s "http://" then Some (simple_parse_after "http:" (drop 7 (chars s)))
  else None.

#[local] Instance simple_url_api : UrlApi := {|
  URL := SimpleUrl;
  new_URL := simple_parse;
  url_protocol := su_protocol;
  url_host := su_host;
  url_pathname := su_pathname;
  url_set_pathname v u :=
    {| su_protocol := su_protocol u; su_host := su_host u; su_pathname := v |};
  url_toString u := su_protocol u +:+ "//" +:+ su_host u +:+ su_pathname u;
|}.

#[local] Instance simple_url_laws : UrlLaws.
Proof. by split. Defined.

Lemma createJiraTicketUrl_extends_base_path_witness :
  let this := sample_script None true in
  ∃ ticketUrl : SimpleUrl,
    createJiraTicketUrl this "PROJ-42" = Some (url_toString ticketUrl) ∧
    url_pathname ticketUrl = with_trailing_slash "/" +:+ ("browse/" +:+ "PROJ-42") ∧
    endsWith (with_trailing_slash "/") "/" = true ∧
    url_protocol ticketUrl = "https:" ∧
    url_host ticketUrl = "jira.example.com".
Proof.
  apply (@createJiraTicketUrl_extends_base_path simple_url_api simple_url_laws
           (sample_script None true) "PROJ-42"
           {| su_protocol := "https:"; su_host := "jira.example.com";
              su_pathname := "/" |});
    [reflexivity|right; left|by repeat constructor].
Defined.

(** A script whose Jira base URL is the string given *)
Definition jira_script (base : string) : Script :=
  {| currentProjectId := "5"; baseProjectUrl := "/g/p";
     apiClient := sample_client None;
     preferences := {| display_source_and_target_branches := true;
                       base_jira_url := base;
                       copy_mr_info_format := "" |} |}.

Example createJiraTicketUrl_example :
  createJiraTicketUrl (jira_script "https://jira.example.com/jira") "PROJ-42"
  = Some "https://jira.example.com/jira/browse/PROJ-42" ∧
  createJiraTicketUrl (jira_script "http://jira.example.com/") "PROJ-42"
  = Some "http://jira.example.com/browse/PROJ-42".
Proof. split; reflexivity. Qed.

(** C9, counterexample. The configured string [jira.example.com] has no
    scheme and is no URL: the constructor raises on it, and no ticket URL
    is constructed for the ticket id [PROJ-42]. *)
Lemma createJiraTicketUrl_raises_on_base_without_scheme :
  new_URL (base_jira_url (preferences (jira_script "jira.example.com"))) = None ∧
  createJiraTicketUrl (jira_script "jira.example.com") "PROJ-42" = None.
Proof. split; reflexivity. Qed.

End SimpleUrl.

(** ** Injecting parsed HTML *)

Section HtmlInjectionFacts.
Import JsString Dom HtmlInjection.

(** The members of even index *)
Fixpoint evens {A} (l : list A) : list A :=
  match l with
  | [] => []
  | x :: l' =>
      x :: match l' with
           | [] => []
           | _ :: l'' => evens l''
           end
  end.

Lemma forEach_moving_beyond steps : ∀ k live,
  length live ≤ k → forEach_moving steps k live = [].
Proof.
  induction steps as [|steps IH]; intros k live Hk; simpl; [done|].
  rewrite lookup_ge_None_2 by done. apply IH. lia.
Qed.

Lemma evens_cons2 {A} (x y : A) l : evens (x :: y :: l) = x :: evens l.
Proof. done. Qed.

Lemma forEach_moving_evens rest : ∀ kept steps,
  length rest ≤ steps →
  forEach_moving steps (length kept) (kept ++ rest) = evens rest.
Proof.
  induction rest as [rest IH] using (induction_ltof1 _ length).
  unfold ltof in IH. intros kept steps Hsteps.
  destruct rest as [|x [|y rest]].
  - rewrite app_nil_r. by apply forEach_moving_beyond.
  - destruct steps as [|steps]; [simpl in Hsteps; lia|]. simpl.
    rewrite list_lookup_middle by done.
    rewrite forEach_moving_beyond; [done|].
    rewrite length_delete by (by rewrite list_lookup_middle).
    rewrite length_app. simpl. lia.
  - destruct steps as [|steps]; [simpl in Hsteps; lia|].
    rewrite evens_cons2. cbn [forEach_moving].
    rewrite list_lookup_middle by done. f_equal.
    assert (delete (length kept) (kept ++ x :: y :: rest) = (kept ++ [y]) ++ rest) as ->.
    { rewrite delete_middle. by rewrite <- app_assoc. }
    replace (S (length kept)) with (length (kept ++ [y]))
      by (rewrite length_app; simpl; lia).
    apply IH; simpl in *; lia.
Qed.

Lemma evens_lookup {A} (l : list A) : ∀ i, evens l !! i = l !! (2 * i).
Proof.
  induction l as [l IH] using (induction_ltof1 _ length). unfold ltof in IH.
  intros i. destruct l as [|x [|y l]]; [done|by destruct i|].
  rewrite evens_cons2. destruct i as [|i]; [done|].
  replace (2 * S i) with (S (S (2 * i))) by lia. simpl. apply IH. simpl. lia.
Qed.

Lemma length_evens {A} (l : list A) : length (evens l) = (length l + 1) / 2.
Proof.
  induction l as [l IH] using (induction_ltof1 _ length). unfold ltof in IH.
  destruct l as [|x [|y l]]; [done|done|].
  rewrite evens_cons2. cbn [length]. rewrite IH by (simpl; lia).
  replace (S (S (length l)) + 1) with (length l + 1 + 1 * 2) by lia.
  rewrite Nat.div_add by done. lia.
Qed.

(** [parseHtml] applies its callback to the root nodes of even index
    only: each node moved away shifts the ones that follow, and the loop
    index steps over the next one. A text with a single root node, as the
    script builds for the branch line, is handled in full; of two roots
    the second is left behind. *)
Theorem parseHtml_visits_every_other_root (roots : list Node) :
  parseHtml roots = evens roots ∧
  (∀ i, parseHtml roots !! i = roots !! (2 * i)) ∧
  length (parseHtml roots) = (length roots + 1) / 2 ∧
  (length roots ≤ 1 → parseHtml roots = roots).
Proof.
  assert (parseHtml roots = evens roots) as Heq.
  { unfold parseHtml. by apply (forEach_moving_evens roots []). }
  split; [done|]. rewrite Heq. split; [apply evens_lookup|].
  split; [apply length_evens|].
  destruct roots as [|x [|y roots]]; simpl; [done|done|lia].
Qed.

Lemma foldl_append target nodes : ∀ doc t a cs,
  get doc target = Some (Element t a cs) →
  get (foldl (λ doc node, update (append [node]) target doc) doc nodes) target
  = Some (Element t a (cs ++ nodes)).
Proof.
  induction nodes as [|x nodes IH]; intros doc t a cs Hget; simpl.
  - by rewrite app_nil_r.
  - rewrite (IH _ t a (cs ++ [x])); [by rewrite <- app_assoc|].
    by rewrite get_update_same, Hget.
Qed.

Lemma foldl_prepend target nodes : ∀ doc t a cs,
  get doc target = Some (Element t a cs) →
  get (foldl (λ doc node, update (prepend node) target doc) doc nodes) target
  = Some (Element t a (reverse nodes ++ cs)).
Proof.
  induction nodes as [|x nodes IH]; intros doc t a cs Hget; simpl; [done|].
  rewrite (IH _ t a (x :: cs)); [by rewrite reverse_cons, <- app_assoc|].
  by rewrite get_update_same, Hget.
Qed.

Lemma foldl_insertBefore parent nodes : ∀ doc i t a cs,
  get doc parent = Some (Element t a cs) → i ≤ length cs →
  get (foldl (λ '(doc, i) node, (update (insertBefore i node) parent doc, S i))
         (doc, i) nodes).1 parent
  = Some (Element t a (take i cs ++ nodes ++ drop i cs)).
Proof.
  induction nodes as [|x nodes IH]; intros doc i t a cs Hget Hi; simpl.
  - by rewrite take_drop.
  - rewrite (IH _ (S i) t a (take i cs ++ x :: drop i cs)).
    + f_equal. f_equal.
      rewrite take_app_ge, drop_app_ge by (rewrite length_take; lia).
      rewrite length_take. replace (S i - i `min` length cs) with 1 by lia.
      simpl. rewrite take_0, drop_0, <- app_assoc. done.
    + by rewrite get_update_same, Hget.
    + rewrite length_app, length_take. simpl. rewrite length_drop. lia.
Qed.

(** Where the three injections leave the nodes of the parsed text: given
    an element, they are appended after its children in their order,
    prepended before its children in reverse order, and inserted before
    its [i]-th child in their order. In each case these are the root
    nodes of even index only. *)
Theorem injections_place_the_visited_roots
    (doc : Node) (el : path) (roots : list Node)
    (t : string) (a : gmap string string) (cs : list Node) (i : nat) :
  get doc el = Some (Element t a cs) → i ≤ length cs →
  get (parseHtmlAndAppend el roots doc) el
    = Some (Element t a (cs ++ evens roots)) ∧
  get (parseHtmlAndPrepend el roots doc) el
    = Some (Element t a (reverse (evens roots) ++ cs)) ∧
  get (parseHtmlAndInsertBefore el i roots doc) el
    = Some (Element t a (take i cs ++ evens roots ++ drop i cs)).
Proof.
  intros Hget Hi.
  assert (parseHtml roots = evens roots) as Heq.
  { unfold parseHtml. by apply (forEach_moving_evens roots []). }
  unfold parseHtmlAndAppend, parseHtmlAndPrepend, parseHtmlAndInsertBefore.
  rewrite Heq. split; [by apply foldl_append|]. split; [by apply foldl_prepend|].
  by apply foldl_insertBefore.
Qed.

(** [parseHtmlAndAppend] is one [append] of the nodes handled. *)
Lemma parseHtmlAndAppend_update targetNode roots doc :
  parseHtmlAndAppend targetNode roots doc
  = update (append (parseHtml roots)) targetNode doc.
Proof.
  unfold parseHtmlAndAppend. generalize (parseHtml roots) as nodes. intros nodes.
  revert doc. induction nodes as [|x nodes IH]; intros doc; simpl.
  - symmetry. apply update_id. intros [s|t a cs]; [done|]. simpl. by rewrite app_nil_r.
  - rewrite IH, update_update. apply update_ext.
    intros [s|t a cs]; [done|]. simpl. by rewrite <- app_assoc.
Qed.

End HtmlInjectionFacts.

Section HtmlInjectionExamples.
Import JsString Dom HtmlInjection.

Example parseHtml_example :
  parseHtml [Text "a"; Text "b"; Text "c"; Text "d"; Text "e"]
  = [Text "a"; Text "c"; Text "e"].
Proof. reflexivity. Qed.

Lemma injections_place_the_visited_roots_witness :
  let doc := elem "div" [] [elem "p" [] [Text "x"; Text "y"]] in
  let roots := [Text "a"; Text "b"; Text "c"] in
  get (parseHtmlAndAppend [0] roots doc) [0]
    = Some (Element "p" ∅ ([Text "x"; Text "y"] ++ evens roots)) ∧
  get (parseHtmlAndPrepend [0] roots doc) [0]
    = Some (Element "p" ∅ (reverse (evens roots) ++ [Text "x"; Text "y"])) ∧
  get (parseHtmlAndInsertBefore [0] 1 roots doc) [0]
    = Some (Element "p" ∅ (take 1 [Text "x"; Text "y"] ++ evens roots ++
                           drop 1 [Text "x"; Text "y"])).
Proof.
  apply (injections_place_the_visited_roots
           (elem "div" [] [elem "p" [] [Text "x"; Text "y"]]) [0]
           [Text "a"; Text "b"; Text "c"] "p" ∅ [Text "x"; Text "y"] 1);
    [reflexivity|simpl; lia].
Defined.

End HtmlInjectionExamples.

(** ** The parser and the info line *)

Section InfoLineParser.
Import JsString Dom ContentScript HtmlInjection.

(** Markup as it is written: elements with their attributes in order. *)
#[warnings="-register-all"]
Inductive Markup :=
| MText (data : string)
| MElement (tag : string) (attrs : list (string * string)) (children : list Markup).

Definition serialize_attr (kv : string * string) : string :=
  " " +:+ kv.1 +:+ "=" +:+ dq +:+ kv.2 +:+ dq.

(** The HTML text of some markup *)
Fixpoint serialize (m : Markup) : string :=
  match m with
  | MText s => s
  | MElement t a cs =>
      "<" +:+ t +:+ concat_strings (serialize_attr <$> a) +:+ ">" +:+
      concat_strings (serialize <$> cs) +:+ "</" +:+ t +:+ ">"
  end.

(** The nodes that are written as [m]: an element for an element, a
    text node for a text that is not empty. *)
Fixpoint parsed (m : Markup) : list Node :=
  match m with
  | MText s => text_nodes s
  | MElement t a cs => [elem t a (mjoin (parsed <$> cs))]
  end.


(** The info line for a link to [href] that shows [text] *)
Definition infoLineOf (href text : string) : Markup :=
  MElement "div" [("class", "issuable-info")]
    [ MElement "span" [("class", "project-ref-path has-tooltip"); ("title", "Source branch")]
        [ MElement "a" [("class", "ref-name"); ("href", href)] [ MText text ] ] ].

(** The markup that the text built for a record is the serialisation of
    (see [newInfoLineToInject_serialize]) ... *)
Definition infoLineMarkup (this : Script) (mergeRequest : MergeRequest) : Markup :=
  infoLineOf (baseProjectUrl this +:+ "/-/commits/" +:+ source_branch mergeRequest)
    (source_branch mergeRequest).

(** ... and its nodes: one [div]. *)
Definition parsedInfoLine (this : Script) (mergeRequest : MergeRequest) : list Node :=
  parsed (infoLineMarkup this mergeRequest).

(** The text handed to the parser is the serialisation of [infoLineMarkup]. *)
Lemma newInfoLineToInject_serialize this mergeRequest :
  newInfoLineToInject this mergeRequest = serialize (infoLineMarkup this mergeRequest).
Proof.
  apply chars_inj. unfold newInfoLineToInject, infoLineMarkup, infoLineOf.
  cbn [serialize fmap list_fmap concat_strings foldr].
  unfold serialize_attr. cbn [fst snd].
  rewrite !chars_app, <- !app_assoc. reflexivity.
Qed.

(** A character that the HTML parser takes as it stands, in a text as in
    an attribute value between double quotes: not a control character
    and none of [&], [<], [>] and the two quotes. *)
Definition inert_char (c : ascii) : bool :=
  (32 <=? N_of_ascii c)%N &&
  negb (bool_decide (c ∈ ["&"; "<"; ">"; "034"; "'"]%char)).

Definition inert (s : string) : bool := forallb inert_char (chars s).

(** What the HTML standard says of the text of the info line: when the
    project URL and the branch name hold inert characters only, the body
    of the document parsed from the text has one child, the [div] of the
    text with its [span] and its link, the branch name being the text of
    the link. *)
Class DomParserLaws `{DomParser} := {
  parse_info_line this mergeRequest :
    inert (baseProjectUrl this) = true → inert (source_branch mergeRequest) = true →
    parseFromString (newInfoLineToInject this mergeRequest)
    = parsedInfoLine this mergeRequest;
}.

Lemma parsedInfoLine_single this mergeRequest :
  ∃ block, parsedInfoLine this mergeRequest = [block].
Proof. unfold parsedInfoLine, infoLineMarkup, infoLineOf. cbn [parsed]. eauto. Qed.

(** For a record with inert names the info line is appended as it is
    written. *)
Lemma parseHtmlAndAppend_info_line `{!DomParser, !DomParserLaws} this mergeRequest
    targetElement doc :
  inert (baseProjectUrl this) = true → inert (source_branch mergeRequest) = true →
  parseHtmlAndAppend targetElement
    (parseFromString (newInfoLineToInject this mergeRequest)) doc
  = update (append (parsedInfoLine this mergeRequest)) targetElement doc.
Proof.
  intros Hurl Hbranch. rewrite parseHtmlAndAppend_update, parse_info_line by done.
  by destruct (parsedInfoLine_single this mergeRequest) as [block ->].
Qed.

Lemma parseHtml_info_line `{!DomParser, !DomParserLaws} this mergeRequest :
  inert (baseProjectUrl this) = true → inert (source_branch mergeRequest) = true →
  parseHtml (parseFromString (newInfoLineToInject this mergeRequest))
  = parsedInfoLine this mergeRequest.
Proof.
  intros Hurl Hbranch. rewrite parse_info_line by done.
  by destruct (parsedInfoLine_single this mergeRequest) as [block ->].
Qed.

End InfoLineParser.

(** A small parser that knows the text of the info line only, to
    instantiate the interface with. *)
Section SimpleDomParser.
Import JsString Dom ContentScript HtmlInjection.

(** The text before [c], and the rest from [c] on *)
Fixpoint span_until (c : ascii) (l : list ascii) : list ascii * list ascii :=
  match l with
  | [] => ([], [])
  | d :: l' =>
      if bool_decide (d = c) then ([], l)
      else let '(before, rest) := span_until c l' in (d :: before, rest)
  end.

Definition infoLineOpening : string :=
  "<div class=" +:+ dq +:+ "issuable-info" +:+ dq +:+ ">" +:+
  "<span class=" +:+ dq +:+ "project-ref-path has-tooltip" +:+ dq +:+
  " title=" +:+ dq +:+ "Source branch" +:+ dq +:+ ">" +:+
  "<a class=" +:+ dq +:+ "ref-name" +:+ dq +:+ " href=" +:+ dq.

Definition infoLineClosing : string := "</a></span></div>".

Definition simple_parseFromString (html : string) : list Node :=
  let l := chars html in
  if is_prefix (chars infoLineOpening) l then
    let '(href, rest) := span_until "034" (drop (length (chars infoLineOpening)) l) in
    if is_prefix (chars (dq +:+ ">")) rest then
      let '(text, rest) := span_until "<" (drop 2 rest) in
      if bool_decide (rest = chars infoLineClosing)
      then parsed (infoLineOf (of_chars href) (of_chars text))
      else []
    else []
  else [].

Definition simple_dom_parser : DomParser :=
  {| parseFromString := simple_parseFromString |}.

Lemma is_prefix_app p k : is_prefix p (p ++ k) = true.
Proof. apply is_prefix_spec. by exists k. Qed.

Lemma span_until_app c before rest :
  c ∉ before → span_until c (before ++ c :: rest) = (before, c :: rest).
Proof.
  induction before as [|d before IH]; intros Hc; simpl.
  - by rewrite bool_decide_eq_true_2.
  - apply not_elem_of_cons in Hc as [Hd Hc].
    rewrite bool_decide_eq_false_2 by done. by rewrite IH.
Qed.

Lemma inert_not_elem s c : inert s = true → inert_char c = false → c ∉ chars s.
Proof.
  unfold inert. rewrite forallb_forall. intros Hs Hc Hin.
  apply list_elem_of_In in Hin. apply Hs in Hin. congruence.
Qed.

Lemma inert_app s1 s2 : inert (s1 +:+ s2) = inert s1 && inert s2.
Proof. unfold inert. by rewrite chars_app, forallb_app. Qed.

Lemma simple_dom_parser_laws : @DomParserLaws simple_dom_parser.
Proof.
  split. intros this mergeRequest Hurl Hbranch.
  set (href := baseProjectUrl this +:+ "/-/commits/" +:+ source_branch mergeRequest).
  assert (inert href = true) as Hhref.
  { unfold href. rewrite !inert_app, Hurl, Hbranch. done. }
  assert (chars (newInfoLineToInject this mergeRequest)
          = chars infoLineOpening ++ chars href ++
            "034"%char :: ">"%char :: chars (source_branch mergeRequest) ++
            "<"%char :: drop 1 (chars infoLineClosing)) as Heq.
  { unfold newInfoLineToInject, href, infoLineOpening.
    rewrite !chars_app, <- !app_assoc. reflexivity. }
  unfold parseFromString, simple_dom_parser, simple_parseFromString.
  rewrite Heq, is_prefix_app, drop_app_length.
  rewrite span_until_app by (by apply inert_not_elem).
  change (is_prefix (chars (dq +:+ ">")) ?l) with (is_prefix ["034"%char; ">"%char] l).
  cbn [is_prefix]. rewrite !bool_decide_eq_true_2 by done. cbn [andb drop].
  rewrite drop_0, span_until_app by (by apply inert_not_elem).
  rewrite bool_decide_eq_true_2 by done.
  unfold parsedInfoLine, infoLineMarkup. by rewrite !of_chars_chars.
Qed.

End SimpleDomParser.

(** ** Reconciler: locating the item of a record *)

Section MatchingFacts.
Import JsString Dom GitLabApiClient ContentScript.

(** The element at [p] is a list item: an element of class [merge-request]. *)
Definition item (doc : Node) (p : path) : Prop :=
  ∃ t a cs, get doc p = Some (Element t a cs) ∧ "merge-request" ∈ classList a.

Lemma matches_single c anc e : matches [c] anc e = matches_compound c e.
Proof. unfold matches. simpl. destruct anc; apply andb_true_r. Qed.

Lemma matches_compound_cons s c e :
  matches_compound (s :: c) e = matches_simple e s && matches_compound c e.
Proof. done. Qed.

Lemma locate_get anc doc p anc' n : locate anc doc p = Some (anc', n) → snd <$> locate anc doc p = Some n.
Proof. by intros ->. Qed.

Lemma item_querySelectorAll doc p :
  p ∈ querySelectorAll doc [cls "merge-request"] ↔ item doc p.
Proof.
  rewrite elem_of_querySelectorAll. unfold item, get. split.
  - intros (anc & t & a & cs & Hl & Hm). rewrite matches_single in Hm.
    unfold cls in Hm. rewrite matches_compound_cons, andb_true_r in Hm.
    apply bool_decide_eq_true in Hm. exists t, a, cs. by rewrite Hl.
  - intros (t & a & cs & Hl & Hc).
    destruct (locate [] doc p) as [[anc n]|] eqn:E; simplify_eq/=.
    exists anc, t, a, cs. split; [done|]. rewrite matches_single.
    unfold cls. rewrite matches_compound_cons, andb_true_r.
    by apply bool_decide_eq_true.
Qed.

(** A selector that asks for the class and one attribute only selects
    list items. *)
Lemma item_attribute_selector doc name value p :
  p ∈ querySelectorAll doc [[SClass "merge-request"; SAttr name value]] →
  item doc p ∧ ∃ n, get doc p = Some n ∧ attributes n !! name = Some value.
Proof.
  intros (anc & t & a & cs & Hl & Hm)%elem_of_querySelectorAll.
  rewrite matches_single, !matches_compound_cons, andb_true_r in Hm.
  apply andb_true_iff in Hm as [Hc%bool_decide_eq_true Ha%bool_decide_eq_true].
  unfold item, get. rewrite Hl. simpl. split; eauto 10.
Qed.

Lemma querySelector_Some doc sel p :
  querySelector doc sel = Some p → p ∈ querySelectorAll doc sel.
Proof.
  unfold querySelector. destruct (querySelectorAll doc sel); simpl; [done|].
  intros [= ->]. by left.
Qed.

Lemma querySelector_None doc sel :
  querySelector doc sel = None ↔ querySelectorAll doc sel = [].
Proof. unfold querySelector. by destruct (querySelectorAll doc sel). Qed.

Lemma manualSearch_Some doc needle p :
  manualSearch doc needle = Some p →
  item doc p ∧ referenceIncludes doc needle p = true.
Proof.
  unfold manualSearch.
  destruct (list_find _ _) as [[i q]|] eqn:E; simpl; [|done]. intros [= ->].
  apply list_find_Some in E as (Hi & HP & _). split; [|done].
  apply item_querySelectorAll. by eapply list_elem_of_lookup_2.
Qed.


(** The three attribute matchers of the cascade. *)
Definition attributeSelectors (mergeRequest : MergeRequest) : list NodeSelector :=
  take 3 (nodeSelectors mergeRequest).



(** The cascade returns what its first successful entry returns. *)
Lemma findMergeRequestNode_elim doc selectors p (P : path → Prop) :
  (∀ sel q, Css sel ∈ selectors → querySelector doc sel = Some q → P q) →
  (∀ needle q, HasContains needle ∈ selectors → manualSearch doc needle = Some q → P q) →
  findMergeRequestNode doc selectors = Some p → P p.
Proof.
  induction selectors as [|[sel|needle] l IH]; intros Hcss Hscan; simpl; [done| |].
  - destruct (querySelector doc sel) as [q|] eqn:E.
    + intros [= <-]. eapply Hcss; [left|done].
    + apply IH; intros; [eapply Hcss|eapply Hscan]; by try right.
  - destruct (manualSearch doc needle) as [q|] eqn:E.
    + intros [= <-]. eapply Hscan; [left|done].
    + apply IH; intros; [eapply Hcss|eapply Hscan]; by try right.
Qed.

(** Every branch of the cascade returns a list item. *)
Lemma findMergeRequestNode_item doc mergeRequest p :
  findMergeRequestNode doc (nodeSelectors mergeRequest) = Some p → item doc p.
Proof.
  apply findMergeRequestNode_elim.
  - intros sel q Hin Hq%querySelector_Some. unfold nodeSelectors in Hin.
    repeat (apply elem_of_cons in Hin as [Hin|Hin]); try by apply elem_of_nil in Hin.
    all: try discriminate Hin.
    all: injection Hin as ->.
    all: first [by eapply item_attribute_selector | by apply item_querySelectorAll].
  - intros needle q _ Hq. by eapply manualSearch_Some.
Qed.

(** The diagnostic branch is taken exactly on a page without any list item. *)
Lemma findMergeRequestNode_None doc mergeRequest :
  findMergeRequestNode doc (nodeSelectors mergeRequest) = None ↔
  querySelectorAll doc [cls "merge-request"] = [].
Proof.
  split.
  - simpl. repeat (destruct (querySelector doc _); [done|]).
    destruct (manualSearch doc _); [done|].
    destruct (querySelector doc [cls "merge-request"]) eqn:E; [done|].
    intros _. by apply querySelector_None.
  - intros Hnone.
    assert (∀ name value,
              querySelector doc [[SClass "merge-request"; SAttr name value]] = None) as Hattr.
    { intros name value. apply querySelector_None.
      destruct (querySelectorAll doc [[SClass "merge-request"; SAttr name value]])
        as [|q l] eqn:E; [done|].
      assert (item doc q) as Hq%item_querySelectorAll.
      { eapply item_attribute_selector. rewrite E. by left. }
      rewrite Hnone in Hq. by apply elem_of_nil in Hq. }
    simpl. rewrite !Hattr. unfold manualSearch. rewrite Hnone. simpl.
    apply querySelector_None in Hnone. by rewrite Hnone.
Qed.

End MatchingFacts.

(** ** Annotator and per-record step *)

Section AnnotationFacts.
Import JsString Dom GitLabApiClient ContentScript HtmlInjection.
Context `{Parser : DomParser}.

(** The annotated state of [node] is that of [mergeRequest]: the nine
    fields, the diffs URL being the record URL followed by [/diffs], the
    author name being there when the record has an author. *)
Definition annotated_with (mergeRequest : MergeRequest) (node : Node) : Prop :=
  dataset_get node "title" = Some (title mergeRequest) ∧
  dataset_get node "iid" = Some (of_N (iid mergeRequest)) ∧
  dataset_get node "url" = Some (web_url mergeRequest) ∧
  dataset_get node "diffsUrl" = Some (web_url mergeRequest +:+ "/diffs") ∧
  dataset_get node "authorName" = name <$> author mergeRequest ∧
  dataset_get node "status" = Some (state mergeRequest) ∧
  dataset_get node "sourceBranchName" = Some (source_branch mergeRequest) ∧
  dataset_get node "targetBranchName" = Some (target_branch mergeRequest) ∧
  dataset_get node "isWip" = Some (of_bool (work_in_progress mergeRequest)).

Definition unresolvedDiagnostic (mergeRequest : MergeRequest) : Event :=
  ConsoleError "❌ GitLab MR Enhancer: Could not find MR node for IID:"
    [of_N (iid mergeRequest); "or ID:"; of_N (id mergeRequest)].

Definition mainInfoDiagnostic (mergeRequest : MergeRequest) : Event :=
  ConsoleError "❌ GitLab MR Enhancer: Could not find .issuable-main-info element for MR"
    [of_N (iid mergeRequest)].

(** The four fields written before the author is read *)
Definition partly_annotated_with (mergeRequest : MergeRequest) (node : Node) : Prop :=
  dataset_get node "title" = Some (title mergeRequest) ∧
  dataset_get node "iid" = Some (of_N (iid mergeRequest)) ∧
  dataset_get node "url" = Some (web_url mergeRequest) ∧
  dataset_get node "diffsUrl" = Some (web_url mergeRequest +:+ "/diffs").

Lemma dataset_set_Element key v t a cs :
  dataset_set key v (Element t a cs) = Element t (<[dataset_attr key := v]> a) cs.
Proof. done. Qed.

(** The Annotator raises exactly on a record without author. *)
Lemma setDataAttributes_exit mergeRequest node :
  setDataAttributesToMergeRequestNode mergeRequest node =
  (if author mergeRequest is Some _ then Normal else Abrupt)
    (final (setDataAttributesToMergeRequestNode mergeRequest node)).
Proof. unfold setDataAttributesToMergeRequestNode. by destruct (author mergeRequest). Qed.

(** Whatever the element held before, it holds the first four fields of
    the record afterwards, and all nine when the record has an author. *)
Lemma setDataAttributes_annotates mergeRequest t a cs :
  let written := final (setDataAttributesToMergeRequestNode mergeRequest (Element t a cs)) in
  partly_annotated_with mergeRequest written ∧
  (is_Some (author mergeRequest) → annotated_with mergeRequest written).
Proof.
  unfold setDataAttributesToMergeRequestNode, annotated_with, partly_annotated_with,
    dataset_get.
  destruct (author mergeRequest) as [who|]; cbn [final fmap option_fmap option_map];
    rewrite !dataset_set_Element; cbn [attributes].
  - split; [|intros _];
      repeat split;
      repeat (rewrite lookup_insert_ne by (by vm_compute)); apply lookup_insert_eq.
  - split; [|by intros [? ?]].
    repeat split;
      repeat (rewrite lookup_insert_ne by (by vm_compute)); apply lookup_insert_eq.
Qed.

Lemma setDataAttributes_Element mergeRequest t a cs :
  ∃ a', final (setDataAttributesToMergeRequestNode mergeRequest (Element t a cs))
        = Element t a' cs.
Proof.
  unfold setDataAttributesToMergeRequestNode.
  destruct (author mergeRequest); cbn [final]; rewrite !dataset_set_Element; eauto.
Qed.

Lemma annotated_with_update_below mergeRequest f i q n :
  annotated_with mergeRequest n → annotated_with mergeRequest (update f (i :: q) n).
Proof. unfold annotated_with. by rewrite !dataset_get_update_below. Qed.

Lemma partly_annotated_with_update_below mergeRequest f i q n :
  partly_annotated_with mergeRequest n →
  partly_annotated_with mergeRequest (update f (i :: q) n).
Proof. unfold partly_annotated_with. by rewrite !dataset_get_update_below. Qed.

Lemma final_update_exit f p doc :
  final (update_exit f p doc) = update (λ n, final (f n)) p doc.
Proof. unfold update_exit. by destruct (f <$> get doc p) as [[]|]. Qed.

(** The page with the record written onto the element at [p] *)
Definition annotated_at (mergeRequest : MergeRequest) (p : path) (doc : Node) : Node :=
  update (λ n, final (setDataAttributesToMergeRequestNode mergeRequest n)) p doc.

Lemma update_exit_setDataAttributes mergeRequest p doc :
  is_Some (get doc p) →
  update_exit (setDataAttributesToMergeRequestNode mergeRequest) p doc =
  (if author mergeRequest is Some _ then Normal else Abrupt) (annotated_at mergeRequest p doc).
Proof.
  intros [n Hn]. unfold update_exit, annotated_at. rewrite Hn. simpl.
  rewrite setDataAttributes_exit. by destruct (author mergeRequest).
Qed.

(** The step for a record that the cascade resolves to [p], as the body
    of the callback reads from there. *)
Lemma updateMergeRequestNode_found this doc events mergeRequest p :
  findMergeRequestNode doc (nodeSelectors mergeRequest) = Some p →
  updateMergeRequestNode this (doc, events) mergeRequest =
  let annotated := annotated_at mergeRequest p doc in
  if author mergeRequest is Some _ then
    if display_source_and_target_branches (preferences this) then
      match querySelector_at annotated p [cls "issuable-main-info"] with
      | Some targetElement =>
          Normal
            (update (append (parseHtml (parseFromString
                                          (newInfoLineToInject this mergeRequest))))
               targetElement annotated, events)
      | None => Normal (annotated, events ++ [mainInfoDiagnostic mergeRequest])
      end
    else Normal (annotated, events)
  else Abrupt (annotated, events).
Proof.
  intros Hfind. pose proof (findMergeRequestNode_item _ _ _ Hfind) as (t & a & cs & Hget & _).
  unfold updateMergeRequestNode. rewrite Hfind.
  rewrite update_exit_setDataAttributes by (by rewrite Hget).
  destruct (author mergeRequest); [|done].
  destruct (display_source_and_target_branches (preferences this)); [|done].
  destruct (querySelector_at _ p _); [|done]. by rewrite parseHtmlAndAppend_update.
Qed.

(** The callback returns on a record that has an author. *)
Lemma record_is_resolved_with_author this doc events mergeRequest p :
  is_Some (author mergeRequest) →
  findMergeRequestNode doc (nodeSelectors mergeRequest) = Some p →
  ∃ st, updateMergeRequestNode this (doc, events) mergeRequest = Normal st.
Proof.
  intros [who Hwho] Hfind. rewrite (updateMergeRequestNode_found _ _ _ _ _ Hfind).
  cbn zeta. rewrite Hwho.
  destruct (display_source_and_target_branches (preferences this)); [|eauto].
  destruct (querySelector_at _ _ _); eauto.
Qed.

Lemma updateMergeRequestNode_not_found this doc events mergeRequest :
  findMergeRequestNode doc (nodeSelectors mergeRequest) = None →
  updateMergeRequestNode this (doc, events) mergeRequest =
  Normal (doc, events ++ [unresolvedDiagnostic mergeRequest]).
Proof. intros Hfind. unfold updateMergeRequestNode. by rewrite Hfind. Qed.

(** The step for a record that the cascade resolves to [p]: the element
    holds the first four fields, and the nine of them when the record has
    an author. *)
Lemma updateMergeRequestNode_annotates this doc events mergeRequest p :
  findMergeRequestNode doc (nodeSelectors mergeRequest) = Some p →
  ∃ node, get (final (updateMergeRequestNode this (doc, events) mergeRequest)).1 p
            = Some node ∧
          partly_annotated_with mergeRequest node ∧
          (is_Some (author mergeRequest) → annotated_with mergeRequest node).
Proof.
  intros Hfind. pose proof (findMergeRequestNode_item _ _ _ Hfind) as (t & a & cs & Hget & _).
  rewrite (updateMergeRequestNode_found _ _ _ _ _ Hfind). cbn zeta.
  set (doc1 := annotated_at mergeRequest p doc).
  assert (get doc1 p =
          Some (final (setDataAttributesToMergeRequestNode mergeRequest (Element t a cs))))
    as Hget1 by (unfold doc1, annotated_at; by rewrite get_update_same, Hget).
  pose proof (setDataAttributes_annotates mergeRequest t a cs) as [Hpart Hfull].
  destruct (author mergeRequest) as [who|]; [|by eauto].
  destruct (display_source_and_target_branches (preferences this)); [|by eauto].
  destruct (querySelector_at doc1 p [cls "issuable-main-info"]) as [q|] eqn:Hq;
    [|by eauto].
  apply querySelector_at_below in Hq as (i & q' & ->). cbn [final fst].
  rewrite get_update, Hget1. eexists. split; [reflexivity|].
  split; [by apply partly_annotated_with_update_below|].
  intros Hsome. by apply annotated_with_update_below, Hfull.
Qed.

End AnnotationFacts.

(** ** Reconciliation on sample pages *)

Section ReconcilerExamples.
Import JsString Dom GitLabApiClient ContentScript.
#[local] Existing Instance simple_dom_parser.

(** The identity token of the item at [p]: its reference text, trimmed,
    without the first ["!"]. *)
Definition identityToken (doc : Node) (p : path) : option string :=
  (λ el, JsString.replace (trim (textContent el)) "!" "") <$>
  (querySelector_at doc p [cls "issuable-reference"] ≫= get doc).


Definition field (doc : Node) (p : path) (key : string) : option string :=
  get doc p ≫= λ n, dataset_get n key.

(** The scenario of the specification: two items, one record. *)
Example reconcile_scenario :
  let page := sample_page "mr-list" [sample_item [] "One" "!1"; sample_item [] "Two" "!2"] in
  let mergeRequest := sample_record 70 1 "One" "PROJ-42-fix" false in
  let result := final (onMergeRequestsFetched (sample_script None true) page [mergeRequest]) in
  getCurrentMergeRequestIds page = ["1"; "2"] ∧
  field result.1 [0; 0; 0] "sourceBranchName" = Some "PROJ-42-fix" ∧
  attributes <$> get result.1 [0; 0; 1] = attributes <$> get page [0; 0; 1] ∧
  get result.1 [0; 0; 1] = get page [0; 0; 1] ∧
  Jira.findFirstJiraTicketId mergeRequest = Some "PROJ-42" ∧
  result.2 = [].
Proof. by vm_compute. Qed.


(** C6 (what the code does instead). A record that no attribute matcher
    and no reference text matches is not skipped when the page shows any
    item: the last entry of the cascade, [.merge-request], selects the
    first item, which receives the record; the console stays empty. *)
Example unmatched_record_is_written_onto_first_item :
  let this := sample_script None false in
  let page := sample_page "mr-list" [sample_item [] "Two" "!2"] in
  let mergeRequest := sample_record 30 3 "Three" "other" false in
  let result := final (updateMergeRequestsNodes this page [mergeRequest]) in
  findMergeRequestNode page (attributeSelectors mergeRequest) = None ∧
  manualSearch page "!3" = None ∧
  identityToken page [0; 0; 0] = Some "2" ∧
  field result.1 [0; 0; 0] "iid" = Some "3" ∧
  field result.1 [0; 0; 0] "title" = Some "Three" ∧
  result.2 = [].
Proof. by vm_compute. Qed.

(** C7 (what the code does instead). Without a CSRF token the click
    leaves the control disabled: [updateProjectMergeRequest] returns
    [undefined], so the call raises before [then] and [finally] are
    attached. *)
Example toggle_without_csrf_token_leaves_control_disabled :
  let this := sample_script None true in
  let page := annotated_page "Fix it" "false" in
  let clicked outcome := toggleMergeRequestWipStatus this page [0; 0; 0] outcome in
  newTitleFor (sample_item [("data-title", "Fix it"); ("data-iid", "1");
                            ("data-is-wip", "false")] "Fix it" "!1") = Some "WIP: Fix it" ∧
  t_disabled (clicked Rejected) = true ∧
  t_thrown (clicked Rejected) = true ∧
  t_disabled (clicked (Fulfilled (sample_remote "WIP: Fix it"))) = true ∧
  t_events (clicked Rejected) =
    [ConsoleError "Cannot issue POST/PUT/PATCH requests without CSRF token" []].
Proof. by vm_compute. Qed.

End ReconcilerExamples.

(** ** Counting and editing nodes *)

Section TreeEditFacts.
Import Dom.

(** The number of elements of class [c] in the subtree [n], [n] included. *)
Fixpoint count_class (c : string) (n : Node) : nat :=
  match n with
  | Text _ => 0
  | Element _ a cs =>
      (if bool_decide (c ∈ classList a) then 1 else 0) + sum_list_with (count_class c) cs
  end.

(** The same among the proper descendants of [n]. *)
Definition count_below (c : string) (n : Node) : nat :=
  match n with
  | Text _ => 0
  | Element _ _ cs => sum_list_with (count_class c) cs
  end.





(** [get] does not depend on the ancestors that [locate] collects. *)
Lemma locate_snd_anc r : ∀ anc anc' n,
  snd <$> locate anc n r = snd <$> locate anc' n r.
Proof.
  induction r as [|i r IH]; intros anc anc' [s|t a cs]; simpl; try done.
  destruct (cs !! i) as [c|]; simpl; [apply IH|done].
Qed.

Lemma get_nil n : get n [] = Some n.
Proof. done. Qed.

Lemma get_cons t a cs i r :
  get (Element t a cs) (i :: r) = cs !! i ≫= λ c, get c r.
Proof.
  unfold get. simpl. destruct (cs !! i) as [c|]; simpl; [|done].
  apply locate_snd_anc.
Qed.

Lemma get_Text s i r : get (Text s) (i :: r) = None.
Proof. done. Qed.

Lemma get_app p : ∀ n r, get n (p ++ r) = get n p ≫= λ x, get x r.
Proof.
  induction p as [|i p IH]; intros n r; [done|]. simpl.
  destruct n as [s|t a cs]; [done|]. rewrite !get_cons.
  destruct (cs !! i) as [c|]; simpl; [apply IH|done].
Qed.


(** Two paths: one leads through the other, or they part at some index. *)
Lemma path_trichotomy (p q : path) :
  (∃ r, q = p ++ r) ∨ (∃ i r, p = q ++ i :: r) ∨
  (∃ c a b r1 r2, a ≠ b ∧ p = c ++ a :: r1 ∧ q = c ++ b :: r2).
Proof.
  revert q. induction p as [|a p IH]; intros q; [left; by exists q|].
  destruct q as [|b q]; [right; left; by exists a, p|].
  destruct (decide (a = b)) as [->|Hne].
  - destruct (IH q) as [[r ->]|[(i & r & ->)|(c & x & y & r1 & r2 & ? & -> & ->)]].
    + left. by exists r.
    + right; left. by exists i, r.
    + right; right. by exists (b :: c), x, y, r1, r2.
  - right; right. by exists [], a, b, p, q.
Qed.

Lemma get_update_below f q : ∀ n r,
  get (update f q n) (q ++ r) = get n q ≫= λ x, get (f x) r.
Proof.
  induction q as [|i q IH]; intros n r; [done|]. simpl.
  destruct n as [s|t a cs]; [done|]. rewrite !get_cons, list_lookup_alter_eq.
  destruct (cs !! i) as [c|]; simpl; [apply IH|done].
Qed.

Lemma get_update_apart f c a b r1 r2 : a ≠ b → ∀ n,
  get (update f (c ++ b :: r2) n) (c ++ a :: r1) = get n (c ++ a :: r1).
Proof.
  intros Hne. induction c as [|i c IH]; intros [s|t a0 cs]; simpl; try done.
  - by rewrite !get_cons, list_lookup_alter_ne.
  - rewrite !get_cons, list_lookup_alter_eq.
    destruct (cs !! i) as [x|]; simpl; [apply IH|done].
Qed.

(** An edit of an element: new attributes, new children appended. Both
    mutations of the reconciler are of this shape. *)
Definition edit (g : gmap string string → gmap string string) (extra : list Node)
    (n : Node) : Node :=
  match n with
  | Element t a cs => Element t (g a) (cs ++ extra)
  | Text _ => n
  end.

Definition keeps_classes (g : gmap string string → gmap string string) : Prop :=
  ∀ a, classList (g a) = classList a.



Lemma sum_list_with_alter_le {A} (h : A → nat) (u : A → A) (E : nat) i l :
  (∀ x, h (u x) ≤ h x + E) →
  sum_list_with h (alter u i l) ≤ sum_list_with h l + E.
Proof.
  intros Hu. revert i. induction l as [|x l IH]; intros [|i]; simpl; try lia.
  - specialize (Hu x). lia.
  - specialize (IH i). change (list_alter u i l) with (alter u i l). lia.
Qed.

Lemma count_class_update_edit_le c g extra r : keeps_classes g → ∀ n,
  count_class c (update (edit g extra) r n) ≤
  count_class c n + sum_list_with (count_class c) extra.
Proof.
  intros Hg. induction r as [|i r IH]; intros [s|t a cs]; simpl; try lia.
  - rewrite Hg, sum_list_with_app. lia.
  - pose proof (sum_list_with_alter_le (count_class c) (update (edit g extra) r)
                  (sum_list_with (count_class c) extra) i cs IH). lia.
Qed.

Lemma count_below_update_edit_le c g extra r n :
  keeps_classes g →
  count_below c (update (edit g extra) r n) ≤
  count_below c n + sum_list_with (count_class c) extra.
Proof.
  intros Hg. destruct r as [|i r], n as [s|t a cs]; simpl; try lia.
  - rewrite sum_list_with_app. lia.
  - apply sum_list_with_alter_le. intros x. by apply count_class_update_edit_le.
Qed.

Lemma count_below_update_keeps c g r n :
  keeps_classes g → count_below c (update (edit g []) r n) ≤ count_below c n.
Proof.
  intros Hg. pose proof (count_below_update_edit_le c g [] r n Hg). simpl in *. lia.
Qed.




Section Edit.
Context (g : gmap string string → gmap string string) (extra : list Node).
Hypothesis Hg : keeps_classes g.
Hypothesis Hextra : Forall (λ x, count_class "merge-request" x = 0) extra.



End Edit.

End TreeEditFacts.

(** ** Reconciler: branch path nodes per item *)

Section BranchNodeFacts.
Import JsString Dom GitLabApiClient ContentScript HtmlInjection.
Context `{Parser : DomParser} `{Laws : !DomParserLaws}.

(** The attributes written by the Annotator. *)
Definition annotate (mergeRequest : MergeRequest) (a : gmap string string)
    : gmap string string :=
  attributes (final (setDataAttributesToMergeRequestNode mergeRequest (Element "" a []))).

Lemma setDataAttributes_edit mergeRequest n :
  final (setDataAttributesToMergeRequestNode mergeRequest n)
  = edit (annotate mergeRequest) [] n.
Proof.
  unfold annotate, setDataAttributesToMergeRequestNode.
  destruct n as [s|t a cs]; [by destruct (author mergeRequest)|]. simpl. rewrite app_nil_r.
  by destruct (author mergeRequest).
Qed.



Lemma append_edit new n : append new n = edit (λ a, a) new n.
Proof. by destruct n. Qed.




(** No list item lies inside another. *)
Definition unnested (doc : Node) : Prop :=
  ∀ p r, item doc p → item doc (p ++ r) → r = [].










(** *** Removal of the branch path nodes *)


Lemma matches_ancestors_cons c cs e anc :
  matches_ancestors (c :: cs) (e :: anc) =
  if matches_compound c e then matches_ancestors cs anc
  else matches_ancestors (c :: cs) anc.
Proof. done. Qed.



Lemma matches_item c e : matches_compound (cls c) e = bool_decide (c ∈ classList e.2).
Proof. unfold matches_compound, cls. simpl. apply andb_true_r. Qed.



Lemma matches_removedSelector anc e :
  matches removedSelector anc e =
  matches_compound (cls "project-ref-path") e &&
  matches_ancestors [cls "merge-request"; cls "mr-list"] anc.
Proof. done. Qed.












End BranchNodeFacts.

Section BranchNodeExamples.
Import JsString Dom GitLabApiClient ContentScript.
#[local] Existing Instance simple_dom_parser.

Definition two_items (list_class : string) : Node :=
  sample_page list_class [sample_item [] "One" "!1"; sample_item [] "Two" "!2"].

Definition two_records : list MergeRequest :=
  [sample_record 70 1 "One" "PROJ-42-fix" false; sample_record 71 2 "Two" "feature" false].

(** The number of elements of class [c] inside the element at [p]. *)
Definition inside (doc : Node) (p : path) (c : string) : nat :=
  length (querySelectorAll_at doc p [cls c]).


(** Three passes over a page whose items lie in [.mr-list]: one branch path
    node per item after each pass, while the emptied info blocks of the
    earlier passes stay. *)
Example three_passes :
  let this := sample_script None true in
  let pass doc := (final (onMergeRequestsFetched this doc two_records)).1 in
  let once := pass (two_items "mr-list") in
  let twice := pass once in
  let thrice := pass twice in
  (inside once [0; 0; 0] "project-ref-path", inside once [0; 0; 1] "project-ref-path") = (1, 1) ∧
  (inside twice [0; 0; 0] "project-ref-path", inside twice [0; 0; 1] "project-ref-path") = (1, 1) ∧
  (inside thrice [0; 0; 0] "project-ref-path", inside thrice [0; 0; 1] "project-ref-path") = (1, 1) ∧
  (inside once [0; 0; 0] "issuable-info", inside twice [0; 0; 0] "issuable-info",
   inside thrice [0; 0; 0] "issuable-info") = (1, 2, 3) ∧
  (textContent <$> (querySelector_at once [0; 0; 0] [cls "ref-name"] ≫= get once))
    = Some "PROJ-42-fix".
Proof. by vm_compute. Qed.


End BranchNodeExamples.

(** ** Further properties of the reconciler and of the toggle *)

Section FurtherFacts.
Import JsString Dom GitLabApiClient ContentScript.

Section Resolution.
Context `{Parser : DomParser}.

(** On a page without any list item a record is reported, with its iid
    and its internal id, and skipped: the document is left as it is. The
    rest of the batch is processed from there. *)
Theorem record_without_item_is_reported_and_skipped
    (this : Script) (doc : Node) (mergeRequest : MergeRequest) (rest : list MergeRequest) :
  querySelectorAll doc [cls "merge-request"] = [] →
  updateMergeRequestNode this (doc, []) mergeRequest
    = Normal (doc, [unresolvedDiagnostic mergeRequest]) ∧
  updateMergeRequestsNodes this doc (mergeRequest :: rest) =
    forEach (updateMergeRequestNode this) (doc, [unresolvedDiagnostic mergeRequest]) rest.
Proof.
  intros Hnone%(findMergeRequestNode_None doc mergeRequest).
  pose proof (updateMergeRequestNode_not_found this doc [] mergeRequest Hnone) as Hstep.
  split; [done|]. unfold updateMergeRequestsNodes. cbn [forEach]. by rewrite Hstep.
Qed.

(** As soon as the page shows a list item, every record is written onto
    one: the diagnostic branch is not taken. A record that has an author
    is written in full and the callback returns; of a record without
    author the first four fields are written, and the callback raises. *)
Theorem record_is_always_resolved_on_a_page_with_items
    (this : Script) (doc : Node) (events : list Event) (mergeRequest : MergeRequest) :
  querySelectorAll doc [cls "merge-request"] ≠ [] →
  let result := updateMergeRequestNode this (doc, events) mergeRequest in
  ∃ p node, findMergeRequestNode doc (nodeSelectors mergeRequest) = Some p ∧ item doc p ∧
            get (final result).1 p = Some node ∧
            partly_annotated_with mergeRequest node ∧
            match author mergeRequest with
            | Some _ => annotated_with mergeRequest node ∧ result = Normal (final result)
            | None => result = Abrupt (annotated_at mergeRequest p doc, events)
            end.
Proof.
  intros Hsome result.
  destruct (findMergeRequestNode doc (nodeSelectors mergeRequest)) as [p|] eqn:Hfind.
  - destruct (updateMergeRequestNode_annotates this doc events mergeRequest p Hfind)
      as (node & Hg & Hpart & Hfull).
    exists p, node. split; [done|]. split; [by eapply findMergeRequestNode_item|].
    split; [done|]. split; [done|].
    unfold result. rewrite (updateMergeRequestNode_found _ _ _ _ _ Hfind). cbn zeta.
    destruct (author mergeRequest) as [who|]; [|done]. split; [by apply Hfull|].
    destruct (display_source_and_target_branches (preferences this)); [|done].
    by destruct (querySelector_at _ _ _).
  - by apply findMergeRequestNode_None in Hfind.
Qed.

End Resolution.

Lemma record_without_item_is_reported_and_skipped_witness :
  let this := sample_script None true in
  let doc := sample_page "mr-list" [] in
  let mergeRequest := sample_record 30 3 "Three" "other" false in
  @updateMergeRequestNode simple_dom_parser this (doc, []) mergeRequest
    = Normal (doc, [unresolvedDiagnostic mergeRequest]) ∧
  @updateMergeRequestsNodes simple_dom_parser this doc [mergeRequest] =
    forEach (@updateMergeRequestNode simple_dom_parser this)
      (doc, [unresolvedDiagnostic mergeRequest]) [].
Proof.
  exact (@record_without_item_is_reported_and_skipped simple_dom_parser
           (sample_script None true)
           (sample_page "mr-list" []) (sample_record 30 3 "Three" "other" false) [] eq_refl).
Defined.

Lemma record_is_always_resolved_on_a_page_with_items_witness :
  let doc := sample_page "mr-list" [sample_item [] "Two" "!2"] in
  let mergeRequest := sample_record 30 3 "Three" "other" false in
  let result :=
    @updateMergeRequestNode simple_dom_parser (sample_script None true) (doc, [])
      mergeRequest in
  ∃ p node, findMergeRequestNode doc (nodeSelectors mergeRequest) = Some p ∧ item doc p ∧
            get (final result).1 p = Some node ∧
            partly_annotated_with mergeRequest node ∧
            match author mergeRequest with
            | Some _ => annotated_with mergeRequest node ∧ result = Normal (final result)
            | None => result = Abrupt (annotated_at mergeRequest p doc, [])
            end.
Proof.
  apply (@record_is_always_resolved_on_a_page_with_items simple_dom_parser
           (sample_script None true)
           (sample_page "mr-list" [sample_item [] "Two" "!2"]) []
           (sample_record 30 3 "Three" "other" false)).
  by vm_compute.
Defined.

(** Once the request has been issued, the control is enabled again however
    the request settles, and a rejected request leaves the document as it
    was: the only effects are the call, the console message and the alert. *)
Theorem toggle_enables_control_once_request_is_issued
    (this : Script) (doc : Node) (p : path) (node : Node) (newTitle : string)
    (outcome : Outcome MergeRequest) :
  truthy (csrfToken (apiClient this)) = true →
  get doc p = Some node → newTitleFor node = Some newTitle →
  t_disabled (toggleMergeRequestWipStatus this doc p outcome) = false ∧
  t_thrown (toggleMergeRequestWipStatus this doc p outcome) = false ∧
  (outcome = Rejected →
   t_doc (toggleMergeRequestWipStatus this doc p outcome) = doc ∧
   ∃ req, t_events (toggleMergeRequestWipStatus this doc p outcome) =
          [Fetch req;
           ConsoleError "Got error from GitLab:" [];
           Alert "Got error from GitLab, check console for more information."]).
Proof.
  intros Hcsrf Hget Hnew.
  destruct (toggle_issued this doc p node newTitle outcome Hcsrf Hget Hnew)
    as (req & _ & _ & ->).
  destruct outcome as [responseData|]; simpl.
  - destruct (querySelector_at _ p titleLinkSelector); by repeat split.
  - repeat split. eauto.
Qed.

Lemma toggle_enables_control_once_request_is_issued_witness :
  let this := sample_script (Some "tok") true in
  let doc := annotated_page "Fix it" "false" in
  t_disabled (toggleMergeRequestWipStatus this doc [0; 0; 0] Rejected) = false ∧
  t_thrown (toggleMergeRequestWipStatus this doc [0; 0; 0] Rejected) = false ∧
  (@Rejected MergeRequest = Rejected →
   t_doc (toggleMergeRequestWipStatus this doc [0; 0; 0] Rejected) = doc ∧
   ∃ req, t_events (toggleMergeRequestWipStatus this doc [0; 0; 0] Rejected) =
          [Fetch req;
           ConsoleError "Got error from GitLab:" [];
           Alert "Got error from GitLab, check console for more information."]).
Proof.
  apply (toggle_enables_control_once_request_is_issued (sample_script (Some "tok") true)
           (annotated_page "Fix it" "false") [0; 0; 0]
           (sample_item [("data-title", "Fix it"); ("data-iid", "1");
                         ("data-is-wip", "false")] "Fix it" "!1")
           "WIP: Fix it" Rejected);
    reflexivity.
Defined.

(** Without a CSRF token the control stays disabled, whatever the page. *)
Theorem toggle_without_csrf_token_never_enables_control
    (this : Script) (doc : Node) (p : path) (outcome : Outcome MergeRequest) :
  truthy (csrfToken (apiClient this)) = false →
  t_disabled (toggleMergeRequestWipStatus this doc p outcome) = true ∧
  t_thrown (toggleMergeRequestWipStatus this doc p outcome) = true ∧
  t_doc (toggleMergeRequestWipStatus this doc p outcome) = doc.
Proof.
  intros Hcsrf. unfold toggleMergeRequestWipStatus.
  destruct (get doc p ≫= _) as [[node newTitle]|]; [|done].
  unfold updateProjectMergeRequest. by rewrite sendRequest_PUT_without_token.
Qed.

Lemma toggle_without_csrf_token_never_enables_control_witness :
  let this := sample_script None true in
  let doc := annotated_page "Fix it" "false" in
  t_disabled (toggleMergeRequestWipStatus this doc [0; 0; 0] Rejected) = true ∧
  t_thrown (toggleMergeRequestWipStatus this doc [0; 0; 0] Rejected) = true ∧
  t_doc (toggleMergeRequestWipStatus this doc [0; 0; 0] Rejected) = doc.
Proof.
  exact (toggle_without_csrf_token_never_enables_control (sample_script None true)
           (annotated_page "Fix it" "false") [0; 0; 0] Rejected eq_refl).
Defined.

End FurtherFacts.

(** ** The injected info block *)

Section InfoBlockFacts.
Import JsString Dom GitLabApiClient ContentScript.

Lemma querySelector_at_Element doc p sel q :
  querySelector_at doc p sel = Some q → ∃ t a cs, get doc q = Some (Element t a cs).
Proof.
  unfold querySelector_at, querySelectorAll_at. intros Hhead.
  destruct (locate [] doc p) as [[anc [s|t a cs]]|] eqn:Hl; try done.
  assert (q ∈ (p ++.) <$> qsa_forest sel ((t, a) :: anc) 0 cs) as Hin.
  { destruct ((p ++.) <$> qsa_forest sel ((t, a) :: anc) 0 cs); simplify_eq/=. by left. }
  apply list_elem_of_fmap in Hin as (r & -> & Hr).
  apply elem_of_qsa_forest in Hr as (j & c & p' & -> & Hj & Hp').
  apply elem_of_qsa_node in Hp' as (anc' & t' & a' & cs' & Hl' & _).
  assert (get doc p = Some (Element t a cs)) as Hp by (unfold get; by rewrite Hl).
  exists t', a', cs'. rewrite get_app, Hp. simpl.
  rewrite get_cons, Hj. simpl. unfold get.
  rewrite (locate_snd_anc p' [] ((t, a) :: anc)). by rewrite Hl'.
Qed.

Section InfoBlock.
Context `{Parser : DomParser} `{Laws : !DomParserLaws}.

(** With the branch display enabled, the info block of a record that has
    an author is appended after the children of the first
    [.issuable-main-info] element inside its item. When the project URL
    and the branch name hold inert characters only, the block is what the
    parser makes of the text built for the record: one [div] holding one
    branch path node, whose link shows the source branch name. An item
    without such an element gets its annotated state only, and the
    console gets a diagnostic. *)
Theorem info_block_is_appended_to_main_info
    (this : Script) (doc : Node) (events : list Event)
    (mergeRequest : MergeRequest) (p : path) :
  display_source_and_target_branches (preferences this) = true →
  is_Some (author mergeRequest) →
  inert (baseProjectUrl this) = true → inert (source_branch mergeRequest) = true →
  findMergeRequestNode doc (nodeSelectors mergeRequest) = Some p →
  let annotated := annotated_at mergeRequest p doc in
  let result := updateMergeRequestNode this (doc, events) mergeRequest in
  match querySelector_at annotated p [cls "issuable-main-info"] with
  | Some target =>
      ∃ t a cs block,
        get annotated target = Some (Element t a cs) ∧
        parseFromString (newInfoLineToInject this mergeRequest) = [block] ∧
        result = Normal (update (append [block]) target annotated, events) ∧
        get (final result).1 target = Some (Element t a (cs ++ [block])) ∧
        count_class "project-ref-path" block = 1 ∧
        textContent block = source_branch mergeRequest
  | None => result = Normal (annotated, events ++ [mainInfoDiagnostic mergeRequest])
  end.
Proof.
  intros Hdisplay [who Hwho] Hurl Hbranch Hfind annotated result.
  unfold result. rewrite (updateMergeRequestNode_found _ _ _ _ _ Hfind). cbn zeta.
  rewrite Hwho, Hdisplay. fold annotated.
  destruct (querySelector_at annotated p [cls "issuable-main-info"]) as [target|] eqn:Hq;
    [|done].
  apply querySelector_at_Element in Hq as (t & a & cs & Hg).
  rewrite parseHtml_info_line, parse_info_line by done.
  exists t, a, cs. eexists. split; [done|].
  split; [reflexivity|]. split; [reflexivity|]. split.
  - cbn [final fst]. by rewrite get_update_same, Hg.
  - split.
    + cbn [count_class mjoin list_join fmap list_fmap parsed infoLineMarkup infoLineOf app
           sum_list_with].
      unfold text_nodes. by destruct (decide (source_branch mergeRequest = "")).
    + cbn [mjoin list_join fmap list_fmap parsed infoLineMarkup infoLineOf app].
      unfold text_nodes.
      destruct (decide (source_branch mergeRequest = "")) as [->|]; [done|].
      simpl. unfold concat_strings. simpl.
      apply chars_inj. by rewrite !chars_app, !app_nil_r.
Qed.

End InfoBlock.

Lemma info_block_is_appended_to_main_info_witness :
  let this := sample_script None true in
  let doc := sample_page "mr-list" [sample_item [] "One" "!1"] in
  let mergeRequest := sample_record 70 1 "One" "PROJ-42-fix" false in
  let annotated := annotated_at mergeRequest [0; 0; 0] doc in
  let result := @updateMergeRequestNode simple_dom_parser this (doc, []) mergeRequest in
  match querySelector_at annotated [0; 0; 0] [cls "issuable-main-info"] with
  | Some target =>
      ∃ t a cs block,
        get annotated target = Some (Element t a cs) ∧
        simple_parseFromString (newInfoLineToInject this mergeRequest) = [block] ∧
        result = Normal (update (append [block]) target annotated, []) ∧
        get (final result).1 target = Some (Element t a (cs ++ [block])) ∧
        count_class "project-ref-path" block = 1 ∧
        textContent block = source_branch mergeRequest
  | None => result = Normal (annotated, [] ++ [mainInfoDiagnostic mergeRequest])
  end.
Proof.
  apply (@info_block_is_appended_to_main_info simple_dom_parser simple_dom_parser_laws
           (sample_script None true)
           (sample_page "mr-list" [sample_item [] "One" "!1"]) []
           (sample_record 70 1 "One" "PROJ-42-fix" false) [0; 0; 0]);
    [reflexivity|by eexists|reflexivity|reflexivity|by vm_compute].
Defined.

End InfoBlockFacts.

(** ** Annotated state through a batch *)

Section BatchAnnotationFacts.
Import JsString Dom GitLabApiClient ContentScript HtmlInjection.

(** An edit at [q] leaves the attributes of every other element alone, and
    those of the element at [q] too when it only appends children. *)
Lemma attributes_after_edit g extra q doc p n :
  p ≠ q ∨ (∀ a, g a = a) →
  get doc p = Some n →
  ∃ n', get (update (edit g extra) q doc) p = Some n' ∧ attributes n' = attributes n.
Proof.
  intros Hpq Hget.
  destruct (path_trichotomy p q) as [[r ->]|[(i & r & ->)|(c & x & y & r1 & r2 & Hne & -> & ->)]].
  - rewrite get_update, Hget. eexists. split; [reflexivity|].
    destruct r as [|i r]; [|apply attributes_update_below].
    destruct Hpq as [Hpq|Hg]; [by rewrite app_nil_r in Hpq|].
    destruct n as [s|t a cs]; [done|]. simpl. apply Hg.
  - rewrite get_update_below. rewrite get_app in Hget.
    destruct (get doc q) as [[s|t a cs]|]; simpl in *; [done| |done].
    rewrite get_cons in *. destruct (cs !! i) as [x|] eqn:Hi; [|done].
    rewrite lookup_app_l by (by eapply lookup_lt_Some). rewrite Hi. eauto.
  - rewrite get_update_apart by done. eauto.
Qed.

Section Batch.
Context `{Parser : DomParser}.





End Batch.


End BatchAnnotationFacts.

(* ===================================================================== *)
(** * Part III: further properties of the code of Part I *)
(* ===================================================================== *)

(** ** Decimal strings *)

Section DecimalFacts.
Import JsString GitLabApiClient.

Definition digit_char (c : ascii) : Prop := in_range "0" "9" c = true.

Lemma pretty_N_char_digit m :
  (m < 10)%N →
  digit_char (pretty_N_char m) ∧
  (Z.of_N (N_of_ascii (pretty_N_char m)) - 48 = Z.of_N m)%Z ∧
  Ascii.is_space (pretty_N_char m) = false.
Proof.
  intros Hm.
  assert (m = 0 ∨ m = 1 ∨ m = 2 ∨ m = 3 ∨ m = 4 ∨ m = 5 ∨ m = 6 ∨ m = 7 ∨
          m = 8 ∨ m = 9)%N as H by lia.
  destruct_or!; subst m; by vm_compute.
Qed.

Lemma digits_value_digit acc c l :
  digit_char c →
  digits_value acc (c :: l) =
  digits_value (Some (10 * default 0%Z acc + (Z.of_N (N_of_ascii c) - 48))%Z) l.
Proof. intros Hc. simpl. unfold digit_char in Hc. by rewrite Hc. Qed.

(** The digits that [pretty_N_go] writes in front of [s] are read back by
    [digits_value] as the number itself. *)
Lemma pretty_N_go_digits x : ∀ s,
  (0 < x)%N →
  ∃ ds, chars (pretty_N_go x s) = ds ++ chars s ∧ ds ≠ [] ∧
        Forall digit_char ds ∧
        ∀ acc l, ∃ k : Z,
          digits_value acc (ds ++ l) =
          digits_value (Some (k * default 0%Z acc + Z.of_N x)%Z) l.
Proof.
  induction (N.lt_wf_0 x) as [x _ IH]. intros s Hx.
  rewrite pretty_N_go_step by done.
  destruct (pretty_N_char_digit (x `mod` 10)) as (Hd & Hv & _);
    [by apply N.mod_lt|].
  set (d := pretty_N_char (x `mod` 10)) in *.
  destruct (N.eq_0_gt_0_cases (x `div` 10)) as [Hz|Hpos].
  - rewrite Hz, pretty_N_go_0. exists [d]. split; [done|]. split; [done|].
    split; [by repeat constructor|].
    intros acc l. exists 10%Z. simpl app. rewrite digits_value_digit by done.
    do 2 f_equal. rewrite Hv.
    pose proof (N.div_mod x 10 ltac:(done)). lia.
  - destruct (IH (x `div` 10)%N) with (s := String d s) as (ds & Heq & Hne & Hall & Hval);
      [by apply N.div_lt|done|].
    exists (ds ++ [d]). rewrite Heq. simpl. rewrite <- app_assoc. split; [done|].
    split; [by destruct ds|]. split; [apply Forall_app; by repeat constructor|].
    intros acc l. destruct (Hval acc (d :: l)) as [k Hk].
    exists (10 * k)%Z. rewrite <- app_assoc. simpl app. rewrite Hk.
    rewrite digits_value_digit by done. do 2 f_equal. simpl default. rewrite Hv.
    pose proof (N.div_mod x 10 ltac:(done)). lia.
Qed.

(** [String(n)] is a non-empty string of digits ... *)
Lemma of_N_digits n :
  ∃ ds, chars (of_N n) = ds ∧ ds ≠ [] ∧ Forall digit_char ds ∧
        ∀ l, digits_value None (ds ++ l) = digits_value (Some (Z.of_N n)) l.
Proof.
  unfold of_N, pretty, pretty_N. case_decide as Hn.
  - subst n. exists ["0"%char]. split; [done|]. split; [done|].
    split; [by repeat constructor|]. done.
  - destruct (pretty_N_go_digits n "") as (ds & Heq & Hne & Hall & Hval); [lia|].
    exists ds. change (chars "") with (@nil ascii) in Heq. rewrite app_nil_r in Heq.
    split; [done|]. split; [done|]. split; [done|].
    intros l. destruct (Hval None l) as [k Hk]. rewrite Hk. simpl. do 2 f_equal. lia.
Qed.

Lemma digit_char_plain c : digit_char c → plain c.
Proof.
  unfold digit_char, in_range. intros [H1 H2]%andb_true_iff.
  apply N.leb_le in H1, H2. change (N_of_ascii "9") with 57%N in H2.
  change (N_of_ascii "0") with 48%N in H1. split; [|lia].
  destruct (Ascii.is_space c) eqn:E; [|done]. exfalso.
  assert (c = "009" ∨ c = "010" ∨ c = "011" ∨ c = "012" ∨ c = "013" ∨ c = " ")%char
    as Hc.
  { unfold Ascii.is_space in E. repeat case_match; try discriminate; tauto. }
  destruct_or!; subst c; vm_compute in H1; by destruct H1.
Qed.

Lemma digits_value_stop acc c l :
  in_range "0" "9" c = false → digits_value acc (c :: l) = acc.
Proof. intros H. simpl. by rewrite H. Qed.

Lemma digits_value_nil acc : digits_value acc [] = acc.
Proof. done. Qed.

(** ... that [parseInt] reads back as [n]. *)
Lemma parseInt_of_N n : parseInt (of_N n) = JNumber (Z.of_N n).
Proof.
  destruct (of_N_digits n) as (ds & Heq & Hne & Hall & Hval).
  unfold parseInt. rewrite Heq.
  destruct ds as [|d ds]; [done|].
  inversion Hall as [|?? Hd Hrest]; subst.
  rewrite ltrim_nospace by (by apply digit_char_plain).
  assert (d ≠ "-"%char ∧ d ≠ "+"%char) as [Hm Hp].
  { split; intros ->; by vm_compute in Hd. }
  assert (match d :: ds with
          | "-"%char :: l' => (true, l')
          | "+"%char :: l' => (false, l')
          | _ => (false, d :: ds)
          end = (false, d :: ds)) as ->.
  { destruct d as [[] [] [] [] [] [] [] []]; try done. }
  specialize (Hval []). rewrite app_nil_r in Hval. by rewrite Hval.
Qed.

End DecimalFacts.

(** ** The Annotator as an operation on attributes *)

Section AnnotatorAlgebra.
Import JsString Dom GitLabApiClient ContentScript.

(** The attributes behind the nine annotated fields, and behind the four
    that are written before the author is read *)
Definition annotatedAttributes : list string :=
  dataset_attr <$> ["title"; "iid"; "url"; "diffsUrl"; "authorName"; "status";
                    "sourceBranchName"; "targetBranchName"; "isWip"].
Definition firstAttributes : list string :=
  dataset_attr <$> ["title"; "iid"; "url"; "diffsUrl"].

(** The attributes that the Annotator writes for a record *)
Definition writtenAttributes (mergeRequest : MergeRequest) : list string :=
  if author mergeRequest is Some _ then annotatedAttributes else firstAttributes.

Lemma annotate_annotate r1 r2 a :
  is_Some (author r2) → annotate r2 (annotate r1 a) = annotate r2 a.
Proof.
  intros [who Hwho]. unfold annotate, setDataAttributesToMergeRequestNode. rewrite Hwho.
  destruct (author r1); cbn [final]; rewrite !dataset_set_Element; cbn [attributes];
    apply map_eq; intros k; rewrite !lookup_insert; repeat case_decide; done.
Qed.

Lemma annotate_other r a name :
  name ∉ writtenAttributes r → annotate r a !! name = a !! name.
Proof.
  intros Hname. unfold annotate, setDataAttributesToMergeRequestNode.
  unfold writtenAttributes in Hname.
  destruct (author r); cbn [final]; rewrite !dataset_set_Element; cbn [attributes];
    rewrite !lookup_insert;
    repeat (destruct (decide (dataset_attr _ = name)) as [Heq|_];
            [exfalso; apply Hname; rewrite <- Heq;
             unfold annotatedAttributes, firstAttributes;
             cbn [fmap list_fmap]; set_solver|]);
    done.
Qed.

(** Annotating with a record that has an author is an overwrite: of two
    records written onto a node only the second is left, so that writing
    such a record twice is the same as writing it once. On a record
    without author the Annotator raises, having written the first four
    fields only. Either way it changes nothing but the attributes it
    writes: the tag, the children and every other attribute (the classes
    among them) are those of the node before. *)
Theorem annotation_overwrites_and_keeps_the_rest
    (first second : MergeRequest) (node : Node) :
  let written := final (setDataAttributesToMergeRequestNode second node) in
  (is_Some (author second) →
   final (setDataAttributesToMergeRequestNode second
            (final (setDataAttributesToMergeRequestNode first node)))
   = written) ∧
  setDataAttributesToMergeRequestNode second node
    = (if author second is Some _ then Normal else Abrupt) written ∧
  tagName written = tagName node ∧
  childNodes written = childNodes node ∧
  ∀ name, name ∉ writtenAttributes second →
          attributes written !! name = attributes node !! name.
Proof.
  intros written. unfold written. split; [|split; [apply setDataAttributes_exit|]].
  - intros Hauthor. rewrite !setDataAttributes_edit. destruct node as [s|t a cs]; [done|].
    cbn [edit]. rewrite !app_nil_r. by rewrite annotate_annotate.
  - rewrite !setDataAttributes_edit. destruct node as [s|t a cs]; [done|].
    cbn [edit tagName childNodes attributes]. rewrite !app_nil_r.
    split; [done|]. split; [done|].
    intros name. apply annotate_other.
Qed.

(** A record without author, written after one with an author, leaves
    the last five fields of the first. *)
Example annotation_without_author :
  let first := sample_record 70 1 "One" "PROJ-42-fix" false in
  let second := {| id := 71; iid := 2; title := "Two"; web_url := "u"; author := None;
                   state := "merged"; source_branch := "other"; target_branch := "main";
                   work_in_progress := true |} in
  let node := sample_item [] "One" "!1" in
  ∃ written,
    setDataAttributesToMergeRequestNode second
      (final (setDataAttributesToMergeRequestNode first node)) = Abrupt written ∧
    dataset_get written "title" = Some "Two" ∧
    dataset_get written "diffsUrl" = Some "u/diffs" ∧
    dataset_get written "authorName" = Some "Ada" ∧
    dataset_get written "sourceBranchName" = Some "PROJ-42-fix" ∧
    dataset_get written "isWip" = Some "false".
Proof. eexists. by vm_compute. Qed.

End AnnotatorAlgebra.

(** ** Removal of the branch path nodes *)

Section RemovalFacts.
Import JsString Dom GitLabApiClient ContentScript.

Lemma qsa_forest_nil sel anc cs : ∀ i,
  qsa_forest sel anc i cs = [] ↔ ∀ c, c ∈ cs → qsa_node sel anc c = [].
Proof.
  induction cs as [|c cs IH]; intros i; simpl.
  - split; [|done]. intros _ c Hc. by apply elem_of_nil in Hc.
  - split.
    + intros [Hc Hrest]%app_eq_nil. apply fmap_nil_inv in Hc.
      intros c' [->|Hin]%elem_of_cons; [done|]. by eapply IH.
    + intros H. rewrite (H c) by (by left). simpl. apply IH.
      intros c' Hc'. apply H. by right.
Qed.

(** Where no descendant is selected, nothing is removed. *)
Lemma remove_matching_none sel n : ∀ anc,
  (∀ t a cs, n = Element t a cs → qsa_forest sel ((t, a) :: anc) 0 cs = []) →
  remove_matching sel anc n = n.
Proof.
  induction n as [s|t a cs IH] using Node_ind'; intros anc Hnone; [done|].
  specialize (Hnone t a cs eq_refl). rewrite qsa_forest_nil in Hnone.
  cbn [remove_matching]. f_equal.
  induction cs as [|c cs IHcs]; [done|].
  inversion_clear IH as [|?? IHc IHrest].
  cbn [omap list_omap].
  assert (qsa_node sel ((t, a) :: anc) c = []) as Hc by (apply Hnone; by left).
  rewrite IHcs; [|done|intros c' Hc'; apply Hnone; by right].
  destruct c as [s|t' a' cs']; [done|].
  rewrite qsa_node_Element in Hc. apply app_eq_nil in Hc as [Hroot Hsub].
  destruct (matches sel ((t, a) :: anc) (t', a')); [done|].
  rewrite IHc; [done|]. intros ??? [= <- <- <-]. done.
Qed.

(** What is left by the removal holds no selected descendant. *)
Lemma remove_matching_forest sel n : ∀ anc t a cs,
  remove_matching sel anc n = Element t a cs →
  qsa_forest sel ((t, a) :: anc) 0 cs = [].
Proof.
  induction n as [s|t0 a0 cs0 IH] using Node_ind'; intros anc t a cs Heq; [done|].
  cbn [remove_matching] in Heq. injection Heq as <- <- <-.
  apply qsa_forest_nil. intros c' (c & Hc & Hc')%list_elem_of_omap.
  rewrite Forall_forall in IH.
  destruct c as [s|t' a' cs']; [by injection Hc' as <-|].
  destruct (matches sel ((t0, a0) :: anc) (t', a')) eqn:Hm; [done|].
  injection Hc' as <-. cbn [remove_matching]. rewrite qsa_node_Element, Hm. simpl.
  by apply (IH _ Hc ((t0, a0) :: anc) t' a').
Qed.

Lemma remove_matching_idemp sel anc n :
  remove_matching sel anc (remove_matching sel anc n) = remove_matching sel anc n.
Proof.
  apply remove_matching_none. intros t a cs Heq. by eapply remove_matching_forest.
Qed.

Lemma matches_removedSelector_root e : matches removedSelector [] e = false.
Proof. unfold matches. simpl. apply andb_false_r. Qed.

(** The removal is idempotent, it leaves no branch path node of a listed
    item behind, and a page that shows none is left as it is. *)
Theorem removeExistingTargetBranchNodes_idempotent (doc : Node) :
  let once := removeExistingTargetBranchNodes doc in
  removeExistingTargetBranchNodes once = once ∧
  querySelectorAll once removedSelector = [] ∧
  (querySelectorAll doc removedSelector = [] → once = doc).
Proof.
  unfold removeExistingTargetBranchNodes, querySelectorAll.
  split; [apply remove_matching_idemp|]. split.
  - destruct (remove_matching removedSelector [] doc) as [s|t a cs] eqn:E; [done|].
    rewrite qsa_node_Element, matches_removedSelector_root. simpl.
    by eapply remove_matching_forest.
  - intros Hnone. apply remove_matching_none. intros t a cs ->.
    rewrite qsa_node_Element in Hnone. by apply app_eq_nil in Hnone as [_ ?].
Qed.

End RemovalFacts.

(** ** What the toggle puts on the wire *)

Section ToggleRequest.
Import JsString Dom GitLabApiClient ContentScript.

(** The title that the toggle asks for, for an item annotated with
    [mergeRequest] *)
Definition toggledTitle (mergeRequest : MergeRequest) : string :=
  if work_in_progress mergeRequest then trim (stripWip (title mergeRequest))
  else "WIP: " +:+ trim (title mergeRequest).

Lemma newTitleFor_annotated mergeRequest node :
  annotated_with mergeRequest node →
  newTitleFor node = Some (toggledTitle mergeRequest).
Proof.
  intros (Ht & _ & _ & _ & _ & _ & _ & _ & Hw). unfold toggledTitle.
  destruct (work_in_progress mergeRequest).
  - by apply newTitleFor_wip.
  - by eapply newTitleFor_not_wip.
Qed.

(** A click on the toggle of an item that holds the annotated state of a
    record, with a CSRF token at hand, issues one request: a [PUT] to
    [projects/<project>/merge_requests/<iid>] on the API base, carrying the
    token and a JSON body made of the project id, the record's iid read
    back as a number, and the new title. *)
Theorem toggle_request_addresses_the_annotated_record
    (this : Script) (doc : Node) (p : path) (node : Node)
    (mergeRequest : MergeRequest) (token : string)
    (outcome : Outcome MergeRequest) :
  csrfToken (apiClient this) = Some token → token ≠ "" →
  get doc p = Some node →
  annotated_with mergeRequest node →
  ∃ req rest,
    t_events (toggleMergeRequestWipStatus this doc p outcome) = Fetch req :: rest ∧
    (∀ other, Fetch other ∉ rest) ∧
    req_method req = "PUT" ∧
    req_base req = baseUrl (apiClient this) ∧
    req_endpoint req =
      "projects/" +:+ currentProjectId this +:+ "/merge_requests/" +:+
      of_N (iid mergeRequest) ∧
    req_query req = [] ∧
    req_headers req =
      <["Content-Type" := "application/json"]> {[ "X-CSRF-Token" := token ]} ∧
    req_body req =
      Some ({[ "title" := JString (toggledTitle mergeRequest) ]} ∪
            {[ "id" := parseInt (currentProjectId this);
               "merge_request_iid" := JNumber (Z.of_N (iid mergeRequest)) ]}).
Proof.
  intros Htoken Hne Hget Hann.
  pose proof (newTitleFor_annotated _ _ Hann) as Hnew.
  destruct Hann as (_ & Hiid & _).
  unfold toggleMergeRequestWipStatus. rewrite Hget. simpl. rewrite Hnew. simpl.
  rewrite Hiid. cbn [default].
  unfold updateProjectMergeRequest, sendRequest.
  rewrite PUT_is_a_write, Htoken. cbn [truthy andb negb default].
  rewrite bool_decide_eq_false_2 by done. cbn [negb].
  unfold Datatypes.id. rewrite parseInt_of_N.
  eexists. 
  destruct outcome as [responseData|].
  - cbn zeta.
    destruct (querySelector_at _ p titleLinkSelector); cbn [t_events];
      (exists []; split; [reflexivity|]; split; [intros ? []%elem_of_nil|done]).
  - cbn [t_events on_settled app]. eexists. split; [reflexivity|].
    split; [|done]. intros other Hin.
    apply elem_of_cons in Hin as [Hin|Hin]; [done|].
    apply list_elem_of_singleton in Hin. done.
Qed.

End ToggleRequest.

Section ToggleRequestWitness.
Import JsString Dom GitLabApiClient ContentScript.

Lemma toggle_request_addresses_the_annotated_record_witness :
  let this := sample_script (Some "tok") false in
  let mergeRequest := sample_record 70 1 "Fix it" "PROJ-42-fix" false in
  let doc := sample_page "mr-list"
               [final (setDataAttributesToMergeRequestNode mergeRequest
                         (sample_item [] "Fix it" "!1"))] in
  ∃ req rest,
    t_events (toggleMergeRequestWipStatus this doc [0; 0; 0] Rejected) = Fetch req :: rest ∧
    (∀ other, Fetch other ∉ rest) ∧
    req_method req = "PUT" ∧
    req_base req = baseUrl (apiClient this) ∧
    req_endpoint req =
      "projects/" +:+ currentProjectId this +:+ "/merge_requests/" +:+
      of_N (iid mergeRequest) ∧
    req_query req = [] ∧
    req_headers req =
      <["Content-Type" := "application/json"]> {[ "X-CSRF-Token" := "tok" ]} ∧
    req_body req =
      Some ({[ "title" := JString (toggledTitle mergeRequest) ]} ∪
            {[ "id" := parseInt (currentProjectId this);
               "merge_request_iid" := JNumber (Z.of_N (iid mergeRequest)) ]}).
Proof.
  intros this mergeRequest doc.
  apply (toggle_request_addresses_the_annotated_record this doc [0; 0; 0]
           (final (setDataAttributesToMergeRequestNode mergeRequest
                     (sample_item [] "Fix it" "!1"))) mergeRequest "tok" Rejected);
    [reflexivity|done|reflexivity|].
  apply (setDataAttributes_annotates mergeRequest). by eexists.
Defined.

End ToggleRequestWitness.

(** ** From the references shown to the ids requested *)

Section IdentityRoundTrip.
Import JsString Dom GitLabApiClient ContentScript.

Definition blank (s : string) : Prop :=
  Forall (λ c, Ascii.is_space c = true) (chars s).

Lemma strip_blank_app back l1 l2 :
  Forall (λ c, Ascii.is_space c = true) l1 → strip back (l1 ++ l2) = strip back l2.
Proof.
  induction 1 as [|c l1 Hc _ IH]; [done|]. rewrite <- IH, <- whiteSpace_single in *.
  destruct back; [exact (strip_word true [c] (l1 ++ l2) Hc)|
                  exact (strip_word false [c] (l1 ++ l2) Hc)].
Qed.

Lemma trim_l_padded pad1 c core d pad2 :
  Forall (λ c, Ascii.is_space c = true) pad1 →
  Forall (λ c, Ascii.is_space c = true) pad2 →
  plain c → plain d →
  trim_l (pad1 ++ (c :: core ++ [d]) ++ pad2) = c :: core ++ [d].
Proof.
  intros H1 H2 Hc Hd. unfold trim_l, ltrim.
  rewrite strip_blank_app by done. simpl app.
  rewrite (strip_stop false) by (by apply ws_len_plain).
  rewrite reverse_cons, !reverse_app, reverse_singleton, <- !app_assoc.
  rewrite strip_blank_app by (by apply Forall_reverse).
  simpl app. rewrite (strip_stop true) by (by apply ws_len_plain).
  rewrite reverse_cons, reverse_app, reverse_involutive. done.
Qed.

(** The id read from a reference text [!n], whatever blanks surround it *)
Lemma reference_id n pad1 pad2 :
  blank pad1 → blank pad2 →
  JsString.replace (trim (pad1 +:+ ("!" +:+ of_N n) +:+ pad2)) "!" "" = of_N n.
Proof.
  intros H1 H2. destruct (of_N_digits n) as (ds & Heq & Hne & Hall & _).
  destruct (exists_last Hne) as (core & d & ->).
  apply Forall_app in Hall as [_ Hd]. inversion_clear Hd as [|?? Hd' _].
  unfold trim. rewrite !chars_app, Heq.
  change (chars "!") with ["!"%char].
  assert (trim_l (chars pad1 ++ (["!"%char] ++ core ++ [d]) ++ chars pad2)
          = "!"%char :: core ++ [d]) as ->.
  { apply (trim_l_padded (chars pad1) "!"%char core d (chars pad2));
      done || (by apply digit_char_plain) || (by split; vm_compute). }
  unfold JsString.replace. rewrite chars_of_chars.
  change (chars "!") with ["!"%char]. change (chars "") with (@nil ascii).
  simpl. rewrite drop_0. rewrite <- Heq. apply of_chars_chars.
Qed.

(** The element at [p] shows the reference of merge request [n]. *)
Definition shows (doc : Node) (p : path) (n : N) : Prop :=
  ∃ el pad1 pad2, get doc p = Some el ∧ blank pad1 ∧ blank pad2 ∧
                  textContent el = pad1 +:+ ("!" +:+ of_N n) +:+ pad2.

(** When the reference elements of the page (those of the first selector
    that finds any) show [!n1], [!n2], ..., blanks around them apart, the
    ids extracted are the decimal strings [n1], [n2], ..., in document
    order, one per element. *)
Theorem shown_references_are_the_ids_extracted (doc : Node) (numbers : list N) :
  Forall2 (shows doc) (firstNonEmpty doc referenceSelectors) numbers →
  getCurrentMergeRequestIds doc = of_N <$> numbers.
Proof.
  unfold getCurrentMergeRequestIds.
  induction 1 as [|p n ps ns (el & pad1 & pad2 & Hget & H1 & H2 & Htext) _ IH];
    [done|].
  cbn [omap list_omap fmap list_fmap]. rewrite Hget. cbn [fmap option_fmap option_map].
  rewrite Htext, reference_id by done. f_equal. exact IH.
Qed.

Lemma shown_references_are_the_ids_extracted_witness :
  let doc := sample_page "mr-list"
               [sample_item [] "One" " !7 "; sample_item [] "Two" "!12"] in
  Forall2 (shows doc) (firstNonEmpty doc referenceSelectors) [7%N; 12%N] ∧
  getCurrentMergeRequestIds doc = of_N <$> [7%N; 12%N].
Proof.
  intros doc.
  assert (Forall2 (shows doc) (firstNonEmpty doc referenceSelectors) [7%N; 12%N]) as H.
  { let found := eval vm_compute in (firstNonEmpty doc referenceSelectors) in
    change (firstNonEmpty doc referenceSelectors) with found.
    constructor; [|constructor; [|constructor]].
    - exists (elem "span" [("class", "issuable-reference")] [Text " !7 "]), " ", " ".
      split; [reflexivity|]. split; [by repeat constructor|].
      split; [by repeat constructor|reflexivity].
    - exists (elem "span" [("class", "issuable-reference")] [Text "!12"]), "", "".
      split; [reflexivity|]. split; [by repeat constructor|].
      split; [by repeat constructor|reflexivity]. }
  split; [exact H|].
  exact (shown_references_are_the_ids_extracted doc [7%N; 12%N] H).
Defined.

End IdentityRoundTrip.

(** ** From the ticket id found to the ticket URL *)

Section TicketLink.
Import JsString JsRegExp Jira ContentScript.
Context `{Api : UrlApi} `{!UrlLaws}.

Lemma is_ticket_id_plain t : is_ticket_id (chars t) → plain_segment t.
Proof.
  intros (letters & digits & Heq & _ & Hl & _ & Hd).
  unfold plain_segment. rewrite Heq. apply Forall_app. split.
  - eapply Forall_impl; [exact Hl|]. intros c Hc. unfold upper in Hc.
    unfold segment_char. by rewrite Hc.
  - constructor; [done|].
    eapply Forall_impl; [exact Hd|]. intros c Hc. unfold digit in Hc.
    unfold segment_char. rewrite Hc. by rewrite !orb_true_r.
Qed.

Lemma findFirstJiraTicketId_is_ticket_id mergeRequest t :
  findFirstJiraTicketId mergeRequest = Some t → is_ticket_id (chars t).
Proof.
  unfold findFirstJiraTicketId.
  destruct (exec jiraTicketIdRegex (source_branch mergeRequest)) as [t1|] eqn:Hb.
  - intros [= <-]. by apply exec_jira_Some in Hb as [? _].
  - destruct (exec jiraTicketIdRegex (title mergeRequest)) as [t2|] eqn:Ht; [|done].
    intros [= <-]. by apply exec_jira_Some in Ht as [? _].
Qed.

(** The URL object built for a ticket id of plain characters *)
Lemma jiraTicketUrlObject_path this jiraTicketId base :
  new_URL (base_jira_url (preferences this)) = Some base →
  web_url_scheme base → plain_segment jiraTicketId →
  ∃ ticketUrl,
    jiraTicketUrlObject this jiraTicketId = Some ticketUrl ∧
    url_pathname ticketUrl =
      with_trailing_slash (url_pathname base) +:+ ("browse/" +:+ jiraTicketId) ∧
    url_protocol ticketUrl = url_protocol base ∧
    url_host ticketUrl = url_host base.
Proof.
  intros Hparse Hscheme Hid. unfold jiraTicketUrlObject. rewrite Hparse. simpl.
  destruct (endsWith (url_pathname base) "/") eqn:Hends; simpl.
  - eexists. split; [done|]. rewrite set_pathname_protocol, set_pathname_host.
    split; [|done].
    change ("browse/" +:+ jiraTicketId) with ("browse" +:+ ("/" +:+ jiraTicketId)).
    rewrite set_pathname_segments; [|done|done|by repeat constructor|done].
    unfold with_trailing_slash. by rewrite Hends.
  - eexists. split; [done|]. rewrite !set_pathname_protocol, !set_pathname_host.
    split; [|done].
    change ("browse/" +:+ jiraTicketId) with ("browse" +:+ ("/" +:+ jiraTicketId)).
    rewrite set_pathname_segments.
    + rewrite set_pathname_slash by done. unfold with_trailing_slash. by rewrite Hends.
    + unfold web_url_scheme. by rewrite set_pathname_protocol.
    + rewrite set_pathname_slash by done. apply endsWith_slash_appended.
    + by repeat constructor.
    + done.
Qed.

(** Every ticket id that the script finds in a record is one that the
    ticket URL builder takes as written: with an [http(s)] base URL it is
    the last path segment of the ticket URL, after the base path and
    [browse/], on the host of the base URL. *)
Theorem ticket_found_has_ticket_url
    (this : Script) (mergeRequest : MergeRequest) (jiraTicketId : string) (base : URL) :
  findFirstJiraTicketId mergeRequest = Some jiraTicketId →
  new_URL (base_jira_url (preferences this)) = Some base →
  web_url_scheme base →
  ∃ ticketUrl,
    createJiraTicketUrl this jiraTicketId = Some (url_toString ticketUrl) ∧
    url_pathname ticketUrl =
      with_trailing_slash (url_pathname base) +:+ ("browse/" +:+ jiraTicketId) ∧
    url_protocol ticketUrl = url_protocol base ∧
    url_host ticketUrl = url_host base.
Proof.
  intros Hfound Hparse Hscheme.
  apply findFirstJiraTicketId_is_ticket_id, is_ticket_id_plain in Hfound.
  destruct (jiraTicketUrlObject_path this jiraTicketId base)
    as (ticketUrl & Hobj & Hpath & Hp & Hh); [done..|].
  exists ticketUrl. unfold createJiraTicketUrl. by rewrite Hobj.
Qed.

End TicketLink.

Section TicketLinkWitness.
Import JsString Jira ContentScript.

Lemma ticket_found_has_ticket_url_witness :
  ∃ ticketUrl : SimpleUrl,
    @createJiraTicketUrl simple_url_api (sample_script None true) "PROJ-42"
      = Some (@url_toString simple_url_api ticketUrl) ∧
    su_pathname ticketUrl = with_trailing_slash "/" +:+ ("browse/" +:+ "PROJ-42") ∧
    su_protocol ticketUrl = "https:" ∧
    su_host ticketUrl = "jira.example.com".
Proof.
  apply (@ticket_found_has_ticket_url simple_url_api simple_url_laws
           (sample_script None true) ticket_example "PROJ-42"
           {| su_protocol := "https:"; su_host := "jira.example.com";
              su_pathname := "/" |});
    [reflexivity|reflexivity|right; left].
Defined.

End TicketLinkWitness.

(** ** The fetch of the details *)

Section FetchFacts.
Import JsString Dom GitLabApiClient ContentScript.
Context `{Parser : DomParser}.

(** The request for the details of the merge requests shown *)
Definition detailsRequest (this : Script) (mergeRequestIds : list string) : Request :=
  {| req_method := "GET";
     req_base := baseUrl (apiClient this);
     req_endpoint := "projects/" +:+ currentProjectId this +:+ "/merge_requests";
     req_query := (λ mergeRequestId, ("iids[]", mergeRequestId)) <$> mergeRequestIds;
     req_headers := ∅;
     req_body := None |}.

(** The console error of the [catch] callback *)
Definition fetchErrorLog : Event :=
  ConsoleError "❌ GitLab MR Enhancer: Error fetching MR details:" [].

(** The callback of the pass returns on a record that has an author. *)
Lemma updateMergeRequestNode_returns this st mergeRequest :
  is_Some (author mergeRequest) →
  ∃ st', updateMergeRequestNode this st mergeRequest = Normal st'.
Proof.
  intros Hwho. destruct st as [doc events].
  destruct (findMergeRequestNode doc (nodeSelectors mergeRequest)) as [p|] eqn:Hfind.
  - by apply (record_is_resolved_with_author _ _ _ _ p).
  - rewrite (updateMergeRequestNode_not_found _ _ _ _ Hfind). eauto.
Qed.

Lemma forEach_updateMergeRequestNode_returns this : ∀ mergeRequests st,
  Forall (λ mergeRequest, is_Some (author mergeRequest)) mergeRequests →
  forEach (updateMergeRequestNode this) st mergeRequests
  = Normal (final (forEach (updateMergeRequestNode this) st mergeRequests)).
Proof.
  induction mergeRequests as [|r rs IH]; intros st Hall; [done|].
  apply Forall_cons in Hall as [Hr Hrs]. cbn [forEach].
  destruct (updateMergeRequestNode_returns this st r Hr) as [st' ->]. by apply IH.
Qed.

(** The details are asked for with one [GET] that carries neither a token
    nor a body, whether or not a CSRF token is at hand. When the request
    fails the page is left as it was, and the user gets the client's
    console error and alert followed by the script's own console error.
    When it succeeds the page is the one left by the reconciliation pass
    over the records received, up to the point where the pass stops; a
    pass that raises is followed by the console error of the [catch]
    callback, a pass that returns by nothing; and a pass over records
    that all have an author returns. *)
Theorem details_request_and_its_outcomes
    (this : Script) (doc : Node) (mergeRequestIds : list string) :
  fetchMergeRequestsDetailsThenUpdateUI this doc mergeRequestIds Rejected
  = (doc, [Fetch (detailsRequest this mergeRequestIds);
           ConsoleError "Got error from GitLab:" [];
           Alert "Got error from GitLab, check console for more information.";
           fetchErrorLog]) ∧
  ∀ responseData,
    let pass := onMergeRequestsFetched this doc responseData in
    fetchMergeRequestsDetailsThenUpdateUI this doc mergeRequestIds (Fulfilled responseData)
    = ((final pass).1,
       Fetch (detailsRequest this mergeRequestIds) :: (final pass).2 ++
       (if pass is Normal _ then [] else [fetchErrorLog])) ∧
    (Forall (λ mergeRequest, is_Some (author mergeRequest)) responseData →
     pass = Normal (final pass)).
Proof.
  unfold fetchMergeRequestsDetailsThenUpdateUI, getProjectMergeRequests, sendRequest.
  assert (bool_decide (toLowerCase "GET" ∈ ["post"; "put"; "patch"]) = false) as ->
    by (by vm_compute).
  cbn [andb fst snd default]. split; [done|]. intros responseData. split.
  - destruct (onMergeRequestsFetched this doc responseData)
      as [[doc' events]|[doc' events]]; cbn [final fst snd app].
    + by rewrite app_nil_r.
    + done.
  - intros Hall. unfold onMergeRequestsFetched, updateMergeRequestsNodes.
    by apply forEach_updateMergeRequestNode_returns.
Qed.

End FetchFacts.

Section FetchExamples.
Import JsString Dom GitLabApiClient ContentScript.
#[local] Existing Instance simple_dom_parser.

(** A record without author ends the pass: the item it resolves to holds
    its first four fields, the record after it is not processed, and the
    [catch] callback logs the error. *)
Example pass_raises_on_record_without_author :
  let this := sample_script None false in
  let doc := sample_page "mr-list" [sample_item [] "One" "!1"; sample_item [] "Two" "!2"] in
  let first := {| id := 70; iid := 1; title := "One"; web_url := "u"; author := None;
                  state := "opened"; source_branch := "one"; target_branch := "main";
                  work_in_progress := false |} in
  let second := sample_record 71 2 "Two" "two" false in
  let result :=
    fetchMergeRequestsDetailsThenUpdateUI this doc ["1"; "2"] (Fulfilled [first; second]) in
  result.2 = [Fetch (detailsRequest this ["1"; "2"]); fetchErrorLog] ∧
  (get result.1 [0; 0; 0] ≫= λ node, dataset_get node "diffsUrl") = Some "u/diffs" ∧
  (get result.1 [0; 0; 0] ≫= λ node, dataset_get node "authorName") = None ∧
  (get result.1 [0; 0; 1] ≫= λ node, dataset_get node "title") = None.
Proof. by vm_compute. Qed.

End FetchExamples.

(** ** The poller and the references it sees *)

Section PollerIdentityFacts.
Import JsString Dom GitLabApiClient ContentScript.

Lemma firstNonEmpty_valid doc selectors p :
  p ∈ firstNonEmpty doc selectors → ∃ t a cs, get doc p = Some (Element t a cs).
Proof.
  induction selectors as [|sel selectors IH]; simpl; [by intros ?%elem_of_nil|].
  destruct (querySelectorAll doc sel) as [|q qs] eqn:E; [done|].
  rewrite <- E. intros (anc & t & a & cs & Hl & _)%elem_of_querySelectorAll.
  exists t, a, cs. unfold get. by rewrite Hl.
Qed.

Lemma length_getCurrentMergeRequestIds doc :
  length (getCurrentMergeRequestIds doc) = length (firstNonEmpty doc referenceSelectors).
Proof.
  unfold getCurrentMergeRequestIds.
  pose proof (firstNonEmpty_valid doc referenceSelectors) as Hvalid.
  induction (firstNonEmpty doc referenceSelectors) as [|p ps IH]; [done|].
  cbn [omap list_omap]. destruct (Hvalid p) as (t & a & cs & ->); [by left|].
  simpl. f_equal. apply IH. intros q Hq. apply Hvalid. by right.
Qed.

(** The poller never asks for the details of no merge request: when it
    ends in [Found], the ids are as many as the reference elements that
    the attempt saw, at least one, and the request carries one [iids[]]
    parameter for each. *)
Theorem poller_fetches_one_id_per_reference (this : Script) (docAt : nat → Node)
    (attempt : nat) (ids : list string) :
  (waitForMergeRequestsAndProcess this docAt).1 = Found attempt ids →
  ids ≠ [] ∧
  length ids = length (firstNonEmpty (docAt attempt) referenceSelectors) ∧
  ∃ req, last (waitForMergeRequestsAndProcess this docAt).2 = Some (Fetch req) ∧
         req_query req = (λ i, ("iids[]", i)) <$> ids.
Proof.
  intros Hfound. unfold waitForMergeRequestsAndProcess in *.
  destruct (checkForMergeRequests_run this docAt 0) as (retries & lastEvent & _ & Hev & Hout);
    [unfold maxAttempts; lia|].
  rewrite Hfound in Hout. destruct Hout as (_ & Hsaw & _ & -> & req & -> & _ & Hq).
  rewrite length_getCurrentMergeRequestIds. split; [|split; [done|]].
  - intros Hnil. apply (f_equal length) in Hnil.
    rewrite length_getCurrentMergeRequestIds in Hnil.
    apply Hsaw. by apply nil_length_inv.
  - exists req. rewrite Hev, last_snoc. done.
Qed.

Lemma poller_fetches_one_id_per_reference_witness :
  let this := sample_script None true in
  let docAt := λ k : nat,
    if bool_decide (k < 3) then sample_page "mr-list" []
    else sample_page "mr-list" [sample_item [] "One" "!1"; sample_item [] "Two" "!2"] in
  ["1"; "2"] ≠ [] ∧
  length ["1"; "2"] = length (firstNonEmpty (docAt 3) referenceSelectors) ∧
  ∃ req, last (waitForMergeRequestsAndProcess this docAt).2 = Some (Fetch req) ∧
         req_query req = (λ i, ("iids[]", i)) <$> ["1"; "2"].
Proof.
  intros this docAt.
  apply (poller_fetches_one_id_per_reference this docAt 3 ["1"; "2"]).
  by vm_compute.
Defined.

End PollerIdentityFacts.

(** ** The toggle and the title shown *)

Section ToggleTitleFacts.
Import JsString Dom GitLabApiClient ContentScript.

Lemma textContent_set_textContent s t a cs :
  textContent (set_textContent s (Element t a cs)) = s.
Proof.
  simpl. unfold text_nodes. destruct (decide (s = "")) as [->|]; [done|].
  simpl. unfold concat_strings. simpl.
  apply chars_inj. by rewrite chars_app, app_nil_r.
Qed.

(** A toggle whose write succeeds stores the title and the flag of the
    response in the item and, when the item has a title link, makes the
    text of the first one the title of the response. When the item has no
    title link the state is stored all the same, the handler raises after
    that, and the button is enabled again. *)
Theorem toggle_success_shows_the_title_of_the_response
    (this : Script) (doc : Node) (mergeRequestNode : path) (node : Node)
    (sent : string) (responseData : MergeRequest) :
  truthy (csrfToken (apiClient this)) = true →
  get doc mergeRequestNode = Some node →
  newTitleFor node = Some sent →
  let clicked := toggleMergeRequestWipStatus this doc mergeRequestNode
                   (Fulfilled responseData) in
  let stored :=
    update (λ n, dataset_set "title" (title responseData)
                   (dataset_set "isWip" (of_bool (work_in_progress responseData)) n))
      mergeRequestNode doc in
  t_disabled clicked = false ∧ t_thrown clicked = false ∧
  (∃ node', get (t_doc clicked) mergeRequestNode = Some node' ∧
            dataset_get node' "title" = Some (title responseData) ∧
            dataset_get node' "isWip" = Some (of_bool (work_in_progress responseData))) ∧
  match querySelector_at stored mergeRequestNode titleLinkSelector with
  | Some titleLink =>
      t_handler_threw clicked = false ∧
      t_doc clicked = update (set_textContent (title responseData)) titleLink stored ∧
      textContent <$> get (t_doc clicked) titleLink = Some (title responseData)
  | None => t_handler_threw clicked = true ∧ t_doc clicked = stored
  end.
Proof.
  intros Htoken Hget Hnew clicked stored.
  destruct (toggle_fulfilled_dataset this doc mergeRequestNode node sent responseData
              Htoken Hget Hnew) as (Hdis & Hstate).
  fold clicked in Hdis, Hstate.
  destruct (toggle_issued this doc mergeRequestNode node sent (Fulfilled responseData)
              Htoken Hget Hnew) as (req & _ & _ & Heq).
  fold clicked in Heq. cbn zeta in Heq. fold stored in Heq.
  split; [done|].
  destruct (querySelector_at stored mergeRequestNode titleLinkSelector) as [q|] eqn:Hq.
  - rewrite Heq. cbn [t_thrown t_doc t_handler_threw]. split; [done|].
    rewrite Heq in Hstate. cbn [t_doc] in Hstate. split; [done|].
    split; [done|]. split; [done|].
    apply querySelector_at_Element in Hq as (t & a & cs & Hg).
    rewrite get_update_same, Hg. simpl. f_equal.
    apply (textContent_set_textContent _ t a cs).
  - rewrite Heq. cbn [t_thrown t_doc t_handler_threw]. split; [done|].
    rewrite Heq in Hstate. cbn [t_doc] in Hstate. by split.
Qed.

Lemma toggle_success_shows_the_title_of_the_response_witness :
  let this := sample_script (Some "tok") false in
  let doc := annotated_page "Fix it" "false" in
  let responseData := sample_record 70 1 "WIP: Fix it" "PROJ-42-fix" true in
  let clicked := toggleMergeRequestWipStatus this doc [0; 0; 0] (Fulfilled responseData) in
  let stored :=
    update (λ n, dataset_set "title" (title responseData)
                   (dataset_set "isWip" (of_bool (work_in_progress responseData)) n))
      [0; 0; 0] doc in
  t_disabled clicked = false ∧ t_thrown clicked = false ∧
  (∃ node', get (t_doc clicked) [0; 0; 0] = Some node' ∧
            dataset_get node' "title" = Some (title responseData) ∧
            dataset_get node' "isWip" = Some (of_bool (work_in_progress responseData))) ∧
  match querySelector_at stored [0; 0; 0] titleLinkSelector with
  | Some titleLink =>
      t_handler_threw clicked = false ∧
      t_doc clicked = update (set_textContent (title responseData)) titleLink stored ∧
      textContent <$> get (t_doc clicked) titleLink = Some (title responseData)
  | None => t_handler_threw clicked = true ∧ t_doc clicked = stored
  end.
Proof.
  apply (toggle_success_shows_the_title_of_the_response
           (sample_script (Some "tok") false) (annotated_page "Fix it" "false") [0; 0; 0]
           (sample_item [("data-title", "Fix it"); ("data-iid", "1");
                         ("data-is-wip", "false")] "Fix it" "!1")
           "WIP: Fix it" (sample_record 70 1 "WIP: Fix it" "PROJ-42-fix" true));
    reflexivity.
Defined.

End ToggleTitleFacts.

(** ** What a pass leaves alone *)

Section FrameFacts.
Import JsString Dom GitLabApiClient ContentScript.

(** The document without the nine annotated attributes *)
Fixpoint withoutAnnotations (n : Node) : Node :=
  match n with
  | Text _ => n
  | Element t a cs =>
      Element t (filter (λ kv, kv.1 ∉ annotatedAttributes) a) (withoutAnnotations <$> cs)
  end.

Lemma withoutAnnotations_update f p : ∀ doc,
  (∀ n, withoutAnnotations (f n) = withoutAnnotations n) →
  withoutAnnotations (update f p doc) = withoutAnnotations doc.
Proof.
  induction p as [|i p IH]; intros doc Hf; [apply Hf|].
  destruct doc as [s|t a cs]; [done|]. cbn [update withoutAnnotations]. f_equal.
  revert i. induction cs as [|c cs IHcs]; intros i; [done|].
  destruct i as [|i]; simpl.
  - by rewrite IH.
  - f_equal. apply IHcs.
Qed.

Lemma withoutAnnotations_setDataAttributes mergeRequest n :
  withoutAnnotations (final (setDataAttributesToMergeRequestNode mergeRequest n))
  = withoutAnnotations n.
Proof.
  destruct n as [s|t a cs]; unfold setDataAttributesToMergeRequestNode;
    destruct (author mergeRequest); cbn [final]; [done|done| |];
    rewrite !dataset_set_Element; cbn [withoutAnnotations]; f_equal;
    repeat (rewrite map_filter_insert_not;
            [|intros y Hy; apply Hy; apply (bool_decide_unpack _); by vm_compute]);
    done.
Qed.

Section Frame.
Context `{Parser : DomParser}.

(** With the branch display disabled, a reconciliation pass writes
    nothing but the nine annotated attributes: tags, texts, the order
    and number of nodes, and every other attribute are those of the page
    before the pass; and the only events are diagnostics for records
    that resolve to no element. This holds for the state that the pass
    leaves whether it returns or raises. *)
Theorem pass_without_branch_display_only_annotates
    (this : Script) (doc : Node) (mergeRequests : list MergeRequest) :
  display_source_and_target_branches (preferences this) = false →
  withoutAnnotations (final (onMergeRequestsFetched this doc mergeRequests)).1
    = withoutAnnotations doc ∧
  Forall (λ event, ∃ mergeRequest, mergeRequest ∈ mergeRequests ∧
                                   event = unresolvedDiagnostic mergeRequest)
    (final (onMergeRequestsFetched this doc mergeRequests)).2.
Proof.
  intros Hoff. unfold onMergeRequestsFetched, updateMergeRequestsNodes. rewrite Hoff.
  assert (∀ records st,
            withoutAnnotations
              (final (forEach (updateMergeRequestNode this) st records)).1
              = withoutAnnotations st.1 ∧
            (Forall (λ event, ∃ mergeRequest, mergeRequest ∈ mergeRequests ∧
                                              event = unresolvedDiagnostic mergeRequest) st.2 →
             (∀ r, r ∈ records → r ∈ mergeRequests) →
             Forall (λ event, ∃ mergeRequest, mergeRequest ∈ mergeRequests ∧
                                              event = unresolvedDiagnostic mergeRequest)
               (final (forEach (updateMergeRequestNode this) st records)).2)) as Hgen.
  { induction records as [|r records IH]; intros [d events]; [done|].
    cbn [forEach].
    destruct (findMergeRequestNode d (nodeSelectors r)) as [p|] eqn:Hfind.
    - rewrite (updateMergeRequestNode_found _ _ _ _ _ Hfind). cbn zeta. rewrite Hoff.
      assert (withoutAnnotations (annotated_at r p d) = withoutAnnotations d) as Hframe.
      { unfold annotated_at. apply withoutAnnotations_update.
        apply withoutAnnotations_setDataAttributes. }
      destruct (author r).
      + destruct (IH (annotated_at r p d, events)) as [Hdoc Hev]. cbn [fst snd] in *.
        split; [by rewrite Hdoc|].
        intros Hevents Hin. apply Hev; [done|]. intros r' Hr'. apply Hin. by right.
      + cbn [final fst snd]. split; [done|]. by intros Hevents _.
    - rewrite (updateMergeRequestNode_not_found _ _ _ _ Hfind).
      destruct (IH (d, events ++ [unresolvedDiagnostic r])) as [Hdoc Hev].
      cbn [fst snd] in *. split; [done|].
      intros Hevents Hin. apply Hev; [|intros r' Hr'; apply Hin; by right].
      apply Forall_app. split; [done|]. constructor; [|done].
      exists r. split; [apply Hin; by left|done]. }
  destruct (Hgen mergeRequests (doc, [])) as [Hdoc Hev]. split; [done|].
  apply Hev; [constructor|done].
Qed.

End Frame.

Lemma pass_without_branch_display_only_annotates_witness :
  let this := sample_script None false in
  let doc := sample_page "mr-list" [sample_item [] "One" "!1"] in
  let mergeRequests := [sample_record 70 1 "One" "PROJ-42-fix" false] in
  withoutAnnotations
    (final (@onMergeRequestsFetched simple_dom_parser this doc mergeRequests)).1
    = withoutAnnotations doc ∧
  Forall (λ event, ∃ mergeRequest, mergeRequest ∈ mergeRequests ∧
                                   event = unresolvedDiagnostic mergeRequest)
    (final (@onMergeRequestsFetched simple_dom_parser this doc mergeRequests)).2.
Proof.
  apply (@pass_without_branch_display_only_annotates simple_dom_parser
           (sample_script None false)
           (sample_page "mr-list" [sample_item [] "One" "!1"])
           [sample_record 70 1 "One" "PROJ-42-fix" false]).
  reflexivity.
Defined.

End FrameFacts.

(** ** Pages without list items *)

Section NewMarkupFacts.
Import JsString Dom GitLabApiClient ContentScript.

(** The ancestors under which a node is located are elements of the
    document, those given at the start apart. *)
Lemma locate_ancestors p : ∀ anc0 n anc x e,
  locate anc0 n p = Some (anc, x) → e ∈ anc →
  e ∈ anc0 ∨ ∃ q t a cs, get n q = Some (Element t a cs) ∧ e = (t, a).
Proof.
  induction p as [|i p IH]; intros anc0 n anc x e Hl He.
  - injection Hl as <- _. by left.
  - destruct n as [s|t a cs]; [done|]. simpl in Hl.
    destruct (cs !! i) as [c|] eqn:Hc; [|done]. simpl in Hl.
    destruct (IH _ _ _ _ e Hl He) as [[->|Hin]%elem_of_cons|(q & t' & a' & cs' & Hg & ->)].
    + right. by exists [], t, a, cs.
    + by left.
    + right. exists (i :: q), t', a', cs'. split; [|done]. by rewrite get_cons, Hc.
Qed.

Lemma matches_ancestors_innermost c cs anc :
  matches_ancestors (c :: cs) anc = true → ∃ e, e ∈ anc ∧ matches_compound c e = true.
Proof.
  induction anc as [|e anc IH]; [done|]. rewrite matches_ancestors_cons.
  destruct (matches_compound c e) eqn:E.
  - intros _. exists e. split; [by left|done].
  - intros (x & Hx & Hm)%IH. exists x. split; [by right|done].
Qed.

(** Without list items there is no branch path node to remove. *)
Lemma removeExisting_without_items doc :
  querySelectorAll doc [cls "merge-request"] = [] →
  removeExistingTargetBranchNodes doc = doc.
Proof.
  intros Hnone.
  assert (querySelectorAll doc removedSelector = []) as Hremoved.
  { destruct (querySelectorAll doc removedSelector) as [|q qs] eqn:E; [done|]. exfalso.
    assert (q ∈ querySelectorAll doc removedSelector) as Hq by (rewrite E; by left).
    apply elem_of_querySelectorAll in Hq as (anc & t & a & cs & Hl & Hm).
    rewrite matches_removedSelector in Hm. apply andb_true_iff in Hm as [_ Hanc].
    apply matches_ancestors_innermost in Hanc as (e & He & Hitem).
    destruct (locate_ancestors _ _ _ _ _ e Hl He) as [Hin|(p & t' & a' & cs' & Hg & ->)];
      [by apply elem_of_nil in Hin|].
    assert (item doc p) as Hp%item_querySelectorAll.
    { exists t', a', cs'. split; [done|]. rewrite matches_item in Hitem.
      by apply bool_decide_eq_true in Hitem. }
    rewrite Hnone in Hp. by apply elem_of_nil in Hp. }
  unfold removeExistingTargetBranchNodes. apply remove_matching_none.
  intros t a cs ->. unfold querySelectorAll in Hremoved.
  rewrite qsa_node_Element in Hremoved. by apply app_eq_nil in Hremoved as [_ ?].
Qed.

Section WithoutItems.
Context `{Parser : DomParser}.

Lemma updateMergeRequestsNodes_without_items this doc : ∀ mergeRequests events,
  querySelectorAll doc [cls "merge-request"] = [] →
  forEach (updateMergeRequestNode this) (doc, events) mergeRequests
  = Normal (doc, events ++ (unresolvedDiagnostic <$> mergeRequests)).
Proof.
  intros mergeRequests events Hnone. revert events.
  induction mergeRequests as [|r rs IH]; intros events; cbn [forEach fmap list_fmap].
  - by rewrite app_nil_r.
  - rewrite (updateMergeRequestNode_not_found _ _ _ _
               (proj2 (findMergeRequestNode_None doc r) Hnone)).
    rewrite IH, <- app_assoc. done.
Qed.

(** On a page without any [.merge-request] element the details that
    were fetched are dropped: the page is left as it was, whatever the
    preferences, and each record received is reported as not found, in
    the order of the response. The poller does start the fetch on such
    pages, since it also takes references inside
    [[data-testid="merge-request-item"]] and [.gl-list-item] elements. *)
Theorem page_without_list_items_is_fetched_but_not_annotated
    (this : Script) (doc : Node) (mergeRequestIds : list string)
    (responseData : list MergeRequest) :
  querySelectorAll doc [cls "merge-request"] = [] →
  fetchMergeRequestsDetailsThenUpdateUI this doc mergeRequestIds (Fulfilled responseData)
  = (doc, Fetch (detailsRequest this mergeRequestIds) ::
          (unresolvedDiagnostic <$> responseData)).
Proof.
  intros Hnone.
  unfold fetchMergeRequestsDetailsThenUpdateUI, getProjectMergeRequests, sendRequest.
  assert (bool_decide (toLowerCase "GET" ∈ ["post"; "put"; "patch"]) = false) as ->
    by (by vm_compute).
  cbn [andb fst snd default].
  unfold onMergeRequestsFetched, updateMergeRequestsNodes.
  assert ((if display_source_and_target_branches (preferences this)
           then removeExistingTargetBranchNodes doc else doc) = doc) as ->.
  { destruct (display_source_and_target_branches (preferences this)); [|done].
    by apply removeExisting_without_items. }
  by rewrite updateMergeRequestsNodes_without_items.
Qed.

End WithoutItems.

(** A page in the newer markup: references inside [.gl-list-item]
    elements, no [.merge-request] element *)
Definition newer_page : Node :=
  elem "html" []
    [ elem "body" []
        [ elem "ul" []
            [ elem "li" [("class", "gl-list-item")]
                [ elem "div" [("class", "issuable-main-info")]
                    [ elem "span" [("class", "issuable-reference")] [Text "!1"] ] ] ] ] ].

Example poller_takes_newer_page_for_ready :
  waitForMergeRequestsAndProcess (sample_script None true) (λ _, newer_page)
  = (Found 1 ["1"], [Fetch (detailsRequest (sample_script None true) ["1"])]).
Proof. by vm_compute. Qed.

Lemma page_without_list_items_is_fetched_but_not_annotated_witness :
  let this := sample_script None true in
  let responseData := [sample_record 70 1 "One" "PROJ-42-fix" false] in
  @fetchMergeRequestsDetailsThenUpdateUI simple_dom_parser this newer_page ["1"]
    (Fulfilled responseData)
  = (newer_page, Fetch (detailsRequest this ["1"]) ::
                 (unresolvedDiagnostic <$> responseData)).
Proof.
  apply (@page_without_list_items_is_fetched_but_not_annotated simple_dom_parser
           (sample_script None true)
           newer_page ["1"] [sample_record 70 1 "One" "PROJ-42-fix" false]).
  reflexivity.
Defined.

End NewMarkupFacts.

(* ===================================================================== *)
(** * Part IV: the rest of the script *)
(* ===================================================================== *)

(** ** Copying merge request information *)

Section CopyInfoFacts.
Import JsString Dom GitLabApiClient ContentScript CopyInfo.

Lemma replacePlaceholders_cons ps c l' :
  replacePlaceholders ps (c :: l') =
  match match_placeholder ps (c :: l') with
  | Some (key, value) =>
      chars (inserted value) ++ replacePlaceholders ps (drop (length (chars key) + 1) l')
  | None => c :: replacePlaceholders ps l'
  end.
Proof.
  rewrite replacePlaceholders_equation_2.
  by destruct (match_placeholder ps (c :: l')) as [[key value]|].
Qed.

Lemma chars_placeholder key :
  chars ("{" +:+ key +:+ "}") = "{"%char :: chars key ++ ["}"%char].
Proof. by rewrite !chars_app. Qed.

(** The text ["{key}"] *)
Definition braced (key : string) : list ascii := "{"%char :: chars key ++ ["}"%char].

Definition brace_free (key : string) : Prop :=
  ("{"%char ∉ chars key) ∧ ("}"%char ∉ chars key).

(** Keys hold no brace, and no key is listed twice. *)
Definition plain_keys (ps : list (string * option string)) : Prop :=
  Forall (λ kv, brace_free kv.1) ps ∧ NoDup ps.*1.

Lemma placeholders_plain_keys node : plain_keys (placeholders node).
Proof.
  split.
  - unfold placeholders.
    repeat (constructor; [split; apply (bool_decide_unpack _); by vm_compute|]).
    constructor.
  - apply (bool_decide_unpack _). by vm_compute.
Qed.

Lemma match_placeholder_Some ps l key value :
  match_placeholder ps l = Some (key, value) →
  (key, value) ∈ ps ∧ ∃ rest, l = braced key ++ rest.
Proof.
  induction ps as [|[k v] ps IH]; cbn [match_placeholder]; [done|].
  rewrite chars_placeholder.
  destruct (is_prefix _ l) eqn:E.
  - intros [= -> ->]. split; [by left|]. by apply is_prefix_spec.
  - intros [Hin Hrest]%IH. split; [by right|done].
Qed.

Lemma match_placeholder_None ps l key value rest :
  match_placeholder ps l = None → (key, value) ∈ ps → l ≠ braced key ++ rest.
Proof.
  induction ps as [|[k v] ps IH]; cbn [match_placeholder]; [by intros _ ?%elem_of_nil|].
  rewrite chars_placeholder.
  destruct (is_prefix _ l) eqn:E; [done|].
  intros Hnone [[= -> ->]|Hin]%elem_of_cons; [|by apply IH].
  intros ->. unfold braced in E.
  assert (is_prefix ("{"%char :: chars k ++ ["}"%char])
            (("{"%char :: chars k ++ ["}"%char]) ++ rest) = true) as Htrue
    by (apply is_prefix_spec; eauto).
  by rewrite Htrue in E.
Qed.

Lemma is_prefix_guard q : ∀ a rest,
  "{"%char ∉ q → is_prefix q (a ++ "{"%char :: rest) = is_prefix q a.
Proof.
  induction q as [|x q IH]; intros a rest Hq; [done|].
  apply not_elem_of_cons in Hq as [Hx Hq].
  destruct a as [|y a]; simpl.
  - rewrite bool_decide_eq_false_2; [done|]. by intros ->.
  - by rewrite IH.
Qed.

(** A match that starts before a ["{"] ends before it. *)
Lemma match_placeholder_guard ps c a rest :
  plain_keys ps →
  match_placeholder ps (c :: a ++ "{"%char :: rest) = match_placeholder ps (c :: a).
Proof.
  intros [Hkeys _]. induction Hkeys as [|[k v] ps [Hk1 Hk2] _ IH]; [done|].
  cbn [match_placeholder]. rewrite chars_placeholder. cbn [is_prefix].
  rewrite is_prefix_guard, IH; [done|].
  intros [Hin|Hin%list_elem_of_singleton]%elem_of_app; [done|by simplify_eq].
Qed.

Lemma first_closing_brace k1 : ∀ k2 x y,
  "}"%char ∉ k1 → "}"%char ∉ k2 →
  k1 ++ "}"%char :: x = k2 ++ "}"%char :: y → k1 = k2.
Proof.
  induction k1 as [|c k1 IH]; intros [|d k2] x y H1 H2 Heq; simpl in *.
  - done.
  - injection Heq as <- _. apply not_elem_of_cons in H2 as [? _]. done.
  - injection Heq as -> _. apply not_elem_of_cons in H1 as [? _]. done.
  - injection Heq as -> Heq. apply not_elem_of_cons in H1 as [_ H1].
    apply not_elem_of_cons in H2 as [_ H2]. f_equal. by eapply IH.
Qed.

(** At a placeholder, it is that placeholder that is matched. *)
Lemma match_placeholder_at ps key value rest :
  plain_keys ps → (key, value) ∈ ps →
  match_placeholder ps (braced key ++ rest) = Some (key, value).
Proof.
  intros Hplain Hin.
  destruct (match_placeholder ps (braced key ++ rest)) as [[k v]|] eqn:E.
  - apply match_placeholder_Some in E as [Hin' [rest' Heq]].
    destruct Hplain as [Hkeys Hnodup]. rewrite Forall_forall in Hkeys.
    destruct (Hkeys _ Hin) as [_ H1]. destruct (Hkeys _ Hin') as [_ H2].
    unfold braced in Heq. simpl in Heq. injection Heq as Heq.
    rewrite <- !app_assoc in Heq. simpl in Heq.
    apply first_closing_brace in Heq; [|done..]. apply chars_inj in Heq as ->.
    f_equal. f_equal.
    apply list_elem_of_lookup_1 in Hin as [i Hi].
    apply list_elem_of_lookup_1 in Hin' as [j Hj].
    assert (i = j) as ->.
    { eapply NoDup_lookup; [exact Hnodup| |]; rewrite list_lookup_fmap.
      - by rewrite Hi. - by rewrite Hj. }
    congruence.
  - exfalso. by eapply match_placeholder_None.
Qed.

(** The scan of a text that holds a placeholder is the scan of what is
    before it, the value, and the scan of what is after it. *)
Lemma replacePlaceholders_at ps key value after :
  plain_keys ps → (key, value) ∈ ps → ∀ before,
  replacePlaceholders ps (before ++ braced key ++ after) =
  replacePlaceholders ps before ++ chars (inserted value) ++
  replacePlaceholders ps after.
Proof.
  intros Hplain Hin before.
  remember (length before) as n eqn:Hn. revert before Hn.
  induction n as [n IH] using lt_wf_ind. intros [|c a] Hn.
  - rewrite replacePlaceholders_equation_1. cbn [app].
    change (braced key ++ after) with ("{"%char :: (chars key ++ ["}"%char]) ++ after).
    rewrite replacePlaceholders_cons.
    change ("{"%char :: (chars key ++ ["}"%char]) ++ after) with (braced key ++ after).
    rewrite (match_placeholder_at ps key value) by done.
    rewrite drop_app_length'; [done|]. rewrite length_app. simpl. lia.
  - cbn [app].
    change (braced key ++ after) with ("{"%char :: (chars key ++ ["}"%char]) ++ after).
    rewrite !replacePlaceholders_cons, match_placeholder_guard by done.
    destruct (match_placeholder ps (c :: a)) as [[k v]|] eqn:E.
    + apply match_placeholder_Some in E as [_ [rest Heq]].
      unfold braced in Heq. injection Heq as -> ->.
      change ("{"%char :: (chars key ++ ["}"%char]) ++ after) with (braced key ++ after).
      assert (∀ x, drop (length (chars k) + 1) ((chars k ++ ["}"%char]) ++ x) = x) as Hdrop.
      { intros x. rewrite drop_app_length'; [done|]. rewrite length_app. simpl. lia. }
      rewrite <- (app_assoc _ rest), !Hdrop.
      rewrite (IH (length rest)); [by rewrite <- !app_assoc| |done].
      subst n. simpl. rewrite !length_app. lia.
    + change ("{"%char :: (chars key ++ ["}"%char]) ++ after) with (braced key ++ after).
      rewrite (IH (length a)); [done| |done]. subst n. simpl. lia.
Qed.

(** Where no placeholder starts, the scan copies the text. *)
Lemma replacePlaceholders_none ps l :
  (∀ pre key value post, (key, value) ∈ ps → l ≠ pre ++ braced key ++ post) →
  replacePlaceholders ps l = l.
Proof.
  induction l as [|c l IH]; intros Hnone.
  - by rewrite replacePlaceholders_equation_1.
  - rewrite replacePlaceholders_cons.
    destruct (match_placeholder ps (c :: l)) as [[k v]|] eqn:E.
    + apply match_placeholder_Some in E as [Hin [rest Heq]].
      by destruct (Hnone [] k v rest Hin).
    + f_equal. apply IH. intros pre key value post Hin ->.
      by apply (Hnone (c :: pre) key value post Hin).
Qed.

(** The text before the final [trim] *)
Definition expanded (node : Node) (text : string) : string :=
  of_chars (replacePlaceholders (placeholders node) (chars text)).

Definition placeholderKeys : list string :=
  ["MR_TITLE"; "MR_ID"; "MR_URL"; "MR_DIFFS_URL"; "MR_AUTHOR_NAME"; "MR_STATUS";
   "MR_SOURCE_BRANCH_NAME"; "MR_TARGET_BRANCH_NAME"; "MR_JIRA_TICKET_ID";
   "MR_JIRA_TICKET_URL"].

Lemma placeholders_keys node : (placeholders node).*1 = placeholderKeys.
Proof. done. Qed.

Lemma chars_braced key after :
  chars ("{" +:+ key +:+ "}" +:+ after) = braced key ++ chars after.
Proof. rewrite !chars_app. unfold braced. simpl. by rewrite <- app_assoc. Qed.

(** A placeholder of the format is replaced by the value that the item
    holds for its key, wherever it stands: the text copied is the
    expansion of what is before the placeholder, the value as it is (it is
    not scanned again), and the expansion of what is after it, trimmed. A
    key among the first eight whose field the item does not hold gives
    the text [undefined]; the two Jira keys then give the empty text. *)
Theorem placeholder_is_replaced_by_its_value
    (this : Script) (mergeRequestNode : Node)
    (before key after : string) (value : option string) :
  (key, value) ∈ placeholders mergeRequestNode →
  copy_mr_info_format (preferences this) = before +:+ "{" +:+ key +:+ "}" +:+ after →
  buildMergeRequestInfoText this mergeRequestNode =
  trim (expanded mergeRequestNode before +:+ default "undefined" value +:+
        expanded mergeRequestNode after).
Proof.
  intros Hin Hformat. unfold buildMergeRequestInfoText, expanded. rewrite Hformat.
  rewrite chars_app, chars_braced.
  rewrite (replacePlaceholders_at _ key value)
    by (done || apply placeholders_plain_keys).
  f_equal. apply chars_inj. by rewrite !chars_app, !chars_of_chars.
Qed.

(** The placeholders of the eight annotated fields, with the field of the
    record each stands for; a record without author has no author name. *)
Definition recordFields (mergeRequest : MergeRequest) : list (string * string) :=
  [ ("MR_TITLE", title mergeRequest);
    ("MR_ID", of_N (iid mergeRequest));
    ("MR_URL", web_url mergeRequest);
    ("MR_DIFFS_URL", web_url mergeRequest +:+ "/diffs") ] ++
  match author mergeRequest with
  | Some who => [ ("MR_AUTHOR_NAME", name who) ]
  | None => []
  end ++
  [ ("MR_STATUS", state mergeRequest);
    ("MR_SOURCE_BRANCH_NAME", source_branch mergeRequest);
    ("MR_TARGET_BRANCH_NAME", target_branch mergeRequest) ].

Lemma recordFields_placeholders mergeRequest node key field :
  annotated_with mergeRequest node → (key, field) ∈ recordFields mergeRequest →
  (key, Some field) ∈ placeholders node.
Proof.
  intros (H1 & H2 & H3 & H4 & H5 & H6 & H7 & H8 & _) Hin.
  unfold placeholders. rewrite H1, H2, H3, H4, H5, H6, H7, H8.
  unfold recordFields in Hin.
  destruct (author mergeRequest) as [who|]; cbn [app fmap option_fmap option_map] in *;
    repeat (apply elem_of_cons in Hin as [[= -> ->]|Hin]; [set_solver|]);
    by apply elem_of_nil in Hin.
Qed.

(** For an item that holds the annotated state of a record, each of the
    eight field placeholders of the format is replaced by the record's
    field, the author's name being a field of a record that has an
    author: what the Annotator wrote is what is copied. *)
Theorem copied_text_shows_the_annotated_record
    (this : Script) (mergeRequestNode : Node) (mergeRequest : MergeRequest)
    (before key field after : string) :
  annotated_with mergeRequest mergeRequestNode →
  (key, field) ∈ recordFields mergeRequest →
  copy_mr_info_format (preferences this) = before +:+ "{" +:+ key +:+ "}" +:+ after →
  buildMergeRequestInfoText this mergeRequestNode =
  trim (expanded mergeRequestNode before +:+ field +:+ expanded mergeRequestNode after).
Proof.
  intros Hann Hin Hformat. unfold buildMergeRequestInfoText, expanded. rewrite Hformat.
  rewrite chars_app, chars_braced.
  rewrite (replacePlaceholders_at _ key (Some field));
    [|apply placeholders_plain_keys|by eapply recordFields_placeholders].
  f_equal. apply chars_inj. by rewrite !chars_app, !chars_of_chars.
Qed.

(** A format that includes none of the ten placeholders is copied as it
    is, trimmed: nothing else is ever replaced. *)
Theorem format_without_placeholder_is_only_trimmed
    (this : Script) (mergeRequestNode : Node) :
  Forall (λ key, includes (copy_mr_info_format (preferences this))
                   ("{" +:+ key +:+ "}") = false) placeholderKeys →
  buildMergeRequestInfoText this mergeRequestNode =
  trim (copy_mr_info_format (preferences this)).
Proof.
  intros Hnone. unfold buildMergeRequestInfoText.
  rewrite replacePlaceholders_none; [by rewrite of_chars_chars|].
  intros pre key value post Hin Heq.
  rewrite Forall_forall in Hnone.
  assert (key ∈ placeholderKeys) as Hkey.
  { rewrite <- (placeholders_keys mergeRequestNode).
    apply list_elem_of_fmap. by exists (key, value). }
  specialize (Hnone key Hkey). apply not_true_iff_false in Hnone. apply Hnone.
  unfold includes. apply includes_l_spec. exists pre, post.
  by rewrite chars_placeholder.
Qed.

End CopyInfoFacts.

Section CopyInfoExamples.
Import JsString Dom GitLabApiClient ContentScript CopyInfo.

Definition format_script (format : string) : Script :=
  {| currentProjectId := "5";
     baseProjectUrl := "/group/project";
     apiClient := sample_client None;
     preferences := {| display_source_and_target_branches := true;
                       base_jira_url := "https://jira.example.com/";
                       copy_mr_info_format := format |} |}.

Definition copy_record : MergeRequest := sample_record 70 1 "Fix {MR_URL}" "PROJ-42-fix" false.

Definition copy_item : Node :=
  final (setDataAttributesToMergeRequestNode copy_record (sample_item [] "Fix it" "!1")).

Example buildMergeRequestInfoText_example :
  buildMergeRequestInfoText
    (format_script " {MR_TITLE} by {MR_AUTHOR_NAME}: {MR_JIRA_TICKET_ID}{MR_NONE} ")
    copy_item
  = "Fix {MR_URL} by Ada: {MR_NONE}" ∧
  buildMergeRequestInfoText (format_script "{MR_ID} {MR_STATUS}")
    (sample_item [] "Fix it" "!1")
  = "undefined undefined".
Proof. by vm_compute. Qed.

Lemma placeholder_is_replaced_by_its_value_witness :
  buildMergeRequestInfoText (format_script "see {MR_ID}, ") (sample_item [] "Fix it" "!1") =
  trim (expanded (sample_item [] "Fix it" "!1") "see " +:+ default "undefined" None +:+
        expanded (sample_item [] "Fix it" "!1") ", ").
Proof.
  apply (placeholder_is_replaced_by_its_value (format_script "see {MR_ID}, ")
           (sample_item [] "Fix it" "!1") "see " "MR_ID" ", " None);
    [apply (bool_decide_unpack _); by vm_compute|reflexivity].
Defined.

Lemma copied_text_shows_the_annotated_record_witness :
  buildMergeRequestInfoText (format_script "{MR_TITLE} <{MR_SOURCE_BRANCH_NAME}>") copy_item =
  trim (expanded copy_item "{MR_TITLE} <" +:+ "PROJ-42-fix" +:+ expanded copy_item ">").
Proof.
  apply (copied_text_shows_the_annotated_record
           (format_script "{MR_TITLE} <{MR_SOURCE_BRANCH_NAME}>") copy_item copy_record
           "{MR_TITLE} <" "MR_SOURCE_BRANCH_NAME" "PROJ-42-fix" ">");
    [apply (setDataAttributes_annotates copy_record); by eexists
    |apply (bool_decide_unpack _); by vm_compute
    |reflexivity].
Defined.

Lemma format_without_placeholder_is_only_trimmed_witness :
  buildMergeRequestInfoText (format_script " {MR_TITLE {mr_id} {} ") copy_item =
  trim " {MR_TITLE {mr_id} {} ".
Proof.
  apply (format_without_placeholder_is_only_trimmed
           (format_script " {MR_TITLE {mr_id} {} ") copy_item).
  apply (bool_decide_unpack _). by vm_compute.
Defined.

End CopyInfoExamples.

(** ** Click handlers *)

Section ClickFacts.
Import JsString Dom GitLabApiClient ContentScript CopyInfo ClickHandlers.

Lemma selects_item doc p : selects doc [cls "merge-request"] p = true ↔ item doc p.
Proof.
  unfold selects, item, get. split.
  - destruct (locate [] doc p) as [[anc [s|t a cs]]|]; try done.
    rewrite matches_single, matches_item. intros H%bool_decide_eq_true.
    by exists t, a, cs.
  - intros (t & a & cs & Hg & Hc).
    destruct (locate [] doc p) as [[anc n]|]; simplify_eq/=.
    rewrite matches_single, matches_item. by apply bool_decide_eq_true.
Qed.

(** [closest] returns the candidate of greatest depth that is selected. *)
Lemma closest_from_Some doc sel p k q :
  closest_from doc sel p k = Some q →
  ∃ j, j ≤ k ∧ q = take j p ∧ selects doc sel q = true ∧
       ∀ i, j < i ≤ k → selects doc sel (take i p) = false.
Proof.
  induction k as [|k IH]; simpl.
  - destruct (selects doc sel (take 0 p)) eqn:E; [|done].
    intros [= <-]. exists 0. split; [lia|]. split; [done|]. split; [done|].
    intros i Hi. lia.
  - destruct (selects doc sel (take (S k) p)) eqn:E.
    + intros [= <-]. exists (S k). split; [lia|]. split; [done|]. split; [done|].
      intros i Hi. lia.
    + intros (j & Hj & -> & Hsel & Hnone)%IH. exists j.
      split; [lia|]. split; [done|]. split; [done|]. intros i Hi.
      destruct (decide (i = S k)) as [->|]; [done|]. apply Hnone. lia.
Qed.

Lemma closest_from_None doc sel p k :
  closest_from doc sel p k = None → ∀ i, i ≤ k → selects doc sel (take i p) = false.
Proof.
  induction k as [|k IH]; simpl.
  - destruct (selects doc sel (take 0 p)) eqn:E; [done|].
    intros _ i Hi. by replace i with 0 by lia.
  - destruct (selects doc sel (take (S k) p)) eqn:E; [done|].
    intros H i Hi. destruct (decide (i = S k)) as [->|]; [done|].
    apply IH; [done|lia].
Qed.

(** Where no list item lies inside another, the list item that holds an
    element is the one that [closest] finds from it. *)
Lemma closest_item doc p r :
  unnested doc → item doc p →
  closest doc [cls "merge-request"] (p ++ r) = Some p.
Proof.
  intros Hun Hp. unfold closest.
  destruct (closest_from doc [cls "merge-request"] (p ++ r) (length (p ++ r)))
    as [q|] eqn:E.
  - apply closest_from_Some in E as (j & Hj & -> & Hsel & Hnone).
    apply selects_item in Hsel.
    destruct (decide (j < length p)) as [Hlt|Hge].
    + specialize (Hnone (length p)). rewrite take_app_length in Hnone.
      rewrite length_app in Hj.
      assert (selects doc [cls "merge-request"] p = true) as Hs by (by apply selects_item).
      rewrite Hnone in Hs; [done|]. rewrite length_app. lia.
    + f_equal. rewrite take_app_ge by lia.
      rewrite take_app_ge in Hsel by lia.
      rewrite (Hun p _ Hp Hsel). apply app_nil_r.
  - apply closest_from_None with (i := length p) in E; [|rewrite length_app; lia].
    rewrite take_app_length in E.
    assert (selects doc [cls "merge-request"] p = true) as Hs by (by apply selects_item).
    by rewrite E in Hs.
Qed.

Lemma closest_None doc sel p :
  (∀ k, selects doc sel (take k p) = false) → closest doc sel p = None.
Proof.
  intros Hnone. unfold closest.
  destruct (closest_from doc sel p (length p)) as [q|] eqn:E; [|done].
  apply closest_from_Some in E as (j & _ & -> & Hsel & _). by rewrite Hnone in Hsel.
Qed.

(** The branch that a copy button names, with the field of the record
    that it stands for *)
Definition branchFields (mergeRequest : MergeRequest) : list (string * string) :=
  [ ("source", source_branch mergeRequest); ("target", target_branch mergeRequest) ].

(** On a page where no list item lies inside another, the three click
    handlers act on the list item that holds the button: the branch
    button copies the source or target branch that the item was annotated
    with, the info button copies the info text of that item, and the
    toggle button toggles that item. *)
Theorem click_handlers_act_on_the_enclosing_item
    (this : Script) (doc : Node) (p rest : path) (mergeRequestNode el : Node) :
  unnested doc → item doc p →
  get doc p = Some mergeRequestNode →
  get doc (p ++ rest) = Some el →
  (∀ mergeRequest which branch written,
     annotated_with mergeRequest mergeRequestNode →
     dataset_get el "branchNameToCopy" = Some which →
     (which, branch) ∈ branchFields mergeRequest →
     copyBranchNameClicked doc (p ++ rest) written =
     Copied branch (if written then [] else [Alert "Unable to copy branch name."])) ∧
  (∀ written,
     copyMergeRequestInfoClicked this doc (p ++ rest) written =
     Copied (buildMergeRequestInfoText this mergeRequestNode)
       (if written then [] else [Alert "Unable to copy Merge Request info."])) ∧
  (∀ outcome,
     toggleWipStatusClicked this doc (p ++ rest) outcome =
     toggleMergeRequestWipStatus this doc p outcome).
Proof.
  intros Hun Hitem Hnode Hel.
  pose proof (closest_item doc p rest Hun Hitem) as Hclosest.
  unfold copyBranchNameClicked, copyMergeRequestInfoClicked, toggleWipStatusClicked.
  rewrite Hclosest. cbn [mbind option_bind]. rewrite Hnode, Hel.
  split; [|done].
  intros mergeRequest which branch written Hann Hwhich Hin.
  rewrite Hwhich. cbn [default]. unfold Datatypes.id.
  destruct Hann as (_ & _ & _ & _ & _ & _ & Hs & Ht & _).
  unfold branchFields in Hin.
  apply elem_of_cons in Hin as [[= -> ->]|Hin].
  { change (dataset_read mergeRequestNode ("source" +:+ "BranchName"))
      with (dataset_get mergeRequestNode "sourceBranchName"). by rewrite Hs. }
  apply list_elem_of_singleton in Hin as [= -> ->].
  change (dataset_read mergeRequestNode ("target" +:+ "BranchName"))
    with (dataset_get mergeRequestNode "targetBranchName"). by rewrite Ht.
Qed.

(** A click on a button that no list item holds copies nothing: the
    handler raises. The toggle has by then disabled its button, which
    stays disabled, and no request is made. *)
Theorem click_outside_any_item_raises
    (this : Script) (doc : Node) (button : path) :
  (∀ k, ¬ item doc (take k button)) →
  (∀ written, copyBranchNameClicked doc button written = Thrown) ∧
  (∀ written, copyMergeRequestInfoClicked this doc button written = Thrown) ∧
  (∀ outcome,
     toggleWipStatusClicked this doc button outcome =
     {| t_doc := doc; t_disabled := true; t_events := [];
        t_thrown := true; t_handler_threw := false |}).
Proof.
  intros Hnone.
  assert (closest doc [cls "merge-request"] button = None) as Hclosest.
  { apply closest_None. intros k.
    destruct (selects doc [cls "merge-request"] (take k button)) eqn:E; [|done].
    apply selects_item in E. by destruct (Hnone k). }
  unfold copyBranchNameClicked, copyMergeRequestInfoClicked, toggleWipStatusClicked.
  by rewrite Hclosest.
Qed.

End ClickFacts.

Section ClickExamples.
Import JsString Dom GitLabApiClient ContentScript CopyInfo ClickHandlers.

(** A list item with a copy button for the source branch in its main-info
    region *)
Definition button_item (mergeRequest : MergeRequest) : Node :=
  final
    (setDataAttributesToMergeRequestNode mergeRequest
       (elem "li" [("class", "merge-request")]
          [ elem "div" [("class", "issuable-main-info")]
              [ elem "span" [("class", "issuable-reference")] [Text "!1"];
                elem "button" [("class", "gmrle-copy-branch-name");
                               ("data-branch-name-to-copy", "source")] [] ] ])).

Definition button_page : Node :=
  sample_page "mr-list" [button_item copy_record].

Lemma button_page_unnested : unnested button_page.
Proof.
  intros p r Hp Hpr.
  apply item_querySelectorAll in Hp, Hpr.
  change (querySelectorAll button_page [cls "merge-request"])
    with [[0; 0; 0]] in Hp, Hpr.
  apply list_elem_of_singleton in Hp as ->.
  apply list_elem_of_singleton in Hpr.
  destruct r; [done|discriminate].
Qed.

Lemma click_handlers_act_on_the_enclosing_item_witness :
  (∀ mergeRequest which branch written,
     annotated_with mergeRequest (button_item copy_record) →
     dataset_get (elem "button" [("class", "gmrle-copy-branch-name");
                                 ("data-branch-name-to-copy", "source")] [])
       "branchNameToCopy" = Some which →
     (which, branch) ∈ branchFields mergeRequest →
     copyBranchNameClicked button_page ([0; 0; 0] ++ [0; 1]) written =
     Copied branch (if written then [] else [Alert "Unable to copy branch name."])) ∧
  (∀ written,
     copyMergeRequestInfoClicked (format_script "{MR_TITLE}") button_page
       ([0; 0; 0] ++ [0; 1]) written =
     Copied (buildMergeRequestInfoText (format_script "{MR_TITLE}") (button_item copy_record))
       (if written then [] else [Alert "Unable to copy Merge Request info."])) ∧
  (∀ outcome,
     toggleWipStatusClicked (format_script "{MR_TITLE}") button_page
       ([0; 0; 0] ++ [0; 1]) outcome =
     toggleMergeRequestWipStatus (format_script "{MR_TITLE}") button_page [0; 0; 0] outcome).
Proof.
  apply (click_handlers_act_on_the_enclosing_item (format_script "{MR_TITLE}")
           button_page [0; 0; 0] [0; 1] (button_item copy_record)
           (elem "button" [("class", "gmrle-copy-branch-name");
                           ("data-branch-name-to-copy", "source")] []));
    [apply button_page_unnested
    |apply item_querySelectorAll; by vm_compute; left
    |reflexivity
    |reflexivity].
Defined.

Example copy_button_example :
  copyBranchNameButtons button_page = [[0; 0; 0; 0; 1]] ∧
  copyBranchNameClicked button_page [0; 0; 0; 0; 1] true = Copied "PROJ-42-fix" [] ∧
  copyBranchNameClicked button_page [0; 0; 0; 0; 0] false =
    Copied "undefined" [Alert "Unable to copy branch name."].
Proof. by vm_compute. Qed.

Lemma click_outside_any_item_raises_witness :
  let doc := sample_page "mr-list" [] in
  (∀ written, copyBranchNameClicked doc [0; 0] written = Thrown) ∧
  (∀ written,
     copyMergeRequestInfoClicked (format_script "{MR_TITLE}") doc [0; 0] written = Thrown) ∧
  (∀ outcome,
     toggleWipStatusClicked (format_script "{MR_TITLE}") doc [0; 0] outcome =
     {| t_doc := doc; t_disabled := true; t_events := [];
        t_thrown := true; t_handler_threw := false |}).
Proof.
  apply (click_outside_any_item_raises (format_script "{MR_TITLE}")
           (sample_page "mr-list" []) [0; 0]).
  intros k Hitem. apply item_querySelectorAll in Hitem.
  change (querySelectorAll (sample_page "mr-list" []) [cls "merge-request"])
    with (@nil path) in Hitem.
  by apply elem_of_nil in Hitem.
Defined.

End ClickExamples.

(** ** Start-up: what the script reads from the page

    The patterns of [getBaseProjectUrl] use a negated character class,
    and its selectors an attribute substring test; [getBaseIconsUrl] uses
    a child combinator. The matcher and the selector engine below cover
    these forms. *)

Section PatternFacts.
Import JsString JsPattern.

(** The words of [test{lo,hi}] *)
Definition piece_lang (test : ascii → bool) (lo : nat) (hi : option nat)
    (w : list ascii) : Prop :=
  lo ≤ length w ∧ (∀ m, hi = Some m → length w ≤ m) ∧
  Forall (λ c, test c = true) w.

(** The words of a sequence of pieces *)
Fixpoint pieces_lang (ps : list piece) (w : list ascii) : Prop :=
  match ps with
  | [] => w = []
  | p :: ps' =>
      ∃ w1 w2, w = w1 ++ w2 ∧ piece_lang (p_test p) (p_min p) (p_max p) w1 ∧
               pieces_lang ps' w2
  end.

Lemma match_piece_sound test k L lo hi s n :
  matcher_for L k →
  match_piece test k lo hi s = Some n →
  ∃ j, j ≤ n ∧ n ≤ length s ∧ piece_lang test lo hi (take j s) ∧
       L (take (n - j) (drop j s)).
Proof.
  intros [Hs _]. revert lo hi n.
  assert (∀ lo hi s n, match lo with 0 => k s | S _ => None end = Some n →
            ∃ j, j ≤ n ∧ n ≤ length s ∧ piece_lang test lo hi (take j s) ∧
                 L (take (n - j) (drop j s))) as Hstop.
  { intros [|lo] hi s' n Hk; [|done]. apply Hs in Hk as [? ?].
    exists 0. rewrite Nat.sub_0_r, drop_0, take_0.
    repeat split; simpl; auto with lia. }
  induction s as [|c s IH]; intros lo hi n; simpl; [apply Hstop|].
  destruct (test c && negb (bool_decide (hi = Some 0))) eqn:Hc; [|apply Hstop].
  destruct (match_piece test k (pred lo) (pred <$> hi) s) as [n'|] eqn:Hr;
    [|apply Hstop].
  intros [= <-]. apply IH in Hr as (j & Hj & Hn & (Hlo & Hhi & Hall) & HL).
  apply andb_true_iff in Hc as [Hacc Hne%negb_true_iff%bool_decide_eq_false].
  exists (S j). simpl. repeat split; [lia|lia|simpl; lia| |by constructor|done].
  intros m ->. destruct m as [|m]; [done|].
  specialize (Hhi m eq_refl). simpl. lia.
Qed.

Lemma match_piece_complete test k L lo hi s :
  matcher_for L k →
  match_piece test k lo hi s = None →
  ∀ w1 w2 rest, s = w1 ++ w2 ++ rest → piece_lang test lo hi w1 → ¬ L w2.
Proof.
  intros [_ Hc]. revert lo hi.
  assert (∀ lo hi s, match lo with 0 => k s | S _ => None end = None →
            ∀ w2 rest, s = w2 ++ rest → piece_lang test lo hi [] → ¬ L w2) as Hstop.
  { intros [|lo] hi s' Hk w2 rest -> [Hlo _]; [by eapply Hc|simpl in Hlo; lia]. }
  induction s as [|c s IH]; intros lo hi; simpl.
  - intros Hk [|? w1] w2 rest Heq Hrep; [|done]. by eapply Hstop.
  - destruct (test c && negb (bool_decide (hi = Some 0))) eqn:Hacc.
    + destruct (match_piece test k (pred lo) (pred <$> hi) s) as [n'|] eqn:Hr; [done|].
      apply andb_true_iff in Hacc as [Hd Hne%negb_true_iff%bool_decide_eq_false].
      intros Hk [|d w1] w2 rest Heq Hrep; [by eapply Hstop|].
      injection Heq as <- ->.
      destruct Hrep as (Hlo & Hhi & Hall). inversion_clear Hall.
      eapply (IH _ _ Hr w1 w2 rest eq_refl).
      repeat split; [simpl in Hlo; lia| |done].
      intros m Hm. destruct hi as [[|h]|]; simplify_eq/=.
      specialize (Hhi _ eq_refl). lia.
    + intros Hk [|d w1] w2 rest Heq Hrep; [by eapply Hstop|].
      injection Heq as <- ->. destruct Hrep as (Hlo & Hhi & Hall).
      inversion_clear Hall as [|?? Hd _].
      rewrite Hd in Hacc. simpl in Hacc.
      apply negb_false_iff, bool_decide_eq_true in Hacc as ->.
      specialize (Hhi _ eq_refl). simpl in Hhi. lia.
Qed.

Lemma match_pieces_matcher ps : matcher_for (pieces_lang ps) (match_pieces ps).
Proof.
  induction ps as [|p ps IH]; simpl.
  - split.
    + intros s n [= <-]. split; [lia|]. by rewrite take_0.
    + done.
  - split.
    + intros s n Hm.
      destruct (match_piece_sound _ _ _ _ _ _ _ IH Hm) as (j & Hj & Hn & Hrep & HL).
      split; [done|]. exists (take j s), (take (n - j) (drop j s)).
      split; [|done].
      rewrite take_take_drop. f_equal. lia.
    + intros s Hm w rest -> (w1 & w2 & -> & Hrep & HL).
      eapply (match_piece_complete _ _ _ _ _ _ IH Hm w1 w2 rest); [|done..].
      by rewrite <- app_assoc.
Qed.

Lemma search_Some ps s i i' n :
  search ps s i = Some (i', n) →
  ∃ d, i' = i + d ∧ d ≤ length s ∧ match_pieces ps (drop d s) = Some n.
Proof.
  revert i. induction s as [|c s IH]; intros i; simpl.
  - destruct (match_pieces ps []) eqn:E; [|done].
    intros [= <- <-]. exists 0. rewrite Nat.add_0_r. auto.
  - destruct (match_pieces ps (c :: s)) eqn:E.
    + intros [= <- <-]. exists 0. rewrite Nat.add_0_r. auto with lia.
    + intros (d & -> & Hd & Hm)%IH. exists (S d). simpl. auto with lia.
Qed.

Lemma search_None ps s i :
  search ps s i = None → ∀ d, match_pieces ps (drop d s) = None.
Proof.
  revert i. induction s as [|c s IH]; intros i; simpl.
  - destruct (match_pieces ps []) eqn:E; [done|]. intros _ d. by rewrite drop_nil.
  - destruct (match_pieces ps (c :: s)) eqn:E; [done|].
    intros H [|d]; [done|]. simpl. by eapply IH.
Qed.

(** [match] returns a word of the pattern that occurs in the input ... *)
Lemma matched_Some ps s w :
  matched ps s = Some w →
  pieces_lang ps w ∧ ∃ pre suf, chars s = pre ++ w ++ suf.
Proof.
  unfold matched.
  destruct (search ps (chars s) 0) as [[i n]|] eqn:E; [|done].
  simpl. intros [= <-].
  apply search_Some in E as (d & -> & Hd & Hm). simpl.
  apply (match_pieces_matcher ps) in Hm as [Hn HL]. split; [done|].
  exists (take d (chars s)), (drop n (drop d (chars s))).
  by rewrite !take_drop.
Qed.

(** ... and [null] only when no word of the pattern occurs in it. *)
Lemma matched_None ps s :
  matched ps s = None →
  ∀ pre w suf, chars s = pre ++ w ++ suf → ¬ pieces_lang ps w.
Proof.
  unfold matched.
  destruct (search ps (chars s) 0) as [[i n]|] eqn:E; [done|].
  intros _ pre w suf Heq.
  pose proof (search_None _ _ _ E (length pre)) as Hm.
  rewrite Heq, drop_app_length in Hm.
  by eapply (match_pieces_matcher ps).
Qed.

(** When a word of the pattern starts the input, the match is a word of
    the pattern that starts the input. *)
Lemma matched_at_start ps s w rest :
  chars s = w ++ rest → pieces_lang ps w →
  ∃ w' rest', matched ps s = Some w' ∧ chars s = w' ++ rest' ∧ pieces_lang ps w'.
Proof.
  intros Heq Hw. unfold matched.
  destruct (match_pieces ps (chars s)) as [n|] eqn:E.
  - assert (search ps (chars s) 0 = Some (0, n)) as ->.
    { destruct (chars s); simpl in *; by rewrite E. }
    simpl. rewrite drop_0. apply (match_pieces_matcher ps) in E as [Hn HL].
    exists (take n (chars s)), (drop n (chars s)). by rewrite take_drop.
  - destruct (proj2 (match_pieces_matcher ps) _ E w rest Heq Hw).
Qed.

Lemma pieces_lang_app ps1 ps2 w :
  pieces_lang (ps1 ++ ps2) w ↔
  ∃ w1 w2, w = w1 ++ w2 ∧ pieces_lang ps1 w1 ∧ pieces_lang ps2 w2.
Proof.
  revert w. induction ps1 as [|p ps1 IH]; intros w; simpl.
  - split.
    + intros H. by exists [], w.
    + by intros (w1 & w2 & -> & -> & H).
  - split.
    + intros (w1 & w2 & -> & Hp & (w3 & w4 & -> & H3 & H4)%IH).
      exists (w1 ++ w3), w4. rewrite app_assoc. split; [done|].
      split; [|done]. by exists w1, w3.
    + intros (w1 & w2 & -> & (w3 & w4 & -> & Hp & H4) & H2).
      exists w3, (w4 ++ w2). rewrite app_assoc. split; [done|].
      split; [done|]. apply IH. by exists w4, w2.
Qed.

Lemma piece_lang_one c w : piece_lang (p_test (one c)) 1 (Some 1) w ↔ w = [c].
Proof.
  split.
  - intros (Hlo & Hhi & Hall). specialize (Hhi 1 eq_refl).
    destruct w as [|d [|? ?]]; simpl in *; try lia.
    inversion_clear Hall as [|?? Hd _]. by apply bool_decide_eq_true in Hd as ->.
  - intros ->. split; [done|]. split; [by intros ? [= <-]|].
    repeat constructor. by apply bool_decide_eq_true.
Qed.

Lemma pieces_lang_word s w : pieces_lang (word s) w ↔ w = chars s.
Proof.
  unfold word. revert w. induction (chars s) as [|c l IH]; intros w; [done|].
  cbn [fmap list_fmap pieces_lang]. split.
  - intros (w1 & w2 & -> & H1 & H2). apply piece_lang_one in H1 as ->.
    apply IH in H2 as ->. done.
  - intros ->. exists [c], l. split; [done|]. split; [by apply piece_lang_one|].
    by apply IH.
Qed.

Lemma piece_lang_optional c w :
  piece_lang (p_test (optional c)) 0 (Some 1) w ↔ w = [] ∨ w = [c].
Proof.
  split.
  - intros (_ & Hhi & Hall). specialize (Hhi 1 eq_refl).
    destruct w as [|d [|? ?]]; simpl in *; try lia; [by left|right].
    inversion_clear Hall as [|?? Hd _]. by apply bool_decide_eq_true in Hd as ->.
  - intros [->| ->].
    + split; [done|]. split; [|constructor]. intros ? [= <-]. simpl. lia.
    + split; [simpl; lia|]. split; [by intros ? [= <-]|].
      repeat constructor. by apply bool_decide_eq_true.
Qed.

(** A non-empty text without [c] *)
Definition run_without (c : ascii) (w : list ascii) : Prop := w ≠ [] ∧ c ∉ w.

Lemma piece_lang_some_but c w :
  piece_lang (p_test (some_but c)) 1 None w ↔ run_without c w.
Proof.
  unfold run_without. split.
  - intros (Hlo & _ & Hall). split; [intros ->; simpl in Hlo; lia|].
    intros Hin. rewrite Forall_forall in Hall. specialize (Hall _ Hin).
    simpl in Hall. by rewrite bool_decide_eq_true_2 in Hall.
  - intros [Hne Hc]. split; [destruct w; simpl; [done|lia]|]. split; [done|].
    apply Forall_forall. intros d Hd. simpl. apply negb_true_iff.
    apply bool_decide_eq_false. by intros ->.
Qed.

End PatternFacts.

Section ProjectUrlFacts.
Import JsString Dom GitLabApiClient ContentScript JsPattern Startup.

(** [http(s)://host/seg/.../seg], from its parts *)
Definition project_url (secure : bool) (host : list ascii) (segs : list (list ascii))
    : list ascii :=
  chars "http" ++ (if secure then ["s"%char] else []) ++ chars "://" ++ host ++
  mjoin (("/"%char ::.) <$> segs).

Definition well_formed (host : list ascii) (segs : list (list ascii)) : Prop :=
  run_without "/" host ∧ Forall (run_without "/") segs.

Lemma segments_lang n : ∀ w,
  pieces_lang (mjoin (replicate n segment)) w ↔
  ∃ segs, length segs = n ∧ Forall (run_without "/") segs ∧
          w = mjoin (("/"%char ::.) <$> segs).
Proof.
  induction n as [|n IH]; intros w.
  - simpl. split.
    + intros ->. by exists [].
    + intros (segs & Hlen & _ & ->). by destruct segs.
  - cbn [replicate mjoin list_join]. unfold segment at 1. cbn [app pieces_lang].
    split.
    + intros (w1 & w2 & -> & H1%piece_lang_one & w3 & w4 & -> & H3%piece_lang_some_but
              & H4%IH).
      destruct H4 as (segs & Hlen & Hall & ->). subst w1.
      exists (w3 :: segs). simpl. rewrite Hlen. split; [done|].
      split; [by constructor|]. done.
    + intros ([|seg segs] & Hlen & Hall & ->); [done|].
      inversion_clear Hall as [|?? Hseg Hrest]. simpl in Hlen.
      exists ["/"%char], (seg ++ mjoin (("/"%char ::.) <$> segs)).
      split; [done|]. split; [by apply piece_lang_one|].
      exists seg, (mjoin (("/"%char ::.) <$> segs)). split; [done|].
      split; [by apply piece_lang_some_but|]. apply IH. exists segs.
      split; [lia|done].
Qed.

(** The words of the two patterns *)
Lemma projectUrlPattern_lang levels w :
  pieces_lang (projectUrlPattern levels) w ↔
  ∃ secure host segs, length segs = levels ∧ well_formed host segs ∧
                      w = project_url secure host segs ++ chars "/-/".
Proof.
  unfold projectUrlPattern, project_url, well_formed.
  rewrite pieces_lang_app. setoid_rewrite pieces_lang_word.
  split.
  - intros (w1 & w2 & -> & -> & (w3 & w4 & -> & Hopt%piece_lang_optional & H4)).
    apply (pieces_lang_app (word "://")) in H4
      as (w5 & w6 & -> & ->%pieces_lang_word & H6).
    destruct H6 as (w7 & w8 & -> & H7%piece_lang_some_but & H8).
    apply (pieces_lang_app (mjoin (replicate levels segment))) in H8
      as (w9 & w10 & -> & H9%segments_lang & ->%pieces_lang_word).
    destruct H9 as (segs & Hlen & Hall & ->).
    exists (bool_decide (w3 = ["s"%char])), w7, segs.
    split; [done|]. split; [done|].
    rewrite <- !app_assoc. do 2 f_equal.
    destruct Hopt as [-> | ->]; done.
  - intros (secure & host & segs & Hlen & [Hhost Hsegs] & ->).
    exists (chars "http"), ((if secure then ["s"%char] else []) ++ chars "://" ++ host ++
                            mjoin (("/"%char ::.) <$> segs) ++ chars "/-/").
    split; [by rewrite <- !app_assoc|]. split; [done|].
    eexists _, _. split; [reflexivity|].
    split; [apply piece_lang_optional; destruct secure; auto|].
    apply (pieces_lang_app (word "://")). eexists _, _. split; [reflexivity|].
    split; [by apply pieces_lang_word|].
    eexists _, _. split; [reflexivity|].
    split; [by apply piece_lang_some_but|].
    apply (pieces_lang_app (mjoin (replicate levels segment))).
    eexists _, _. split; [reflexivity|].
    split; [|by apply pieces_lang_word].
    apply segments_lang. by exists segs.
Qed.

Lemma first_occurrence (c : ascii) a1 : ∀ a2 x y,
  c ∉ a1 → c ∉ a2 → a1 ++ c :: x = a2 ++ c :: y → a1 = a2 ∧ x = y.
Proof.
  induction a1 as [|d a1 IH]; intros [|e a2] x y H1 H2 Heq; simpl in *.
  - by injection Heq as ->.
  - injection Heq as <- _. apply not_elem_of_cons in H2 as [? _]. done.
  - injection Heq as -> _. apply not_elem_of_cons in H1 as [? _]. done.
  - injection Heq as -> Heq. apply not_elem_of_cons in H1 as [_ H1].
    apply not_elem_of_cons in H2 as [_ H2].
    destruct (IH _ _ _ H1 H2 Heq) as [-> ->]. done.
Qed.

(** What follows the host, and every segment, starts with a slash. *)
Definition slash_first (tail : list ascii) : Prop := ∃ x, tail = "/"%char :: x.

Lemma segments_slash_first segs tail :
  slash_first tail → slash_first (mjoin (("/"%char ::.) <$> segs) ++ tail).
Proof. intros [x ->]. destruct segs as [|seg segs]; simpl; by eexists. Qed.

Lemma segments_cons seg segs tail :
  mjoin (("/"%char ::.) <$> seg :: segs) ++ tail =
  "/"%char :: seg ++ (mjoin (("/"%char ::.) <$> segs) ++ tail).
Proof. cbn [fmap list_fmap mjoin list_join]. by rewrite <- app_assoc. Qed.

Lemma segments_unique segs1 : ∀ segs2 t1 t2,
  length segs1 = length segs2 →
  Forall (run_without "/") segs1 → Forall (run_without "/") segs2 →
  slash_first t1 → slash_first t2 →
  mjoin (("/"%char ::.) <$> segs1) ++ t1 = mjoin (("/"%char ::.) <$> segs2) ++ t2 →
  segs1 = segs2 ∧ t1 = t2.
Proof.
  induction segs1 as [|s1 segs1 IH]; intros [|s2 segs2] t1 t2 Hlen H1 H2 Ht1 Ht2 Heq;
    try done.
  inversion_clear H1 as [|?? [_ Hs1] H1']. inversion_clear H2 as [|?? [_ Hs2] H2'].
  rewrite !segments_cons in Heq. injection Heq as Heq.
  destruct (segments_slash_first segs1 t1 Ht1) as [x1 Hx1].
  destruct (segments_slash_first segs2 t2 Ht2) as [x2 Hx2].
  pose proof Heq as Heq'. rewrite Hx1, Hx2 in Heq'.
  apply first_occurrence in Heq' as [-> _]; [|done..].
  apply app_inv_head in Heq.
  destruct (IH segs2 t1 t2) as [-> ->]; [simpl in Hlen; lia|done..].
Qed.

(** A text starts with one project URL of a given depth at most. *)
Lemma project_url_unique secure1 host1 segs1 t1 secure2 host2 segs2 t2 :
  length segs1 = length segs2 →
  well_formed host1 segs1 → well_formed host2 segs2 →
  slash_first t1 → slash_first t2 →
  project_url secure1 host1 segs1 ++ t1 = project_url secure2 host2 segs2 ++ t2 →
  secure1 = secure2 ∧ host1 = host2 ∧ segs1 = segs2 ∧ t1 = t2.
Proof.
  intros Hlen [[_ Hh1] Hs1] [[_ Hh2] Hs2] Ht1 Ht2. unfold project_url.
  rewrite <- !app_assoc. intros Heq. apply app_inv_head in Heq.
  assert (secure1 = secure2) as ->.
  { destruct secure1, secure2; try done; simpl in Heq; discriminate. }
  split; [done|]. apply app_inv_head, app_inv_head in Heq.
  destruct (segments_slash_first segs1 t1 Ht1) as [x1 Hx1].
  destruct (segments_slash_first segs2 t2 Ht2) as [x2 Hx2].
  pose proof Heq as Heq'. rewrite Hx1, Hx2 in Heq'.
  apply first_occurrence in Heq' as [-> _]; [|done..].
  split; [done|]. apply app_inv_head in Heq.
  by apply segments_unique.
Qed.

Lemma marker_slash_first rest : slash_first (chars "/-/" ++ rest).
Proof. by eexists. Qed.

Lemma groups_project_url u : groups (u ++ chars "/-/") = of_chars u.
Proof.
  unfold groups. rewrite length_app. simpl.
  by rewrite take_app_length' by lia.
Qed.

(** The scheme separator of an address that holds it once *)
Lemma scheme_separator_once scheme R X Y :
  ":"%char ∉ scheme → includes_l (chars "://") R = false →
  scheme ++ chars "://" ++ R = X ++ chars "://" ++ Y → X = scheme.
Proof.
  intros Hscheme Hnone Heq.
  apply app_eq_inv in Heq as [(k & -> & Hk)|(k & -> & Hk)].
  - destruct k as [|c k]; [by rewrite app_nil_r|].
    simpl in Hk. injection Hk as <- _.
    destruct Hscheme. apply elem_of_app. right. by left.
  - destruct k as [|c1 [|c2 [|c3 k]]]; simpl in Hk.
    + by rewrite app_nil_r.
    + by injection Hk.
    + by injection Hk.
    + injection Hk as <- <- <- HR.
      assert (includes_l (chars "://") R = true) as Htrue
        by (apply includes_l_spec; exists k, Y; exact HR).
      by rewrite Htrue in Hnone.
Qed.

(** An address that starts with a project URL of the depth of the
    pattern, followed by [/-/], is matched up to that marker. *)
Lemma matched_project_url currentUrl secure host segs rest :
  well_formed host segs →
  chars currentUrl = project_url secure host segs ++ chars "/-/" ++ rest →
  matched (projectUrlPattern (length segs)) currentUrl
  = Some (project_url secure host segs ++ chars "/-/").
Proof.
  intros Hwf Hurl.
  destruct (matched_at_start (projectUrlPattern (length segs)) currentUrl
              (project_url secure host segs ++ chars "/-/") rest)
    as (w' & rest' & -> & Heq & HL).
  { by rewrite <- app_assoc. }
  { apply projectUrlPattern_lang. by exists secure, host, segs. }
  apply projectUrlPattern_lang in HL as (secure' & host' & segs' & Hlen & Hwf' & ->).
  rewrite Hurl, <- app_assoc in Heq.
  apply project_url_unique in Heq as (-> & -> & -> & _);
    [done|done|done|done|apply marker_slash_first..].
Qed.

Lemma project_url_snoc secure host segs seg tail :
  project_url secure host (segs ++ [seg]) ++ tail =
  project_url secure host segs ++ "/"%char :: seg ++ tail.
Proof.
  unfold project_url. rewrite fmap_app, join_app. cbn [fmap list_fmap mjoin list_join].
  rewrite app_nil_r, <- !app_assoc. done.
Qed.

Lemma scheme_start pre (secure' secure : bool) :
  pre ++ chars "http" ++ (if secure' then ["s"%char] else [])
  = chars "http" ++ (if secure then ["s"%char] else []) →
  pre = [] ∧ secure' = secure.
Proof.
  intros Heq. pose proof (f_equal length Heq) as Hlen.
  rewrite !length_app in Hlen.
  destruct pre as [|c [|d pre]].
  - split; [done|]. by destruct secure', secure.
  - destruct secure', secure; simpl in Hlen; try lia. simpl in Heq. discriminate.
  - destruct secure', secure; simpl in Hlen; lia.
Qed.

Lemma colon_not_in_scheme (secure : bool) :
  ":"%char ∉ chars "http" ++ (if secure then ["s"%char] else []).
Proof. destruct secure; apply (bool_decide_unpack _); by vm_compute. Qed.

(** No project URL of three segments occurs in an address that starts
    with one of two segments and holds the scheme separator once, unless
    [-/] follows the marker. *)
Lemma no_deeper_project_url currentUrl secure host segs rest :
  well_formed host segs → length segs = 2 →
  chars currentUrl = project_url secure host segs ++ chars "/-/" ++ rest →
  is_prefix (chars "-/") rest = false →
  includes_l (chars "://")
    (host ++ mjoin (("/"%char ::.) <$> segs) ++ chars "/-/" ++ rest) = false →
  matched (projectUrlPattern 3) currentUrl = None.
Proof.
  intros Hwf Hlen Hurl Hrest Honce.
  destruct (matched (projectUrlPattern 3) currentUrl) as [w|] eqn:E; [|done].
  exfalso. apply matched_Some in E as [HL (pre & suf & Heq)].
  apply projectUrlPattern_lang in HL as (secure' & host' & segs' & Hlen' & Hwf' & ->).
  rewrite Hurl in Heq.
  assert (pre = [] ∧ secure' = secure) as [-> ->].
  { apply scheme_start.
    eapply (scheme_separator_once _ _ _ _ (colon_not_in_scheme secure) Honce).
    unfold project_url in Heq. rewrite <- !app_assoc in Heq.
    rewrite <- !app_assoc. exact Heq. }
  cbn [app] in Heq.
  destruct segs' as [|a [|b [|c [|? ?]]]]; try done.
  change [a; b; c] with ([a; b] ++ [c]) in Heq.
  rewrite <- !app_assoc, project_url_snoc in Heq.
  destruct Hwf' as [Hhost' Hsegs'].
  inversion_clear Hsegs' as [|?? Ha Hsegs'']. inversion_clear Hsegs'' as [|?? Hb Hsegs'].
  inversion_clear Hsegs' as [|?? [_ Hc] _].
  assert (well_formed host' [a; b]) as Hwf'.
  { split; [done|]. apply Forall_cons. split; [done|].
    apply Forall_cons. split; [done|]. constructor. }
  apply project_url_unique in Heq as (_ & _ & _ & Htail);
    [|by rewrite Hlen|done|done|apply marker_slash_first|by eexists].
  simpl in Htail. injection Htail as Htail.
  apply (first_occurrence "/" ["-"%char] c) in Htail as [_ ->];
    [|apply (bool_decide_unpack _); by vm_compute|done].
  assert (is_prefix (chars "-/") (chars "-/" ++ suf) = true) as Htrue
    by (apply is_prefix_spec; eauto).
  change ("-"%char :: "/"%char :: suf) with (chars "-/" ++ suf) in Hrest.
  congruence.
Qed.

Definition projectUrlDiagnostic : Event :=
  ConsoleError
    "❌ GitLab MR Enhancer: Could not find project URL with any selector or URL extraction"
    [].

(** A project link found in the page decides: its [href] attribute is
    returned as it is written (nothing when the link has none), and the
    address is not looked at. Without a link, whatever is returned is a
    part of the address that reads [http(s)://host] followed by two or
    three path segments, and that [/-/] follows in the address; nothing
    is returned, and the diagnostic is logged, only if the address holds
    no such part. *)
Theorem base_project_url_is_link_or_short_address (currentUrl : string) (doc : Node) :
  match firstLink doc projectLinkSelectors with
  | Some link =>
      getBaseProjectUrl currentUrl doc
      = (get doc link ≫= λ n, attributes n !! "href", [])
  | None =>
      match (getBaseProjectUrl currentUrl doc).1 with
      | Some u =>
          (getBaseProjectUrl currentUrl doc).2 = [] ∧
          ∃ secure host segs pre suf,
            (length segs = 2 ∨ length segs = 3) ∧ well_formed host segs ∧
            chars u = project_url secure host segs ∧
            chars currentUrl = pre ++ chars u ++ chars "/-/" ++ suf
      | None =>
          (getBaseProjectUrl currentUrl doc).2 = [projectUrlDiagnostic] ∧
          ∀ secure host segs pre suf,
            (length segs = 2 ∨ length segs = 3) → well_formed host segs →
            chars currentUrl ≠ pre ++ project_url secure host segs ++ chars "/-/" ++ suf
      end
  end.
Proof.
  unfold getBaseProjectUrl.
  destruct (firstLink doc projectLinkSelectors) as [link|]; [done|].
  assert (∀ levels w, matched (projectUrlPattern levels) currentUrl = Some w →
            ∃ secure host segs pre suf,
              length segs = levels ∧ well_formed host segs ∧
              chars (groups w) = project_url secure host segs ∧
              chars currentUrl = pre ++ chars (groups w) ++ chars "/-/" ++ suf)
    as Hsound.
  { intros levels w [HL (pre & suf & Heq)]%matched_Some.
    apply projectUrlPattern_lang in HL as (secure & host & segs & Hlen & Hwf & ->).
    exists secure, host, segs, pre, suf.
    rewrite groups_project_url, chars_of_chars. rewrite <- app_assoc in Heq. done. }
  assert (∀ levels, matched (projectUrlPattern levels) currentUrl = None →
            ∀ secure host segs pre suf,
              length segs = levels → well_formed host segs →
              chars currentUrl ≠ pre ++ project_url secure host segs ++ chars "/-/" ++ suf)
    as Hcomplete.
  { intros levels Hnone secure host segs pre suf Hlen Hwf Heq.
    eapply (matched_None _ _ Hnone pre (project_url secure host segs ++ chars "/-/") suf).
    - by rewrite <- app_assoc.
    - apply projectUrlPattern_lang. by exists secure, host, segs. }
  destruct (matched (projectUrlPattern 3) currentUrl) as [w3|] eqn:E3.
  { cbn [fst snd]. split; [done|].
    destruct (Hsound 3 w3 E3) as (secure & host & segs & pre & suf & Hlen & Hrest).
    exists secure, host, segs, pre, suf. split; [by right|done]. }
  destruct (matched (projectUrlPattern 2) currentUrl) as [w2|] eqn:E2.
  { cbn [fst snd]. split; [done|].
    destruct (Hsound 2 w2 E2) as (secure & host & segs & pre & suf & Hlen & Hrest).
    exists secure, host, segs, pre, suf. split; [by left|done]. }
  cbn [fst snd]. split; [done|].
  intros secure host segs pre suf [Hlen|Hlen] Hwf.
  - by apply (Hcomplete 2 E2).
  - by apply (Hcomplete 3 E3).
Qed.

(** On a page without a project link, an address that starts with
    [http(s)://host] and three path segments before [/-/] gives that
    part as the project URL. One with two segments does as well, provided
    that [-/] does not follow the marker and that the address holds the
    scheme separator once: the pattern for three segments is tried
    first, anywhere in the address. *)
Theorem address_gives_the_project_url
    (currentUrl : string) (doc : Node)
    (secure : bool) (host : list ascii) (segs : list (list ascii)) (rest : list ascii) :
  firstLink doc projectLinkSelectors = None →
  well_formed host segs →
  chars currentUrl = project_url secure host segs ++ chars "/-/" ++ rest →
  length segs = 3 ∨
  (length segs = 2 ∧ is_prefix (chars "-/") rest = false ∧
   includes_l (chars "://")
     (host ++ mjoin (("/"%char ::.) <$> segs) ++ chars "/-/" ++ rest) = false) →
  getBaseProjectUrl currentUrl doc = (Some (of_chars (project_url secure host segs)), []).
Proof.
  intros Hlink Hwf Hurl Hdepth. unfold getBaseProjectUrl. rewrite Hlink.
  pose proof (matched_project_url currentUrl secure host segs rest Hwf Hurl) as Hm.
  destruct Hdepth as [Hlen|(Hlen & Hrest & Honce)]; rewrite Hlen in Hm.
  - by rewrite Hm, groups_project_url.
  - rewrite (no_deeper_project_url currentUrl secure host segs rest) by done.
    by rewrite Hm, groups_project_url.
Qed.

End ProjectUrlFacts.

Section ProjectUrlExamples.
Import JsString Dom GitLabApiClient ContentScript JsPattern Startup.

Example getBaseProjectUrl_examples :
  let page := sample_page "mr-list" [] in
  getBaseProjectUrl "https://gitlab.example.com/group/project/-/merge_requests" page
    = (Some "https://gitlab.example.com/group/project", []) ∧
  getBaseProjectUrl "https://gitlab.example.com/group/sub/project/-/merge_requests" page
    = (Some "https://gitlab.example.com/group/sub/project", []) ∧
  getBaseProjectUrl "https://gitlab.example.com/a/b/c/project/-/merge_requests" page
    = (None, [projectUrlDiagnostic]) ∧
  getBaseProjectUrl
    "https://gitlab.example.com/g/p/-/merge_requests?u=http://x.example.com/a/b/c/-/" page
    = (Some "http://x.example.com/a/b/c", []) ∧
  getBaseProjectUrl "https://gitlab.example.com/group/project/-/merge_requests"
    (elem "html" [] [elem "body" [] [elem "a" [("class", "project-link")] []]])
    = (None, []).
Proof. by vm_compute. Qed.

Lemma address_gives_the_project_url_witness :
  getBaseProjectUrl "http://gitlab.local:8080/group/project/-/merge_requests"
    (sample_page "mr-list" [])
  = (Some (of_chars (project_url false (chars "gitlab.local:8080")
                       [chars "group"; chars "project"])), []).
Proof.
  apply (address_gives_the_project_url
           "http://gitlab.local:8080/group/project/-/merge_requests"
           (sample_page "mr-list" []) false (chars "gitlab.local:8080")
           [chars "group"; chars "project"] (chars "merge_requests"));
    [reflexivity
    |split; [|repeat constructor]; try done;
       apply (bool_decide_unpack _); by vm_compute
    |reflexivity
    |right; by vm_compute].
Defined.

End ProjectUrlExamples.

Section BannerFacts.
Import JsString Dom GitLabApiClient ContentScript Startup.

(** The selection over a list of siblings, the first of which has index [i] *)
Fixpoint xqsa_forest (sel : xselector) (anc : list einfo) (i : nat) (cs : list Node)
    : list path :=
  match cs with
  | [] => []
  | c :: cs' => ((i ::.) <$> xqsa_node sel anc c) ++ xqsa_forest sel anc (S i) cs'
  end.

Lemma xqsa_node_Element sel anc t a cs :
  xqsa_node sel anc (Element t a cs) =
  (if xmatches sel anc (t, a) then [[]] else []) ++ xqsa_forest sel ((t, a) :: anc) 0 cs.
Proof.
  simpl. f_equal. generalize 0.
  induction cs as [|c cs IH]; intros i; simpl; [done|]. by rewrite IH.
Qed.

Lemma xqsa_forest_app sel anc l1 : ∀ i l2,
  xqsa_forest sel anc i (l1 ++ l2) =
  xqsa_forest sel anc i l1 ++ xqsa_forest sel anc (i + length l1) l2.
Proof.
  induction l1 as [|c l1 IH]; intros i l2; simpl.
  - by rewrite Nat.add_0_r.
  - rewrite IH, <- app_assoc. do 3 f_equal. lia.
Qed.

Lemma xqsa_forest_alter sel anc (f : Node → Node) k cs : ∀ i,
  (∀ c, cs !! k = Some c → xqsa_node sel anc (f c) = xqsa_node sel anc c) →
  xqsa_forest sel anc i (alter f k cs) = xqsa_forest sel anc i cs.
Proof.
  revert k. induction cs as [|c cs IH]; intros k i Hf; [done|].
  destruct k as [|k]; simpl.
  - by rewrite Hf.
  - f_equal. apply IH. intros c' Hc'. by apply Hf.
Qed.

(** A node that the selector finds nothing in can be appended anywhere
    without changing what the selector finds. *)
Lemma xqsa_node_append sel x p : ∀ anc doc,
  (∀ anc', xqsa_node sel anc' x = []) →
  xqsa_node sel anc (update (append [x]) p doc) = xqsa_node sel anc doc.
Proof.
  induction p as [|k p IH]; intros anc doc Hx.
  - destruct doc as [s|t a cs]; [done|]. cbn [update append].
    rewrite !xqsa_node_Element, xqsa_forest_app. simpl. by rewrite Hx, app_nil_r.
  - destruct doc as [s|t a cs]; [done|]. cbn [update].
    rewrite !xqsa_node_Element. f_equal.
    apply xqsa_forest_alter. intros c _. by apply IH.
Qed.

Lemma xquerySelector_append sel x p doc :
  (∀ anc', xqsa_node sel anc' x = []) →
  xquerySelector (update (append [x]) p doc) sel = xquerySelector doc sel.
Proof. intros Hx. unfold xquerySelector. by rewrite xqsa_node_append. Qed.

(** None of the selectors of the start-up code selects the banner. *)
Definition startupSelectors : list xselector :=
  [ under [] (xtag "body");
    under [] [Is (STag "meta"); Is (SAttr "name" "csrf-token")];
    under [xcls "navbar-nav"] (xcls "header-user");
    under [xcls "nav-sidebar"] (xcls "shortcuts-pipelines");
    svgUseSelector ] ++ projectLinkSelectors.

Lemma banner_unselected style sel :
  sel ∈ startupSelectors → ∀ anc, xqsa_node sel anc (debugDiv style) = [].
Proof.
  intros Hsel anc. unfold debugDiv. rewrite xqsa_node_Element. simpl xqsa_forest.
  rewrite app_nil_r.
  assert (matches_tests (subject sel) ("div", {[ "style" := style ]}) = false) as Hs.
  { unfold startupSelectors, projectLinkSelectors in Hsel. cbn [app] in Hsel.
    repeat (apply elem_of_cons in Hsel as [->|Hsel]; [by vm_compute|]).
    by apply elem_of_nil in Hsel. }
  unfold xmatches. by rewrite Hs.
Qed.

Lemma elem_of_xqsa_forest sel anc cs : ∀ i q,
  q ∈ xqsa_forest sel anc i cs →
  ∃ j c q', q = (i + j) :: q' ∧ cs !! j = Some c ∧ q' ∈ xqsa_node sel anc c.
Proof.
  induction cs as [|c cs IH]; intros i q; simpl; [by intros ?%elem_of_nil|].
  rewrite elem_of_app, list_elem_of_fmap.
  intros [(q' & -> & Hq')|(j & c' & q' & -> & Hj & Hq')%IH].
  - exists 0, c, q'. by rewrite Nat.add_0_r.
  - exists (S j), c', q'. split; [f_equal; lia|done].
Qed.

(** What a selector finds is an element of the document. *)
Lemma xqsa_node_element sel n : ∀ anc q,
  q ∈ xqsa_node sel anc n → ∃ t a cs, get n q = Some (Element t a cs).
Proof.
  induction n as [s|t a cs IH] using Node_ind'; intros anc q; [by intros ?%elem_of_nil|].
  rewrite xqsa_node_Element, elem_of_app.
  intros [Hroot|(j & c & q' & -> & Hj & Hq')%elem_of_xqsa_forest].
  - destruct (xmatches sel anc (t, a)); [|by apply elem_of_nil in Hroot].
    apply list_elem_of_singleton in Hroot as ->. by exists t, a, cs.
  - rewrite Forall_forall in IH.
    destruct (IH c (list_elem_of_lookup_2 _ _ _ Hj) _ _ Hq') as (t' & a' & cs' & Hg).
    exists t', a', cs'. simpl. by rewrite get_cons, Hj.
Qed.

(** The attributes of the first element that a selector finds *)
Definition found_attributes (doc : Node) (sel : xselector) : option (gmap string string) :=
  attributes <$> (xquerySelector doc sel ≫= get doc).

Lemma found_append sel x p doc :
  (∀ anc', xqsa_node sel anc' x = []) →
  found_attributes (update (append [x]) p doc) sel = found_attributes doc sel.
Proof.
  intros Hx. unfold found_attributes. rewrite xquerySelector_append by done.
  unfold xquerySelector.
  destruct (xqsa_node sel [] doc) as [|q qs] eqn:E; [done|]. simpl.
  assert (q ∈ xqsa_node sel [] doc) as Hq by (rewrite E; by left).
  apply xqsa_node_element in Hq as (t & a & cs & Hg).
  destruct (attributes_after_edit (λ a, a) [x] p doc q (Element t a cs))
    as (n' & Hg' & Ha); [by right|done|].
  rewrite <- (update_ext (append [x]) (edit (λ a, a) [x])) in Hg'
    by (intros; apply append_edit).
  rewrite Hg, Hg'. simpl. by rewrite Ha.
Qed.

Lemma getCurrentProjectId_found doc :
  getCurrentProjectId doc = found_attributes doc (under [] (xtag "body")) ≫= (.!! dataset_attr "projectId").
Proof.
  unfold getCurrentProjectId, found_attributes.
  destruct (xquerySelector doc _) as [q|]; [|done]. simpl.
  by destruct (get doc q).
Qed.

Lemma getCsrfToken_found doc :
  getCsrfToken doc =
  found_attributes doc (under [] [Is (STag "meta"); Is (SAttr "name" "csrf-token")]) ≫= (.!! "content").
Proof.
  unfold getCsrfToken, found_attributes.
  destruct (xquerySelector doc _) as [q|]; [|done]. simpl.
  by destruct (get doc q).
Qed.

Lemma firstLink_append x p doc selectors :
  (∀ sel, sel ∈ selectors → ∀ anc', xqsa_node sel anc' x = []) →
  firstLink (update (append [x]) p doc) selectors = firstLink doc selectors.
Proof.
  induction selectors as [|sel selectors IH]; intros Hx; [done|]. simpl.
  rewrite xquerySelector_append by (apply Hx; by left).
  rewrite IH; [done|]. intros sel' Hsel'. apply Hx. by right.
Qed.

(** The link that [getBaseProjectUrl] returns the [href] of is found by
    one of the selectors. *)
Lemma firstLink_Some doc selectors link :
  firstLink doc selectors = Some link →
  ∃ sel, sel ∈ selectors ∧ xquerySelector doc sel = Some link.
Proof.
  induction selectors as [|sel selectors IH]; simpl; [done|].
  destruct (xquerySelector doc sel) as [q|] eqn:E.
  - intros [= <-]. exists sel. split; [by left|done].
  - intros (sel' & Hin & Hq)%IH. exists sel'. split; [by right|done].
Qed.

Lemma xquerySelector_element doc sel q :
  xquerySelector doc sel = Some q → ∃ t a cs, get doc q = Some (Element t a cs).
Proof.
  unfold xquerySelector. intros Hhead.
  apply (xqsa_node_element sel doc []).
  destruct (xqsa_node sel [] doc); simplify_eq/=. by left.
Qed.

Lemma attributes_append x p doc q t a cs :
  get doc q = Some (Element t a cs) →
  attributes <$> get (update (append [x]) p doc) q = Some a.
Proof.
  intros Hg.
  destruct (attributes_after_edit (λ a, a) [x] p doc q (Element t a cs))
    as (n' & Hg' & Ha); [by right|done|].
  rewrite <- (update_ext (append [x]) (edit (λ a, a) [x])) in Hg'
    by (intros; apply append_edit).
  rewrite Hg'. simpl. by rewrite Ha.
Qed.

(** What the script reads from the page when it starts is not changed by
    appending, anywhere, a node in which no selector of the start-up code
    finds anything. *)
Lemma startup_readings_append `{UrlApi} (x : Node) (doc : Node) (body : path) :
  (∀ sel, sel ∈ startupSelectors → ∀ anc, xqsa_node sel anc x = []) →
  let shown := update (append [x]) body doc in
  getCurrentProjectId shown = getCurrentProjectId doc ∧
  (∀ currentUrl, getBaseProjectUrl currentUrl shown = getBaseProjectUrl currentUrl doc) ∧
  getCsrfToken shown = getCsrfToken doc ∧
  isUserAuthenticated shown = isUserAuthenticated doc ∧
  isPipelineFeatureEnabled shown = isPipelineFeatureEnabled doc ∧
  (∀ baseUrl, getBaseIconsUrl baseUrl shown = getBaseIconsUrl baseUrl doc).
Proof.
  intros Hbanner shown.
  assert (∀ sel, sel ∈ startupSelectors → xquerySelector shown sel = xquerySelector doc sel)
    as Hsame by (intros sel Hsel; apply xquerySelector_append; by apply Hbanner).
  assert (∀ sel, sel ∈ startupSelectors → found_attributes shown sel = found_attributes doc sel)
    as Hfound by (intros sel Hsel; apply found_append; by apply Hbanner).
  split; [|split; [|split; [|split; [|split]]]].
  - rewrite !getCurrentProjectId_found, Hfound; [done|]. set_solver.
  - intros currentUrl. unfold getBaseProjectUrl.
    assert (firstLink shown projectLinkSelectors = firstLink doc projectLinkSelectors)
      as ->.
    { apply firstLink_append. intros sel Hsel. apply Hbanner.
      unfold startupSelectors. apply elem_of_app. by right. }
    destruct (firstLink doc projectLinkSelectors) as [link|] eqn:E; [|done].
    apply firstLink_Some in E as (sel & _ & Hq).
    apply xquerySelector_element in Hq as (t & a & cs & Hg).
    pose proof (attributes_append x body doc link t a cs Hg) as Ha.
    fold shown in Ha. rewrite Hg. simpl.
    destruct (get shown link) as [n|]; simplify_eq/=. done.
  - rewrite !getCsrfToken_found, Hfound; [done|]. set_solver.
  - unfold isUserAuthenticated. rewrite Hsame; [done|]. set_solver.
  - unfold isPipelineFeatureEnabled. rewrite Hsame; [done|]. set_solver.
  - intros baseUrl. unfold getBaseIconsUrl.
    rewrite (Hsame svgUseSelector) by set_solver.
    destruct (xquerySelector doc svgUseSelector) as [q|] eqn:E; [|done]. simpl.
    apply xquerySelector_element in E as (t & a & cs & Hg).
    pose proof (attributes_append x body doc q t a cs Hg) as Ha.
    fold shown in Ha. rewrite Hg.
    destruct (get shown q) as [n|]; simplify_eq/=. done.
Qed.

(** The banner changes nothing of what the script reads from the page
    when it starts: the project id, the project URL, the CSRF token, the
    two flags and the icons URL are those of the page without it. *)
Theorem banner_is_not_read `{UrlApi} (style : string) (doc : Node) (body : path) :
  let shown := update (append [debugDiv style]) body doc in
  getCurrentProjectId shown = getCurrentProjectId doc ∧
  (∀ currentUrl, getBaseProjectUrl currentUrl shown = getBaseProjectUrl currentUrl doc) ∧
  getCsrfToken shown = getCsrfToken doc ∧
  isUserAuthenticated shown = isUserAuthenticated doc ∧
  isPipelineFeatureEnabled shown = isPipelineFeatureEnabled doc ∧
  (∀ baseUrl, getBaseIconsUrl baseUrl shown = getBaseIconsUrl baseUrl doc).
Proof.
  apply startup_readings_append. intros sel Hsel anc. by apply banner_unselected.
Qed.

End BannerFacts.

Section ConstructorFacts.
Import JsString Dom GitLabApiClient ContentScript Startup.
Context `{Api : UrlApi}.

Definition abortedWithoutProjectId : Event :=
  ConsoleError "❌ GitLab MR Enhancer: Aborting: current project ID cannot be found" [].
Definition abortedWithoutProjectUrl : Event :=
  ConsoleError "❌ GitLab MR Enhancer: Aborting: base project URL cannot be found" [].

(** [location.protocol + "//" + location.host] *)
Definition origin (location : Location) : string :=
  protocol location +:+ "//" +:+ host location.

(** The outcomes of the constructor, read off the page as it is before
    the banner is added. Without a body it raises at once. With one, the
    banner is shown and its timer set; then the construction is
    abandoned with a diagnostic when the body has no project id (or an
    empty one) or when no project URL is found (or an empty one), it
    raises when the icon reference is no URL, and otherwise the fields
    are those read from the page, the API base being the origin of the
    page followed by [/api/v4/]. No request is made in any case. *)
Theorem construction_outcomes (style : string) (location : Location) (doc : Node) :
  let shown body := update (append [debugDiv style]) body doc in
  let projectId := getCurrentProjectId doc in
  let projectUrl := getBaseProjectUrl (href location) doc in
  let result := construct style location doc in
  match documentBody doc with
  | None => result = Raised doc []
  | Some body =>
      if negb (truthy projectId) then
        result = Aborted (shown body) [SetTimeout 5000; abortedWithoutProjectId]
      else if negb (truthy projectUrl.1) then
        result = Aborted (shown body)
                   (SetTimeout 5000 :: projectUrl.2 ++ [abortedWithoutProjectUrl])
      else
        match getBaseIconsUrl (origin location) doc with
        | Throws => result = Raised (shown body) (SetTimeout 5000 :: projectUrl.2)
        | Returns baseIconsUrl =>
            result =
            Constructed (shown body) (SetTimeout 5000 :: projectUrl.2)
              {| f_currentProjectId := default "" projectId;
                 f_baseProjectUrl := default "" projectUrl.1;
                 f_baseUrl := origin location;
                 f_baseApiUrl := origin location +:+ "/api/v4/";
                 f_baseIconsUrl := baseIconsUrl;
                 f_userAuthenticated := isUserAuthenticated doc;
                 f_pipelineFeatureEnabled := isPipelineFeatureEnabled doc;
                 f_apiClient := {| baseUrl := origin location +:+ "/api/v4/";
                                   csrfToken := getCsrfToken doc |} |}
        end
  end.
Proof.
  intros shown projectId projectUrl result. unfold result, construct, addDebugElement.
  destruct (documentBody doc) as [body|]; [|done]. cbn [mbind option_bind].
  destruct (startup_readings_append (debugDiv style) doc body)
    as (Hid & Hurl & Htoken & Hauth & Hpipe & Hicons);
    [intros sel Hsel anc; by apply banner_unselected|].
  rewrite Hid, Hurl, Htoken, Hauth, Hpipe, Hicons.
  fold projectId projectUrl (origin location) (shown body).
  destruct projectId as [pid|]; [|done]. cbn [truthy].
  destruct (bool_decide (pid = "")); [done|]. cbn [negb].
  destruct projectUrl as [[url|] events']; [|done]. cbn [truthy fst snd].
  destruct (bool_decide (url = "")); [done|]. cbn [negb].
  by destruct (getBaseIconsUrl (origin location) doc).
Qed.

(** The fields of a script that was constructed *)
Lemma constructed_fields (style : string) (location : Location) (doc shown : Node)
    (events : list Event) (fields : Fields) :
  construct style location doc = Constructed shown events fields →
  ∃ projectId projectUrl baseIconsUrl,
    getCurrentProjectId doc = Some projectId ∧
    fields = {| f_currentProjectId := projectId;
                f_baseProjectUrl := projectUrl;
                f_baseUrl := origin location;
                f_baseApiUrl := origin location +:+ "/api/v4/";
                f_baseIconsUrl := baseIconsUrl;
                f_userAuthenticated := isUserAuthenticated doc;
                f_pipelineFeatureEnabled := isPipelineFeatureEnabled doc;
                f_apiClient := {| baseUrl := origin location +:+ "/api/v4/";
                                  csrfToken := getCsrfToken doc |} |}.
Proof.
  unfold construct, addDebugElement.
  destruct (documentBody doc) as [body|]; [|done]. cbn [mbind option_bind].
  destruct (startup_readings_append (debugDiv style) doc body)
    as (Hid & Hurl & Htoken & Hauth & Hpipe & Hicons);
    [intros sel Hsel anc; by apply banner_unselected|].
  rewrite Hid, Hurl, Htoken, Hauth, Hpipe, Hicons. fold (origin location).
  destruct (getCurrentProjectId doc) as [projectId|]; [|done].
  destruct (bool_decide (projectId = "")); [done|].
  destruct (getBaseProjectUrl (href location) doc) as [[projectUrl|] events']; [|done].
  destruct (bool_decide (projectUrl = "")); [done|].
  destruct (getBaseIconsUrl (origin location) doc) as [|baseIconsUrl]; [done|].
  intros [= _ _ <-]. by exists projectId, projectUrl, baseIconsUrl.
Qed.

(** The events of the poller are timers followed by the diagnostic or by
    the request for the details. *)
Lemma poller_events this docAt attempts :
  attempts < maxAttempts →
  ∃ retries last,
    (checkForMergeRequests this docAt attempts).2
      = replicate retries (SetTimeout 1000) ++ [last] ∧
    (last = exhaustedDiagnostic ∨ ∃ ids, last = Fetch (detailsRequest this ids)).
Proof.
  intros Hlt. remember (maxAttempts - attempts) as m eqn:Hm.
  revert attempts Hlt Hm.
  induction m as [|m IH]; intros attempts Hlt Hm; [lia|].
  rewrite checkForMergeRequests_body.
  destruct (firstNonEmpty (docAt (S attempts)) referenceSelectors) as [|p l] eqn:E.
  - destruct (decide (S attempts < maxAttempts)) as [Hlt'|Hge].
    + destruct (IH (S attempts) Hlt' ltac:(lia)) as (retries & last & Hev & Hlast).
      exists (S retries), last. simpl. by rewrite Hev.
    + exists 0, exhaustedDiagnostic. split; [done|by left].
  - exists 0. eexists. split; [reflexivity|]. right. eexists. reflexivity.
Qed.

(** Once constructed, the script asks for details on the origin of the
    page only, and for the project named by the body: every request that
    the poller makes is a [GET] of
    [<origin>/api/v4/projects/<project id>/merge_requests] that carries
    no header and no body. *)
Theorem requests_go_to_the_origin_of_the_page
    (style : string) (location : Location) (doc shown : Node)
    (events : list Event) (fields : Fields)
    (preferences : Preferences) (docAt : nat → Node) (req : Request) :
  construct style location doc = Constructed shown events fields →
  Fetch req ∈ (waitForMergeRequestsAndProcess (withPreferences fields preferences) docAt).2 →
  getCurrentProjectId doc = Some (f_currentProjectId fields) ∧
  req_method req = "GET" ∧
  req_base req = origin location +:+ "/api/v4/" ∧
  req_endpoint req = "projects/" +:+ f_currentProjectId fields +:+ "/merge_requests" ∧
  req_headers req = ∅ ∧ req_body req = None.
Proof.
  intros Hconstructed Hin.
  destruct (constructed_fields _ _ _ _ _ _ Hconstructed)
    as (projectId & projectUrl & baseIconsUrl & Hid & ->).
  cbn [f_currentProjectId]. split; [done|].
  unfold waitForMergeRequestsAndProcess in Hin.
  destruct (poller_events (withPreferences
                             {| f_currentProjectId := projectId;
                                f_baseProjectUrl := projectUrl;
                                f_baseUrl := origin location;
                                f_baseApiUrl := origin location +:+ "/api/v4/";
                                f_baseIconsUrl := baseIconsUrl;
                                f_userAuthenticated := isUserAuthenticated doc;
                                f_pipelineFeatureEnabled := isPipelineFeatureEnabled doc;
                                f_apiClient := {| baseUrl := origin location +:+ "/api/v4/";
                                                  csrfToken := getCsrfToken doc |} |}
                             preferences) docAt 0)
    as (retries & last & Hev & Hlast); [unfold maxAttempts; lia|].
  unfold Datatypes.id in *. rewrite Hev in Hin.
  apply elem_of_app in Hin as [Hin|Hin].
  { apply elem_of_replicate in Hin as [? _]. done. }
  apply list_elem_of_singleton in Hin.
  destruct Hlast as [->|[ids ->]]; [done|]. by injection Hin as ->.
Qed.

(** On a page that carries no CSRF token (no [meta] element named
    [csrf-token], or one without content), the script that is
    constructed cannot toggle: a click raises before any request is
    made, the page is left as it is, and the button stays disabled. *)
Theorem page_without_csrf_token_cannot_toggle
    (style : string) (location : Location) (doc shown : Node)
    (events : list Event) (fields : Fields)
    (preferences : Preferences) (page : Node) (mergeRequestNode : path)
    (outcome : Outcome MergeRequest) :
  construct style location doc = Constructed shown events fields →
  truthy (getCsrfToken doc) = false →
  let clicked :=
    toggleMergeRequestWipStatus (withPreferences fields preferences) page
      mergeRequestNode outcome in
  t_thrown clicked = true ∧ t_disabled clicked = true ∧ t_doc clicked = page ∧
  ∀ req, Fetch req ∉ t_events clicked.
Proof.
  intros Hconstructed Htoken.
  destruct (constructed_fields _ _ _ _ _ _ Hconstructed)
    as (projectId & projectUrl & baseIconsUrl & Hid & ->).
  unfold toggleMergeRequestWipStatus.
  destruct (get page mergeRequestNode ≫= _) as [[node newTitle]|]; cbn zeta.
  - unfold updateProjectMergeRequest.
    rewrite sendRequest_PUT_without_token by done. cbn.
    repeat split; try done.
    intros req Hin. apply list_elem_of_singleton in Hin. done.
  - repeat split; try done. intros req Hin. by apply elem_of_nil in Hin.
Qed.

End ConstructorFacts.

Section StartupExamples.
Import JsString Dom GitLabApiClient ContentScript Startup.

(** A merge request list page as the script finds it when it starts *)
Definition startup_page (head : list Node) : Node :=
  elem "html" []
    [ elem "head" [] head;
      elem "body" [("data-project-id", "5")]
        [ elem "ul" [("class", "mr-list")] [sample_item [] "One" "!1"] ] ].

Definition csrf_meta : Node :=
  elem "meta" [("name", "csrf-token"); ("content", "tok")] [].

Definition startup_location : Location :=
  {| href := "https://gitlab.example.com/group/project/-/merge_requests";
     protocol := "https:";
     host := "gitlab.example.com" |}.

Definition startup_fields (token : option string) : Fields :=
  {| f_currentProjectId := "5";
     f_baseProjectUrl := "https://gitlab.example.com/group/project";
     f_baseUrl := "https://gitlab.example.com";
     f_baseApiUrl := "https://gitlab.example.com/api/v4/";
     f_baseIconsUrl := None;
     f_userAuthenticated := false;
     f_pipelineFeatureEnabled := false;
     f_apiClient := {| baseUrl := "https://gitlab.example.com/api/v4/";
                       csrfToken := token |} |}.

Definition startup_preferences : Preferences :=
  {| display_source_and_target_branches := true;
     base_jira_url := "https://jira.example.com/";
     copy_mr_info_format := "{MR_TITLE}" |}.

Example construct_example :
  @construct simple_url_api "position: fixed" startup_location (startup_page [csrf_meta])
  = Constructed
      (update (append [debugDiv "position: fixed"]) [1] (startup_page [csrf_meta]))
      [SetTimeout 5000] (startup_fields (Some "tok")) ∧
  @construct simple_url_api "position: fixed" startup_location
    (elem "html" [] [elem "body" [] []])
  = Aborted
      (elem "html" [] [elem "body" [] [debugDiv "position: fixed"]])
      [SetTimeout 5000; abortedWithoutProjectId] ∧
  @construct simple_url_api "position: fixed" startup_location (elem "html" [] [])
  = Raised (elem "html" [] []) [].
Proof. by vm_compute. Qed.

Lemma requests_go_to_the_origin_of_the_page_witness :
  let fields := startup_fields (Some "tok") in
  let req := detailsRequest (withPreferences fields startup_preferences) ["1"] in
  getCurrentProjectId (startup_page [csrf_meta]) = Some (f_currentProjectId fields) ∧
  req_method req = "GET" ∧
  req_base req = origin startup_location +:+ "/api/v4/" ∧
  req_endpoint req = "projects/" +:+ f_currentProjectId fields +:+ "/merge_requests" ∧
  req_headers req = ∅ ∧ req_body req = None.
Proof.
  apply (@requests_go_to_the_origin_of_the_page simple_url_api "position: fixed"
           startup_location (startup_page [csrf_meta])
           (update (append [debugDiv "position: fixed"]) [1] (startup_page [csrf_meta]))
           [SetTimeout 5000] (startup_fields (Some "tok")) startup_preferences
           (λ _, startup_page [csrf_meta])
           (detailsRequest (withPreferences (startup_fields (Some "tok"))
                              startup_preferences) ["1"])).
  - by vm_compute.
  - apply list_elem_of_singleton. by vm_compute.
Defined.

Lemma page_without_csrf_token_cannot_toggle_witness :
  let page := startup_page [] in
  let clicked :=
    toggleMergeRequestWipStatus (withPreferences (startup_fields None) startup_preferences)
      page [1; 0; 0] Rejected in
  t_thrown clicked = true ∧ t_disabled clicked = true ∧ t_doc clicked = page ∧
  ∀ req, Fetch req ∉ t_events clicked.
Proof.
  apply (@page_without_csrf_token_cannot_toggle simple_url_api "position: fixed"
           startup_location (startup_page [])
           (update (append [debugDiv "position: fixed"]) [1] (startup_page []))
           [SetTimeout 5000] (startup_fields None) startup_preferences
           (startup_page []) [1; 0; 0] Rejected).
  - by vm_compute.
  - reflexivity.
Defined.

End StartupExamples.

(** ** The banner, added and removed *)

Section BannerRoundTrip.
Import JsString Dom GitLabApiClient ContentScript Startup.

Lemma detach_cons i j r t a cs :
  detach (i :: j :: r) (Element t a cs) = Element t a (alter (detach (j :: r)) i cs).
Proof. done. Qed.

Lemma detach_snoc p : ∀ k n,
  detach (p ++ [k]) n =
  update (λ x, match x with
               | Element t a cs => Element t a (delete k cs)
               | Text _ => x
               end) p n.
Proof.
  induction p as [|i p IH]; intros k n; [by destruct n|].
  destruct n as [s|t a cs]; [by destruct p|].
  cbn [app update]. specialize (IH k).
  destruct (p ++ [k]) as [|j r] eqn:E; [by destruct p|].
  rewrite detach_cons. f_equal. apply list_alter_ext; [|done].
  intros x _. apply IH.
Qed.

Lemma update_same f p : ∀ n,
  (∀ x, get n p = Some x → f x = x) → update f p n = n.
Proof.
  induction p as [|i p IH]; intros n Hf; [by apply Hf|].
  destruct n as [s|t a cs]; [done|]. cbn [update]. f_equal.
  etrans; [|apply (list_alter_id (λ x, x)); done].
  apply list_alter_ext; [|done]. intros c Hc. apply IH. intros x Hx. apply Hf.
  by rewrite get_cons, Hc.
Qed.

(** The banner is the last child of the body, and the page from which it
    is removed there is the page as it was before it was added. *)
Theorem banner_removed_restores_the_page
    (style : string) (doc shown : Node) (events : list Event)
    (body : path) (t : string) (a : gmap string string) (cs : list Node) :
  addDebugElement style doc = Some (shown, events) →
  documentBody doc = Some body →
  get doc body = Some (Element t a cs) →
  events = [SetTimeout 5000] ∧
  get shown body = Some (Element t a (cs ++ [debugDiv style])) ∧
  get shown (body ++ [length cs]) = Some (debugDiv style) ∧
  removeDebugElement (Some (body ++ [length cs])) shown = doc ∧
  removeDebugElement None shown = shown.
Proof.
  unfold addDebugElement. intros Hadd Hbody Hget. rewrite Hbody in Hadd.
  injection Hadd as <- <-. split; [done|].
  assert (get (update (append [debugDiv style]) body doc) body
          = Some (Element t a (cs ++ [debugDiv style]))) as Hshown
    by (by rewrite get_update_same, Hget).
  split; [done|]. split.
  - rewrite get_app, Hshown. simpl. rewrite get_cons.
    by rewrite list_lookup_middle.
  - split; [|done]. unfold removeDebugElement. rewrite detach_snoc, update_update.
    apply update_same. intros x Hx. rewrite Hget in Hx. injection Hx as <-.
    simpl. f_equal. rewrite delete_middle. apply app_nil_r.
Qed.

Lemma banner_removed_restores_the_page_witness :
  let doc := startup_page [] in
  let shown := update (append [debugDiv "position: fixed"]) [1] doc in
  let cs := [elem "ul" [("class", "mr-list")] [sample_item [] "One" "!1"]] in
  [SetTimeout 5000] = [SetTimeout 5000] ∧
  get shown [1] = Some (Element "body" {[ "data-project-id" := "5" ]}
                          (cs ++ [debugDiv "position: fixed"])) ∧
  get shown ([1] ++ [length cs]) = Some (debugDiv "position: fixed") ∧
  removeDebugElement (Some ([1] ++ [length cs])) shown = doc ∧
  removeDebugElement None shown = shown.
Proof.
  apply (banner_removed_restores_the_page "position: fixed" (startup_page [])
           (update (append [debugDiv "position: fixed"]) [1] (startup_page []))
           [SetTimeout 5000] [1] "body" {[ "data-project-id" := "5" ]}
           [elem "ul" [("class", "mr-list")] [sample_item [] "One" "!1"]]);
    by vm_compute.
Defined.

End BannerRoundTrip.

(** ** Icons *)

Section SpriteIconFacts.
Import JsString Dom GitLabApiClient ContentScript Startup.

(** The markup that [buildSpriteIcon] writes *)
Definition spriteIconMarkup (baseIconsUrl : option string) (iconName classes : string)
    : Markup :=
  MElement "svg" [("class", "s16 " +:+ classes); ("data-testid", iconName +:+ "-icon")]
    [ MElement "use" [("xlink:href", default "null" baseIconsUrl +:+ "#" +:+ iconName)] [] ].

Lemma buildSpriteIcon_serialize baseIconsUrl iconName classes :
  buildSpriteIcon baseIconsUrl iconName classes
  = serialize (spriteIconMarkup baseIconsUrl iconName classes).
Proof.
  unfold buildSpriteIcon, spriteIconMarkup. cbn [serialize fmap list_fmap concat_strings foldr].
  unfold serialize_attr. cbn [fst snd].
  apply chars_inj. rewrite !chars_app, <- !app_assoc. reflexivity.
Qed.

End SpriteIconFacts.
